(** * Quark-Engine, Rizin backend: a shallow embedding of
    [quark/core/rzapkinfo.py], [quark/core/struct/methodobject.py] and
    [quark/utils/tools.py], and the properties the specification states
    about them.

    Python [str] values are modelled as [string] (sequences of 8-bit
    characters, the character classes of [re] restricted to ASCII);
    Python [int] as [Z], with the interpreter's limit on the number of
    digits that [int] converts; exceptions as the [Raise] case of
    [result]; the Rizin pipe as a table of canned answers together with
    a log of the commands that were sent; the memoisation of
    [functools.lru_cache] as tables carried in the state. Calls to
    [logging] have no effect on any value and are left out. *)

From Stdlib Require Import String Ascii List ZArith Lia Bool Arith.
From Stdlib Require Import Numbers.DecimalString Numbers.DecimalZ.
From Equations Require Import Equations.
From stdpp Require Import base gmap strings.
Import ListNotations.

Local Open Scope string_scope.
Local Open Scope list_scope.
Local Open Scope stdpp_scope.

(** ** Python string primitives *)

Module Str.

(** [s.startswith(p)] *)
Definition startswith (s p : string) : bool := String.prefix p s.

(** [s.endswith(suf)] *)
Fixpoint endswith (s suf : string) : bool :=
  if String.eqb s suf then true
  else match s with
       | EmptyString => false
       | String _ s' => endswith s' suf
       end.

(** [sub in s] *)
Fixpoint contains (sub s : string) : bool :=
  if String.prefix sub s then true
  else match s with
       | EmptyString => false
       | String _ s' => contains sub s'
       end.

(** [s.find(sub)], with [None] for Python's [-1]; [s.index(sub)]
    raises where this is [None]. *)
Fixpoint find (sub s : string) : option nat :=
  if String.prefix sub s then Some 0
  else match s with
       | EmptyString => None
       | String _ s' => option_map S (find sub s')
       end.

(** [s.rfind(sub)], with [None] for Python's [-1]. *)
Fixpoint rfind (sub s : string) : option nat :=
  match s with
  | EmptyString => if String.prefix sub s then Some 0 else None
  | String _ s' =>
      match rfind sub s' with
      | Some i => Some (S i)
      | None => if String.prefix sub s then Some 0 else None
      end
  end.

(** [s[:n]] for [n >= 0] *)
Fixpoint take (n : nat) (s : string) : string :=
  match n, s with
  | S n', String c s' => String c (take n' s')
  | _, _ => EmptyString
  end.

(** [s[n:]] for [n >= 0] *)
Fixpoint drop (n : nat) (s : string) : string :=
  match n, s with
  | S n', String _ s' => drop n' s'
  | _, _ => s
  end.

(** [s[:-k]] for [k > 0] *)
Definition drop_last (k : nat) (s : string) : string :=
  take (String.length s - k) s.

(** [s.replace(c, new)] for a one-character [c] *)
Fixpoint replace_char (c : ascii) (new : string) (s : string) : string :=
  match s with
  | EmptyString => EmptyString
  | String a s' =>
      (if Ascii.eqb a c then new else String a EmptyString)
        +:+ replace_char c new s'
  end.

(** [re.sub(re.escape(c), new, s, count=1)] for a one-character [c] *)
Fixpoint replace_first_char (c : ascii) (new : string) (s : string) : string :=
  match s with
  | EmptyString => EmptyString
  | String a s' =>
      if Ascii.eqb a c then new +:+ s'
      else String a (replace_first_char c new s')
  end.

(** [sep.join(l)] *)
Fixpoint join (sep : string) (l : list string) : string :=
  match l with
  | [] => EmptyString
  | [x] => x
  | x :: l' => x +:+ sep +:+ join sep l'
  end.

(** Every character of [s] satisfies [p]. *)
Fixpoint all (p : ascii -> bool) (s : string) : bool :=
  match s with
  | EmptyString => true
  | String a s' => p a && all p s'
  end.

(** The longest prefix of [s] whose characters satisfy [p], and the rest. *)
Fixpoint span (p : ascii -> bool) (s : string) : string * string :=
  match s with
  | EmptyString => (EmptyString, EmptyString)
  | String a s' =>
      if p a then let '(run, rest) := span p s' in (String a run, rest)
      else (EmptyString, s)
  end.

(** [s.lstrip()] *)
Fixpoint lstrip (p : ascii -> bool) (s : string) : string :=
  match s with
  | EmptyString => EmptyString
  | String a s' => if p a then lstrip p s' else s
  end.

(** [s.rstrip()] *)
Fixpoint rstrip (p : ascii -> bool) (s : string) : string :=
  match s with
  | EmptyString => EmptyString
  | String a s' =>
      match rstrip p s' with
      | EmptyString => if p a then EmptyString else String a EmptyString
      | r => String a r
      end
  end.

(** [s.split(sep)] for a non-empty separator. [skip] counts the
    characters of a separator that was just recognised and is still to
    be passed over. *)
Fixpoint split_aux (sep : string) (skip : nat) (s : string) : list string :=
  match s with
  | EmptyString => [EmptyString]
  | String a s' =>
      match skip with
      | S k => split_aux sep k s'
      | O =>
          if String.prefix sep s
          then EmptyString :: split_aux sep (String.length sep - 1) s'
          else match split_aux sep 0 s' with
               | piece :: rest => String a piece :: rest
               | [] => [String a EmptyString]
               end
      end
  end.

Definition split (sep s : string) : list string := split_aux sep 0 s.

(** [re.split("[...]+", s)] for a character class given as a predicate:
    the pieces between maximal runs of separator characters. [in_sep]
    tells that the previous character was a separator. *)
Fixpoint re_split_aux (p : ascii -> bool) (in_sep : bool) (s : string)
  : list string :=
  match s with
  | EmptyString => [EmptyString]
  | String a s' =>
      if p a then
        if in_sep then re_split_aux p true s'
        else EmptyString :: re_split_aux p true s'
      else match re_split_aux p false s' with
           | piece :: rest => String a piece :: rest
           | [] => [String a EmptyString]
           end
  end.

Definition re_split (p : ascii -> bool) (s : string) : list string :=
  re_split_aux p false s.

(** The text up to the first line feed, which is as far as [.*] reaches. *)
Fixpoint line_of (s : string) : string :=
  match s with
  | EmptyString => EmptyString
  | String a s' =>
      if Ascii.eqb a (ascii_of_nat 10) then EmptyString
      else String a (line_of s')
  end.

End Str.

(** Character classes used by the regular expressions of the source. *)
Module Chr.

Definition code (c : ascii) : nat := nat_of_ascii c.

Definition between (lo hi : nat) (c : ascii) : bool :=
  (lo <=? code c)%nat && (code c <=? hi)%nat.

Definition is_digit : ascii -> bool := between 48 57.
Definition is_upper : ascii -> bool := between 65 90.
Definition is_lower : ascii -> bool := between 97 122.
Definition is_alpha (c : ascii) : bool := is_upper c || is_lower c.

(** [\w] on ASCII text: [[A-Za-z0-9_]] *)
Definition is_word (c : ascii) : bool :=
  is_alpha c || is_digit c || Ascii.eqb c "_".

(** [str.isspace] on ASCII text: tab, line feed, vertical tab, form
    feed, carriage return, the four separators 0x1c-0x1f and space. *)
Definition is_space (c : ascii) : bool :=
  between 9 13 c || between 28 31 c || Ascii.eqb c " ".

Definition newline : ascii := ascii_of_nat 10.

Definition among (set : string) (c : ascii) : bool :=
  Str.contains (String c EmptyString) set.

End Chr.

(** ** Exceptions *)

Inductive exn : Type :=
| ValueError (msg : string)
| KeyError (key : string)
| IndexError
| TypeError
| AttributeError
| NameError (name : string).

Inductive result (A : Type) : Type :=
| Ok (a : A)
| Raise (e : exn).
Arguments Ok {A} a.
Arguments Raise {A} e.

Definition is_raise {A} (r : result A) : bool :=
  match r with Ok _ => false | Raise _ => true end.

(** ** Type signature converter ([RizinImp._convert_type_to_type_signature]) *)

Definition PRIMITIVE_TYPE_MAPPING : list (string * string) :=
  [ ("void", "V"); ("boolean", "Z"); ("byte", "B"); ("char", "C");
    ("short", "S"); ("int", "I"); ("long", "J"); ("float", "F");
    ("double", "D") ].

Fixpoint dict_get {V} (d : list (string * V)) (k : string) : option V :=
  match d with
  | [] => None
  | (k', v) :: d' => if String.eqb k k' then Some v else dict_get d' k
  end.

Definition inspect {A} (a : A) : {b : A | a = b} := exist _ a eq_refl.

Lemma take_length n s :
  String.length (Str.take n s) = Nat.min n (String.length s).
Proof.
  revert s; induction n as [|n IH]; intros [|c s]; simpl; try lia.
  rewrite IH; lia.
Qed.

Lemma drop_length n s :
  String.length (Str.drop n s) = (String.length s - n)%nat.
Proof.
  revert s; induction n as [|n IH]; intros [|c s]; simpl; try lia.
  apply IH.
Qed.

Lemma prefix_length p s :
  String.prefix p s = true -> (String.length p <= String.length s)%nat.
Proof.
  revert s; induction p as [|a p IH]; intros [|b s]; simpl; try lia;
    try discriminate.
  destruct (ascii_dec a b); [|discriminate].
  intros H; specialize (IH _ H); lia.
Qed.

Lemma find_unfold sub s :
  Str.find sub s =
    if String.prefix sub s then Some 0%nat
    else match s with
         | EmptyString => None
         | String _ s' => option_map S (Str.find sub s')
         end.
Proof. destruct s; reflexivity. Qed.

Lemma find_lt sub s i :
  Str.find sub s = Some i -> (i + String.length sub <= String.length s)%nat.
Proof.
  revert i; induction s as [|c s IH]; intros i; rewrite find_unfold;
    destruct (String.prefix _ _) eqn:Hp; try discriminate.
  - intros [= <-]. apply prefix_length in Hp. lia.
  - intros [= <-]. apply prefix_length in Hp. lia.
  - destruct (Str.find sub s) as [j|]; simpl; [|discriminate].
    intros [= <-]. specialize (IH j eq_refl). lia.
Qed.

(** The leaf rules (c), (d) and (e): primitive table, qualified or
    nested name, bare [java.lang] name. *)
Definition convert_plain (raw_type : string) : string :=
  match dict_get PRIMITIVE_TYPE_MAPPING raw_type with
  | Some code => code
  | None =>
      if Str.contains "." raw_type || Str.contains "_" raw_type then
        let raw_type := Str.replace_char "." "/" raw_type in
        let raw_type := Str.replace_char "_" "$" raw_type in
        "L" +:+ raw_type +:+ ";"
      else "Ljava/lang/" +:+ raw_type +:+ ";"
  end.

Equations? _convert_type_to_type_signature (raw_type : string) : string
  by wf (String.length raw_type) lt :=
  _convert_type_to_type_signature EmptyString := EmptyString;
  _convert_type_to_type_signature raw_type
    with inspect (Str.endswith raw_type "[]") := {
    | exist _ true _ =>
        "[" +:+ _convert_type_to_type_signature (Str.drop_last 2 raw_type);
    | exist _ false _ with inspect (Str.startswith raw_type "[") := {
      | exist _ true _ =>
          "[" +:+ _convert_type_to_type_signature (Str.drop 1 raw_type);
      | exist _ false _ with inspect (Str.find "..." raw_type) := {
        | exist _ (Some index) _ =>
            "[" +:+ _convert_type_to_type_signature (Str.take index raw_type);
        | exist _ None _ => convert_plain raw_type } } }.
Proof.
  - subst raw_type. unfold Str.drop_last. rewrite take_length. simpl. lia.
  - simpl. lia.
  - subst raw_type.
    match goal with H : Str.find _ _ = Some _ |- _ =>
      apply find_lt in H end.
    rewrite take_length. simpl in *. lia.
Qed.


(** ** Python built-ins on strings and integers *)

(** [s.strip()] *)
Definition strip (s : string) : string :=
  Str.rstrip Chr.is_space (Str.lstrip Chr.is_space s).

(** [s.split(maxsplit=1)]: split on white space, at most once. *)
Definition split_maxsplit1 (s : string) : list string :=
  match Str.lstrip Chr.is_space s with
  | EmptyString => []
  | s1 =>
      let '(word, rest) := Str.span (fun c => negb (Chr.is_space c)) s1 in
      match Str.lstrip Chr.is_space rest with
      | EmptyString => [word]
      | tail => [word; tail]
      end
  end.

Definition digit_value (c : ascii) : Z := (Z.of_nat (Chr.code c) - 48)%Z.

(** The digits of a decimal literal, with single underscores allowed
    between digits. [after_digit] tells that the previous character was
    a digit. *)
Fixpoint int_digits (s : string) (acc : Z) (after_digit : bool) : option Z :=
  match s with
  | EmptyString => if after_digit then Some acc else None
  | String c s' =>
      if Chr.is_digit c then int_digits s' (acc * 10 + digit_value c)%Z true
      else if Ascii.eqb c "_" then
        if after_digit then int_digits s' acc false else None
      else None
  end.

(** [sys.get_int_max_str_digits()]: the interpreter refuses to convert
    a decimal literal with more digits (CPython 3.11 and later, and the
    security releases of the earlier versions). *)
Definition int_max_str_digits : nat := 4300.

Fixpoint count_digits (s : string) : nat :=
  match s with
  | EmptyString => O
  | String c s' => (if Chr.is_digit c then 1 else 0) + count_digits s'
  end.

(** The magnitude of a decimal literal within the digit limit. *)
Definition int_magnitude (body : string) : option Z :=
  if (int_max_str_digits <? count_digits body)%nat then None
  else int_digits body 0 false.

(** [int(s)] in base ten: surrounding white space, an optional sign,
    then the digits. [None] stands for [ValueError]. *)
Definition py_int (s : string) : option Z :=
  let text := strip s in
  match text with
  | String sign body =>
      if Ascii.eqb sign "+" then int_magnitude body
      else if Ascii.eqb sign "-" then option_map Z.opp (int_magnitude body)
      else int_magnitude text
  | EmptyString => None
  end.

(** [str(n)] for an integer. (The digit limit applies to this conversion
    too; where the source formats an integer it lies between two results
    of [int], which are within the limit.) *)
Definition py_str (n : Z) : string := NilZero.string_of_int (Z.to_int n).

(** [range(a, b)] *)
Definition py_range (a b : Z) : list Z :=
  map (fun i => (a + Z.of_nat i)%Z) (seq 0 (Z.to_nat (b - a))).

(** [l[:-1]] *)
Definition but_last {A} (l : list A) : list A := removelast l.

(** [l[-1]] *)
Definition last_opt {A} (l : list A) : option A := last l.

(** [[f(x) for x in l]] where [f] may raise: the first failure wins. *)
Fixpoint map_opt {A B} (f : A -> option B) (l : list A) : option (list B) :=
  match l with
  | [] => Some []
  | x :: l' =>
      match f x with
      | None => None
      | Some y => option_map (cons y) (map_opt f l')
      end
  end.

Definition nonempty (s : string) : bool := negb (String.eqb s EmptyString).

(** ** Regular expressions of the source, each as the scanner it denotes *)

Module Re.

(** [next(re.finditer("\\(.*\\).*", s), None)]: the leftmost ['('] that
    has a [')'] later on its line, together with the rest of that line. *)
Fixpoint paren_signature (s : string) : option string :=
  match s with
  | EmptyString => None
  | String a s' =>
      if Ascii.eqb a "(" && Str.contains ")" (Str.line_of s')
      then Some (String a (Str.line_of s'))
      else paren_signature s'
  end.

Definition return_type_tail (c : ascii) : bool :=
  Chr.is_alpha c || Chr.is_digit c || Chr.among "/;[]$." c.

(** [next(re.finditer("[A-Za-zL][A-Za-z0-9L/\;[\\]$.]+ ", s), None)]:
    a letter, a maximal non-empty run of the second class, one space. *)
Fixpoint return_type (s : string) : option string :=
  match s with
  | EmptyString => None
  | String a s' =>
      let '(run, rest) := Str.span return_type_tail s' in
      if Chr.is_alpha a && nonempty run && Str.startswith rest " "
      then Some (String a run +:+ " ")
      else return_type s'
  end.

(** [re.finditer("_+[A-Za-z]+", s)]: the successive non-overlapping
    matches, left to right. [skip] counts the characters of the match
    just found that are still to be passed over. *)
Fixpoint underscore_names (skip : nat) (s : string) : list string :=
  match s with
  | EmptyString => []
  | String a s' =>
      match skip with
      | S k => underscore_names k s'
      | O =>
          let '(bars, rest) := Str.span (Ascii.eqb "_") s in
          let '(letters, _) := Str.span Chr.is_alpha rest in
          if nonempty bars && nonempty letters
          then (bars +:+ letters)
                 :: underscore_names (String.length (bars +:+ letters) - 1) s'
          else underscore_names 0 s'
      end
  end.

(** The first [';'] of [s], not crossing a line feed: the lazy [.+?;]
    after its first character. Returns the text matched, [';'] included. *)
Fixpoint upto_semicolon (s : string) : option string :=
  match s with
  | EmptyString => None
  | String a s' =>
      if Ascii.eqb a ";" then Some ";"
      else if Ascii.eqb a Chr.newline then None
      else option_map (String a) (upto_semicolon s')
  end.

(** One match of ["L.+?;|[ZBCSIJFD]|\["] anchored at the head of [s]. *)
Definition descriptor_token (s : string) : option string :=
  match s with
  | EmptyString => None
  | String a s' =>
      let object_type :=
        match s' with
        | String b s'' =>
            if Ascii.eqb a "L" && negb (Ascii.eqb b Chr.newline)
            then option_map (fun m => String a (String b m)) (upto_semicolon s'')
            else None
        | EmptyString => None
        end in
      match object_type with
      | Some m => Some m
      | None =>
          if Chr.among "ZBCSIJFD" a || Ascii.eqb a "["
          then Some (String a EmptyString)
          else None
      end
  end.

(** [re.findall(r"L.+?;|[ZBCSIJFD]|\[", s)] *)
Fixpoint descriptor_tokens (skip : nat) (s : string) : list string :=
  match s with
  | EmptyString => []
  | String _ s' =>
      match skip with
      | S k => descriptor_tokens k s'
      | O =>
          match descriptor_token s with
          | Some m => m :: descriptor_tokens (String.length m - 1) s'
          | None => descriptor_tokens 0 s'
          end
      end
  end.

(** [re.sub(r"\[ ", "[", s)] *)
Fixpoint join_brackets (s : string) : string :=
  match s with
  | EmptyString => EmptyString
  | String a s' =>
      match s' with
      | String b s'' =>
          if Ascii.eqb a "[" && Ascii.eqb b " "
          then String a (join_brackets s'')
          else String a (join_brackets s')
      | EmptyString => String a EmptyString
      end
  end.

(** [re.finditer(r"\w{2}", s)]: successive pairs of word characters. *)
Fixpoint word_pairs (skip : bool) (s : string) : list string :=
  match s with
  | EmptyString => []
  | String a s' =>
      if skip then word_pairs false s'
      else match s' with
           | String b _ =>
               if Chr.is_word a && Chr.is_word b
               then String a (String b EmptyString) :: word_pairs true s'
               else word_pairs false s'
           | EmptyString => []
           end
  end.

End Re.

(** ** [quark/utils/tools.py] *)

Definition descriptor_to_androguard_format (descriptor : string)
  : result string :=
  if negb (Str.contains "(" descriptor) || negb (Str.contains ")" descriptor)
  then Raise (ValueError ("Invalid descriptor. " +:+ descriptor))
  else
    match Str.find ")" descriptor with
    | None => Raise (ValueError "substring not found")
    | Some delimiter =>
        let arg_str := Str.take delimiter descriptor in
        let args := Re.descriptor_tokens 0 arg_str in
        let new_descriptor :=
          "(" +:+ Str.join " " args +:+ Str.drop delimiter descriptor in
        Ok (Re.join_brackets new_descriptor)
    end.

Global Instance result_ret : MRet result := fun _ a => Ok a.
Global Instance result_bind : MBind result := fun _ _ f r =>
  match r with
  | Ok a => f a
  | Raise e => Raise e
  end.

(** [d[key]] on a JSON object whose field may be absent *)
Definition field {A} (key : string) (o : option A) : result A :=
  match o with
  | Some a => Ok a
  | None => Raise (KeyError key)
  end.

(** ** [quark/core/struct/methodobject.py] *)

(** [RizinCache = namedtuple("rizin_cache", "address dexindex is_imported")] *)
Record RizinCache : Type := {
  address : Z;
  dexindex : nat;
  is_imported : bool
}.

(** The dataclass [MethodObject]; [access_flags] and [cache] are declared
    with [compare=False] and default to [None]. *)
Record MethodObject : Type := {
  class_name : string;
  name : string;
  descriptor : string;
  access_flags : option (list string);
  cache : option RizinCache
}.

(** The tuple of the fields that take part in comparison. *)
Definition compare_fields (m : MethodObject) : string * string * string :=
  (class_name m, name m, descriptor m).

(** [MethodObject.__eq__], as [dataclass] generates it *)
Definition MethodObject_eq (a b : MethodObject) : bool :=
  String.eqb (class_name a) (class_name b)
  && String.eqb (name a) (name b)
  && String.eqb (descriptor a) (descriptor b).

Definition api_list : list string :=
  [ "Landroid/"; "Lcom/google/android/"; "Ldalvik/"; "Ljava/"; "Ljavax/";
    "Ljunit/"; "Lorg/apache/"; "Lorg/json/"; "Lorg/w3c/"; "Lorg/xml/";
    "Lorg/xmlpull/" ].

Definition is_android_api (m : MethodObject) : bool :=
  existsb (Str.startswith (class_name m)) api_list.

(** Modelled from the spec: [quark/core/struct/bytecodeobject.py] is not
    among the sources; the specification gives BytecodeInstruction as
    (mnemonic, registers, parameter), and [_parse_smali] passes [None]
    for the last two when the line has no operands. *)
Record BytecodeObject : Type := {
  mnemonic : string;
  registers : option (list string);
  parameter : option string
}.

(** ** Disassembly line parser ([RizinImp._parse_smali]) *)

Definition register_name (index : Z) : string := "v" +:+ py_str index.

(** [[int(reg[1:]) for reg in regs]] *)
Definition register_indices (regs : list string) : option (list Z) :=
  map_opt (fun reg => py_int (Str.drop 1 reg)) regs.

Definition _parse_smali (smali : string) : result BytecodeObject :=
  if String.eqb smali "" then Raise (ValueError "Argument cannot be empty.")
  else if negb (Str.contains " " smali) then
    Ok {| mnemonic := smali; registers := None; parameter := None |}
  else
    match split_maxsplit1 smali with
    | [mnemonic; args] =>
        let args :=
          map strip (filter (fun arg => nonempty arg = true)
                            (Str.re_split (Chr.among "{},") args)) in
        (* Remove the parameter at the last *)
        let '(args, parameter) :=
          match last_opt args with
          | Some final =>
              if negb (Str.startswith final "v") then
                (but_last args,
                 Some (if Str.startswith mnemonic "invoke"
                       then Str.replace_first_char "." "->" final
                       else final))
              else (args, None)
          | None => (args, None)
          end in
        let simple_registers : result (list Z) :=
          match register_indices args with
          | None =>
              Raise (ValueError ("Cannot parse bytecode. Unknown smali "
                                   +:+ smali +:+ "."))
          | Some register_list => Ok register_list
          end in
        register_list ←
          match args with
          | [arg0] =>
              if Str.contains ":" arg0 || Str.contains ".." arg0 then
                (* Ranged registers *)
                match register_indices
                        (filter (fun reg => nonempty reg = true)
                                (Str.re_split (Chr.among ":.") arg0)) with
                | None => Raise (ValueError "invalid literal for int()")
                | Some register_list =>
                    if Str.contains ".." arg0 then
                      match register_list with
                      | first :: second :: _ =>
                          Ok (py_range first (second + 1))
                      | _ => Raise IndexError
                      end
                    else Ok register_list
                end
              else simple_registers
          | [] => Ok []
          (* Simple registers *)
          | _ => simple_registers
          end;
        Ok {| mnemonic := mnemonic;
              registers := Some (map register_name register_list);
              parameter := parameter |}
    | _ => Raise (ValueError "not enough values to unpack")
    end.

(** ** Symbol demangler ([RizinImp._parse_method_from_isj_obj]) *)

Definition RIZIN_ESCAPE_CHAR_LIST : list ascii := ["<"; ">"; "$"]%char.

Definition _escape_str_in_rizin_manner (raw_str : string) : string :=
  fold_left (fun raw_str c => Str.replace_char c "_" raw_str)
            RIZIN_ESCAPE_CHAR_LIST raw_str.

(** One entry of the answer to [isj] or [is.j]. *)
Record isj_obj : Type := {
  j_type : option string;
  j_name : option string;
  j_realname : option string;
  j_flagname : option string;
  j_is_imported : option bool;
  j_vaddr : option Z
}.

(** [while flag_name.startswith("sym.") or flag_name.startswith("imp."):
        flag_name = flag_name[4:]] *)
Equations? drop_sym_imp (flag_name : string) : string
  by wf (String.length flag_name) lt :=
  drop_sym_imp flag_name
    with inspect (Str.startswith flag_name "sym."
                  || Str.startswith flag_name "imp.") := {
    | exist _ true _ => drop_sym_imp (Str.drop 4 flag_name);
    | exist _ false _ => flag_name }.
Proof.
  rewrite drop_length.
  assert (4 <= String.length flag_name)%nat; [|lia].
  apply orb_prop in e. destruct e as [e|e];
    apply prefix_length in e; exact e.
Qed.

Definition _parse_method_from_isj_obj (json_obj : isj_obj) (dexindex : nat)
  : result (option MethodObject) :=
  if negb (match j_type json_obj with
           | Some t => String.eqb t "FUNC" || String.eqb t "METH"
           | None => false
           end)
  then Ok None
  else
    (* -- Descriptor -- *)
    full_method_name ← field "name" (j_name json_obj);
    match Re.paren_signature full_method_name with
    | None => Ok None
    | Some raw_argument_str =>
        let converted : option string :=
          if Str.endswith raw_argument_str ")" then
            let raw_argument_str :=
              Str.drop_last 1 (Str.drop 1 raw_argument_str) in
            let arguments :=
              map _convert_type_to_type_signature
                  (Str.split ", " raw_argument_str) in
            match Re.return_type full_method_name with
            | None => None
            | Some return_type =>
                Some ("(" +:+ Str.join " " arguments +:+ ")"
                      +:+ _convert_type_to_type_signature (strip return_type))
            end
          else Some raw_argument_str in
        match converted with
        | None => Ok None
        | Some raw_argument_str =>
            descriptor ← descriptor_to_androguard_format raw_argument_str;
            (* -- Method name -- *)
            method_name ← field "realname" (j_realname json_obj);
            (* -- Is imported -- *)
            is_imported ← field "is_imported" (j_is_imported json_obj);
            (* -- Class name -- *)
            (* The escaped method name only decides whether a truncation
               warning is logged. *)
            flag_name ← field "flagname" (j_flagname json_obj);
            if String.eqb flag_name "sym.imp.clone" then
              vaddr ← field "vaddr" (j_vaddr json_obj);
              Ok (Some {| class_name := "";
                          name := "clone";
                          descriptor := "()Ljava/lang/Object;";
                          access_flags := None;
                          cache := Some {| address := vaddr;
                                           dexindex := dexindex;
                                           is_imported := is_imported |} |})
            else
              (* Drop the method name *)
              match last_opt (Re.underscore_names 0 flag_name) with
              | None => Ok None
              | Some matched =>
                  let flag_name :=
                    match Str.rfind matched flag_name with
                    | Some i => Str.take i flag_name
                    | None => Str.drop_last 1 flag_name
                    end in
                  (* Drop the prefixes sym. and imp. *)
                  let flag_name := drop_sym_imp flag_name in
                  let class_name :=
                    _convert_type_to_type_signature flag_name in
                  vaddr ← field "vaddr" (j_vaddr json_obj);
                  Ok (Some {| class_name := class_name;
                              name := method_name;
                              descriptor := descriptor;
                              access_flags := None;
                              cache := Some {| address := vaddr;
                                               dexindex := dexindex;
                                               is_imported := is_imported |} |})
              end
        end
    end.

(** ** The Rizin sessions *)

(** The commands the class sends through [rzpipe]. *)
Inductive command : Type :=
| Cmd_open                    (* rzpipe.open(self._dex_list[index]) *)
| Cmd_aa                      (* aa *)
| Cmd_isj                     (* isj *)
| Cmd_is_at (addr : Z)        (* is.j @ addr *)
| Cmd_axtj (addr : Z)         (* axtj @ addr *)
| Cmd_pdfj (addr : Z).        (* pdfj @ addr *)

(** One entry of the answer to [axtj]. *)
Record Xref : Type := {
  x_type : string;
  x_from : option Z
}.

(** One entry of the [xrefs_from] list of an instruction. *)
Record CallRef : Type := {
  r_type : string;
  r_addr : Z
}.

(** One entry of the [ops] list of the answer to [pdfj]. *)
Record Ins : Type := {
  i_offset : Z;
  i_disasm : string;
  i_bytes : string;
  i_xrefs_from : option (list CallRef)
}.

(** What Rizin answers for one Dex file. [pdfj] is [None] where Rizin
    prints no JSON, so that [cmdj] returns [None]. *)
Record Dex : Type := {
  isj : list isj_obj;
  is_at : Z -> list isj_obj;
  axtj : Z -> list Xref;
  pdfj : Z -> option (list Ins)
}.

(** Values of the dictionary returned by [get_wrapper_smali]. *)
Inductive evidence : Type :=
| EvNone
| EvBytecode (l : list (option string))
| EvHex (s : string).

(** [functools.lru_cache]: an association list, most recently used
    first, holding at most [maxsize] entries. *)
Module Lru.

Definition maxsize : nat := 128.

Section Cache.
Context {K V : Type} (same : K -> K -> bool).

Fixpoint lookup (k : K) (c : list (K * V)) : option V :=
  match c with
  | [] => None
  | (k', v) :: c' => if same k k' then Some v else lookup k c'
  end.

Fixpoint remove (k : K) (c : list (K * V)) : list (K * V) :=
  match c with
  | [] => []
  | (k', v) :: c' => if same k k' then c' else (k', v) :: remove k c'
  end.

(** A hit moves the entry to the front. *)
Definition touch (k : K) (v : V) (c : list (K * V)) : list (K * V) :=
  (k, v) :: remove k c.

(** A miss stores the new entry and evicts the least recently used. *)
Definition store (k : K) (v : V) (c : list (K * V)) : list (K * V) :=
  firstn maxsize ((k, v) :: c).

(** In-place mutation of a cached object. *)
Fixpoint update (k : K) (v : V) (c : list (K * V)) : list (K * V) :=
  match c with
  | [] => []
  | (k', v') :: c' =>
      if same k k' then (k', v) :: c' else (k', v') :: update k v c'
  end.

End Cache.
End Lru.

(** A per-Dex method table: [defaultdict(list)] keyed by class name. The
    key type admits [None], which [find_method] may be called with. *)
Abbreviation MethodTable := (gmap (option string) (list MethodObject)).

Record state : Type := {
  (** cache of [_get_rz] *)
  rz_cache : list (nat * unit);
  (** every command sent so far, oldest first, with the Dex index of
      the session it was sent to *)
  log : list (nat * command);
  (** cache of [_get_methods_classified] *)
  classified_cache : list (nat * MethodTable);
  (** cache of [upperfunc] *)
  upper_cache : list (MethodObject * list MethodObject);
  (** cache of [lowerfunc] *)
  lower_cache : list (MethodObject * list (MethodObject * Z))
}.

Definition set_rz_cache c st :=
  {| rz_cache := c; log := log st; classified_cache := classified_cache st;
     upper_cache := upper_cache st; lower_cache := lower_cache st |}.
Definition set_log l st :=
  {| rz_cache := rz_cache st; log := l; classified_cache := classified_cache st;
     upper_cache := upper_cache st; lower_cache := lower_cache st |}.
Definition set_classified_cache c st :=
  {| rz_cache := rz_cache st; log := log st; classified_cache := c;
     upper_cache := upper_cache st; lower_cache := lower_cache st |}.
Definition set_upper_cache c st :=
  {| rz_cache := rz_cache st; log := log st;
     classified_cache := classified_cache st;
     upper_cache := c; lower_cache := lower_cache st |}.
Definition set_lower_cache c st :=
  {| rz_cache := rz_cache st; log := log st;
     classified_cache := classified_cache st;
     upper_cache := upper_cache st; lower_cache := c |}.

Definition initial_state : state :=
  {| rz_cache := []; log := []; classified_cache := [];
     upper_cache := []; lower_cache := [] |}.

(** Computations that send commands, use the caches and may raise. *)
Definition M (A : Type) : Type := state -> result A * state.

Global Instance M_ret : MRet M := fun _ a st => (Ok a, st).
Global Instance M_bind : MBind M := fun _ _ f m st =>
  match m st with
  | (Ok a, st') => f a st'
  | (Raise e, st') => (Raise e, st')
  end.

Definition raise {A} (e : exn) : M A := fun st => (Raise e, st).

Definition lift {A} (r : result A) : M A := fun st => (r, st).

Definition send (index : nat) (c : command) : M unit :=
  fun st => (Ok tt, set_log (log st ++ [(index, c)]) st).

(** The decorator [functools.lru_cache] applied to a method. *)
Definition lru_cache {K V} (same : K -> K -> bool)
    (get : state -> list (K * V)) (set : list (K * V) -> state -> state)
    (f : K -> M V) (k : K) : M V :=
  fun st =>
    match Lru.lookup same k (get st) with
    | Some v => (Ok v, set (Lru.touch same k v (get st)) st)
    | None =>
        match f k st with
        | (Ok v, st') => (Ok v, set (Lru.store k v (get st')) st')
        | (Raise e, st') => (Raise e, st')
        end
    end.

(** [for x in xs: acc = body(x, acc)] *)
Fixpoint for_each {A S} (xs : list A) (body : A -> S -> M S) (acc : S) : M S :=
  match xs with
  | [] => mret acc
  | x :: xs' => acc' ← body x acc; for_each xs' body acc'
  end.

(** ** The class [RizinImp] *)

Section RizinImp.

(** [hash] on strings and on tuples of hashes: fixed for one run of the
    interpreter, otherwise unspecified. *)
Variable str_hash : string -> Z.
Variable tuple_hash : list Z -> Z.

(** The order in which [list(set(...))] enumerates a set whose elements
    were inserted in the given order. *)
Variable set_order : list MethodObject -> list MethodObject.

(** [self._dex_list], each Dex file with the answers Rizin gives for it. *)
Variable dex_list : list Dex.

(** [MethodObject.__hash__], as [dataclass(unsafe_hash=True)] generates it *)
Definition MethodObject_hash (m : MethodObject) : Z :=
  tuple_hash [str_hash (class_name m); str_hash (name m);
              str_hash (descriptor m)].

(** When a set or a dictionary takes two keys for the same one. *)
Definition same_key (a b : MethodObject) : bool :=
  (MethodObject_hash a =? MethodObject_hash b)%Z && MethodObject_eq a b.

(** [s.add(x)] on a set kept in insertion order *)
Definition set_add (x : MethodObject) (s : list MethodObject)
  : list MethodObject :=
  if existsb (same_key x) s then s else s ++ [x].

(** [set(l)], and [s.update(l)] from an earlier set *)
Definition set_update (s l : list MethodObject) : list MethodObject :=
  fold_left (fun s x => set_add x s) l s.

(** [quark.utils.tools.remove_dup_list] *)
Definition remove_dup_list (element : list MethodObject)
  : list MethodObject :=
  set_order (set_update [] element).

Definition _number_of_dex : nat := length dex_list.

(** [rz.cmdj(c)] on the session of Dex file [rz] *)
Definition cmdj {A} (rz : nat) (c : command) (answer : Dex -> A) : M A :=
  _ ← send rz c;
  match dex_list !! rz with
  | Some d => mret (answer d)
  | None => raise IndexError
  end.

(** [self._get_rz(index)]. The session is identified with the index of
    its Dex file; the cache records which sessions are open. *)
Definition _get_rz (index : nat) : M nat :=
  _ ← lru_cache Nat.eqb rz_cache set_rz_cache (fun index =>
        match dex_list !! index with
        | None => raise IndexError
        | Some _ =>
            _ ← send index Cmd_open;
            send index Cmd_aa
        end) index;
  mret index.

(** [d[key]] on a [defaultdict(list)], read only *)
Definition bucket (d : MethodTable) (key : option string)
  : list MethodObject :=
  default [] (d !! key).

(** [d[key]] on a [defaultdict(list)]: a missing key is inserted *)
Definition defaultdict_get (d : MethodTable) (key : option string)
  : list MethodObject * MethodTable :=
  match d !! key with
  | Some l => (l, d)
  | None => ([], <[key := []]> d)
  end.

Definition _get_methods_classified : nat -> M MethodTable :=
  lru_cache Nat.eqb classified_cache set_classified_cache (fun dexindex =>
    rz ← _get_rz dexindex;
    method_json_list ← cmdj rz Cmd_isj isj;
    method_dict ←
      for_each method_json_list (fun json_obj (method_dict : MethodTable) =>
        method ← lift (_parse_method_from_isj_obj json_obj dexindex);
        match method with
        | Some method =>
            let key := Some (class_name method) in
            mret (<[key := bucket method_dict key ++ [method]]> method_dict)
        | None => mret method_dict
        end) (∅ : MethodTable);
    (* Remove duplicates *)
    mret (remove_dup_list <$> method_dict)).

(** Python truth value of an optional string *)
Definition truthy (s : option string) : bool :=
  match s with
  | Some s => nonempty s
  | None => false
  end.

Definition method_filter (method_name descriptor_ : option string)
    (method : MethodObject) : bool :=
  (negb (truthy method_name)
   || bool_decide (method_name = Some (name method)))
  && (negb (truthy descriptor_)
      || bool_decide (descriptor_ = Some (descriptor method))).

Fixpoint find_method_in (dex_indices : list nat)
    (class_name_ method_name descriptor_ : option string)
  : M (option MethodObject) :=
  match dex_indices with
  | [] => mret None
  | dex_index :: rest =>
      method_dict ← _get_methods_classified dex_index;
      let '(methods, method_dict) := defaultdict_get method_dict class_name_ in
      _ ← (fun st =>
             (Ok tt,
              set_classified_cache
                (Lru.update Nat.eqb dex_index method_dict (classified_cache st))
                st));
      match List.find (method_filter method_name descriptor_) methods with
      | Some method => mret (Some method)
      | None => find_method_in rest class_name_ method_name descriptor_
      end
  end.

Definition find_method (class_name_ method_name descriptor_ : option string)
  : M (option MethodObject) :=
  find_method_in (seq 0 _number_of_dex) class_name_ method_name descriptor_.


Definition _get_method_by_address (address : Z) : M (option MethodObject) :=
  let dexindex := 0%nat in
  rz ← _get_rz dexindex;
  json_array ← cmdj rz (Cmd_is_at address) (fun d => is_at d address);
  match json_array with
  | first :: _ => lift (_parse_method_from_isj_obj first dexindex)
  | [] => mret None
  end.

(** [method_object.cache], whose attributes are then read *)
Definition cache_of (method_object : MethodObject) : M RizinCache :=
  match cache method_object with
  | Some c => mret c
  | None => raise AttributeError
  end.

Definition upperfunc : MethodObject -> M (list MethodObject) :=
  lru_cache same_key upper_cache set_upper_cache (fun method_object =>
    cache ← cache_of method_object;
    r2 ← _get_rz (dexindex cache);
    xrefs ← cmdj r2 (Cmd_axtj (address cache)) (fun d => axtj d (address cache));
    for_each xrefs (fun xref upperfunc_set =>
      if negb (String.eqb (x_type xref) "CALL") then mret upperfunc_set
      else
        match x_from xref with
        | Some from =>
            matched_method ← _get_method_by_address from;
            match matched_method with
            | None => mret upperfunc_set
            | Some matched_method => mret (set_add matched_method upperfunc_set)
            end
        | None => mret upperfunc_set
        end) []).

Definition lowerfunc : MethodObject -> M (list (MethodObject * Z)) :=
  lru_cache same_key lower_cache set_lower_cache (fun method_object =>
    cache ← cache_of method_object;
    rz ← _get_rz (dexindex cache);
    answer ← cmdj rz (Cmd_pdfj (address cache)) (fun d => pdfj d (address cache));
    match answer with
    | None => raise TypeError
    | Some instruct_flow =>
        for_each instruct_flow (fun ins lowerfunc_list =>
          match i_xrefs_from ins with
          | Some xrefs_from =>
              let call_xrefs :=
                filter (fun xref => String.eqb (r_type xref) "CALL" = true)
                       xrefs_from in
              for_each call_xrefs (fun call_xref lowerfunc_list =>
                lowerfunc ← _get_method_by_address (r_addr call_xref);
                match lowerfunc with
                | None => mret lowerfunc_list
                | Some lowerfunc =>
                    let offset := (i_offset ins - address cache)%Z in
                    mret (lowerfunc_list ++ [(lowerfunc, offset)])
                end) lowerfunc_list
          | None => mret lowerfunc_list
          end) []
    end).

Definition get_method_bytecode (method_object : MethodObject)
  : M (list (result BytecodeObject)) :=
  cache ← cache_of method_object;
  if is_imported cache then mret []
  else
    rz ← _get_rz (dexindex cache);
    answer ← cmdj rz (Cmd_pdfj (address cache)) (fun d => pdfj d (address cache));
    match answer with
    | None => raise TypeError
    | Some instruct_flow =>
        mret (map (fun ins => _parse_smali (i_disasm ins)) instruct_flow)
    end.

Definition convert_bytecode_to_list (bytecode : BytecodeObject)
  : result (list (option string)) :=
  match registers bytecode with
  | Some regs =>
      Ok ([Some (mnemonic bytecode)] ++ map Some regs ++ [parameter bytecode])
  | None => Raise TypeError
  end.

(** ["{class_name}.{name}{descriptor}".format(class_name=m.class_name[:-1],
    name=m.name, descriptor=m.descriptor)] *)
Definition search_pattern (m : MethodObject) : string :=
  Str.drop_last 1 (class_name m) +:+ "." +:+ name m +:+ descriptor m.

(** [" ".join(map(lambda r: r.group(0), re.finditer(r"\w{2}", bytes)))] *)
Definition hex_of_bytes (bytes : string) : string :=
  Str.join " " (Re.word_pairs false bytes).

(** The body of the loop [for ins in instruction_flow] of
    [get_wrapper_smali]. [instrcution_string] is the local variable of
    that name, [None] while it is unbound. *)
Definition wrapper_scan (first_method_pattern second_method_pattern : string)
    (ins : Ins) (acc : gmap string evidence * option string)
  : M (gmap string evidence * option string) :=
  let '(result, instrcution_string) := acc in
  if Str.startswith (i_disasm ins) "invoke" then
    (* if ";" in ins["disasm"]: cut at the last one *)
    let instrcution_string : option string :=
      match Str.rfind ";" (i_disasm ins) with
      | Some index => Some (Str.take index (i_disasm ins))
      | None => instrcution_string
      end in
    match instrcution_string with
    | None => raise (NameError "instrcution_string")
    | Some text =>
        result ←
          (if Str.contains first_method_pattern text then
             bytecode ← lift (_parse_smali text);
             l ← lift (convert_bytecode_to_list bytecode);
             mret (<["first_hex" := EvHex (hex_of_bytes (i_bytes ins))]>
                     (<["first" := EvBytecode l]> result))
           else mret result);
        result ←
          (if Str.contains second_method_pattern text then
             bytecode ← lift (_parse_smali text);
             l ← lift (convert_bytecode_to_list bytecode);
             mret (<["second_hex" := EvHex (hex_of_bytes (i_bytes ins))]>
                     (<["second" := EvBytecode l]> result))
           else mret result);
        mret (result, Some text)
    end
  else mret (result, instrcution_string).

Definition get_wrapper_smali
    (parent_method first_method second_method : MethodObject)
  : M (gmap string evidence) :=
  cache ← cache_of parent_method;
  let result : gmap string evidence :=
    {[ "first" := EvNone; "first_hex" := EvNone;
       "second" := EvNone; "second_hex" := EvNone ]} in
  let first_method_pattern := search_pattern first_method in
  let second_method_pattern := search_pattern second_method in
  if is_imported cache then mret ∅
  else
    rz ← _get_rz (dexindex cache);
    answer ← cmdj rz (Cmd_pdfj (address cache)) (fun d => pdfj d (address cache));
    match answer with
    | None => raise TypeError
    | Some instruction_flow =>
        '(result, _) ←
          for_each instruction_flow
            (wrapper_scan first_method_pattern second_method_pattern)
            (result, None);
        mret result
    end.

End RizinImp.

Arguments cmdj dex_list {A} rz c answer.

(** ** Vocabulary of the statements *)

(** An element type that may stand before the ellipsis of a variadic
    type: it has no ellipsis of its own, does not end in a dot, and its
    leading opening brackets are not directly followed by a closing one. *)
Definition variadic_element (E : string) : bool :=
  negb (Str.contains "..." E)
  && negb (Str.endswith E ".")
  && negb (Str.startswith (Str.lstrip (Ascii.eqb "[") E) "]").

(** A descriptor with an opening parenthesis and, somewhere after it, a
    closing one. *)
Definition has_balanced_pair (d : string) : Prop :=
  exists a b c, d = a +:+ "(" +:+ b +:+ ")" +:+ c.

(** The commands appended to the log by running [m] from [st]. *)
Definition appends {A} (m : M A) (st : state) (new : list (nat * command))
  : Prop :=
  log (snd (m st)) = log st ++ new.

(** Every command that [m] sends satisfies [P]. *)
Definition sends_only {A} (P : nat * command -> Prop) (m : M A) : Prop :=
  forall st, exists new, appends m st new /\ Forall P new.











(** The first method, over the tables in order, that is in the bucket
    of the class and passes the filter. *)
Fixpoint first_match (tables : list MethodTable)
    (class_name_ method_name descriptor_ : option string)
  : option MethodObject :=
  match tables with
  | [] => None
  | t :: rest =>
      match List.find (method_filter method_name descriptor_)
                      (bucket t class_name_) with
      | Some m => Some m
      | None => first_match rest class_name_ method_name descriptor_
      end
  end.

(** The characters of [str(n)]: digits and the minus sign. *)
Definition number_char (c : ascii) : bool :=
  Chr.is_digit c || Ascii.eqb c "-".

(** The characters of a register name: those of a number, and [v]. *)
Definition register_char (c : ascii) : bool :=
  number_char c || Ascii.eqb c "v".

(** The four keys of an evidence record. *)
Definition evidence_keys : gset string :=
  {[ "first"; "first_hex"; "second"; "second_hex" ]}.

(** ** Sample inputs *)

Definition sample_str_hash (s : string) : Z := Z.of_nat (String.length s).
Definition sample_tuple_hash (l : list Z) : Z := fold_right Z.add 0%Z l.

Definition sample_method_dex0 : MethodObject :=
  {| class_name := "Lcom/example/A;"; name := "run"; descriptor := "()V";
     access_flags := None;
     cache := Some {| address := 100; dexindex := 0; is_imported := false |} |}.

Definition sample_method_dex1 : MethodObject :=
  {| class_name := "Lcom/example/A;"; name := "run"; descriptor := "()V";
     access_flags := Some ["public"];
     cache := Some {| address := 520; dexindex := 1; is_imported := true |} |}.


(** The record Rizin gives for [java.util.concurrent.FutureTask.get],
    quoted in [tests/core/test_rzapkinfo.py]. *)
Definition sample_isj_FutureTask_get : isj_obj :=
  {| j_type := Some "METH";
     j_name := Some "imp.get()Ljava/lang/Object;";
     j_realname := Some "get";
     j_flagname := Some "sym.imp.java.util.concurrent.FutureTask_get";
     j_is_imported := Some true;
     j_vaddr := Some 0%Z |}.

Definition sample_FutureTask_get : MethodObject :=
  {| class_name := "Ljava/util/concurrent/FutureTask;";
     name := "get";
     descriptor := "()Ljava/lang/Object;";
     access_flags := None;
     cache := Some {| address := 0; dexindex := 0; is_imported := true |} |}.

(** Three more records quoted in [tests/core/test_rzapkinfo.py]. *)
Definition sample_isj_getCapabilities_Mr2 : isj_obj :=
  {| j_type := Some "METH";
     j_name := Some "int getCapabilities(android.accessibilityservice.AccessibilityServiceInfo)";
     j_realname := Some "getCapabilities";
     j_flagname := Some "sym.android.support.v4.accessibilityservice.AccessibilityServiceInfoCompatJellyBeanMr2_getCapabilities_2";
     j_is_imported := Some false;
     j_vaddr := Some 165932%Z |}.

Definition sample_isj_getCapabilities_Impl : isj_obj :=
  {| j_type := Some "METH";
     j_name := Some "getCapabilities(Landroid/accessibilityservice/AccessibilityServiceInfo;)I";
     j_realname := Some "getCapabilities";
     j_flagname := Some "sym.android.support.v4.accessibilityservice.AccessibilityServiceInfoCompat_AccessibilityServiceInfoVersionImpl_getCapabilities";
     j_is_imported := Some false;
     j_vaddr := Some 0%Z |}.

Definition sample_isj_Request : isj_obj :=
  {| j_type := Some "METH";
     j_name := Some "void Request(android.os.Handler, String, String)";
     j_realname := Some "Request";
     j_flagname := Some "sym.com.example.google.service.WebServiceCalling_Request";
     j_is_imported := Some false;
     j_vaddr := Some 366440%Z |}.

(** What [_parse_method_from_isj_obj] makes of a record, as the triple that
    the tests compare. *)
Definition parsed_fields (j : isj_obj) : option (string * string * string) :=
  match _parse_method_from_isj_obj j 0 with
  | Ok (Some m) => Some (compare_fields m)
  | _ => None
  end.

Definition sample_invoke : string :=
  "invoke-virtual {v1}, Ljava/util/concurrent/FutureTask.get()Ljava/lang/Object; ; 0x10".

(** A method body that calls [FutureTask.get] twice. *)
Definition sample_ops : list Ins :=
  [ {| i_offset := 1000; i_disasm := sample_invoke; i_bytes := "6e100a000100";
       i_xrefs_from := Some [ {| r_type := "CALL"; r_addr := 0 |} ] |};
    {| i_offset := 1006; i_disasm := "move-result-object v0"; i_bytes := "0c00";
       i_xrefs_from := None |};
    {| i_offset := 1016; i_disasm := sample_invoke; i_bytes := "6e100a000100";
       i_xrefs_from := Some [ {| r_type := "CALL"; r_addr := 0 |} ] |};
    {| i_offset := 1022; i_disasm := "return-void"; i_bytes := "0e00";
       i_xrefs_from := Some [ {| r_type := "CODE"; r_addr := 0 |} ] |} ].

Definition sample_dex0 : Dex :=
  {| isj := [sample_isj_FutureTask_get];
     is_at := fun a => if (a =? 0)%Z then [sample_isj_FutureTask_get] else [];
     axtj := fun _ => [];
     pdfj := fun _ => None |}.

Definition sample_dex1 : Dex :=
  {| isj := [];
     is_at := fun _ => [];
     axtj := fun _ => [];
     pdfj := fun a => if (a =? 1000)%Z then Some sample_ops else None |}.

Definition sample_dex_list : list Dex := [sample_dex0; sample_dex1].

(** A method of the second Dex file, whose body is [sample_ops]. *)
Definition sample_parent : MethodObject :=
  {| class_name := "Lcom/example/B;"; name := "work"; descriptor := "()V";
     access_flags := None;
     cache := Some {| address := 1000; dexindex := 1; is_imported := false |} |}.




(** The method table of [sample_dex0]. *)
Definition sample_table : MethodTable :=
  {[ Some "Ljava/util/concurrent/FutureTask;" := [sample_FutureTask_get] ]}.

(** A state in which the table of the only Dex file has been built. *)
Definition sample_classified_state : state :=
  set_classified_cache [(0%nat, sample_table)] initial_state.


Section Contains.

(** The items of the two lists, compared with [==]. *)
Context {A : Type} `{EqDecision A}.

(** [l.remove(x)]: delete the first item equal to [x]; [None] stands for
    the [ValueError] raised when there is none. *)
Fixpoint list_remove (x : A) (l : list A) : option (list A) :=
  match l with
  | [] => None
  | y :: l' =>
      if decide (y = x) then Some l' else cons y <$> list_remove x l'
  end.

Lemma list_remove_length x l l' :
  list_remove x l = Some l' -> length l = S (length l').
Proof.
  revert l'; induction l as [|y l IH]; intros l'; simpl; [discriminate|].
  destruct (decide (y = x)); [now intros [= ->]|].
  destruct (list_remove x l) as [r|]; simpl; [|discriminate].
  intros [= <-]. simpl. now rewrite (IH r).
Qed.

(** [for item in target_copy: if item not in subset_to_check:
    target_copy.remove(item)]. The iterator of a list keeps a position
    [index] into the list, which the loop body shortens meanwhile. *)
Equations? delete_foreign (subset_to_check : list A) (index : nat)
    (target_copy : list A) : result (list A)
  by wf (length target_copy - index)%nat lt :=
  delete_foreign subset_to_check index target_copy
    with inspect (target_copy !! index) := {
    | exist _ None _ => Ok target_copy;
    | exist _ (Some item) _
        with inspect (bool_decide (item ∈ subset_to_check)) := {
      | exist _ true _ =>
          delete_foreign subset_to_check (S index) target_copy;
      | exist _ false _ with inspect (list_remove item target_copy) := {
        | exist _ (Some shorter) _ =>
            delete_foreign subset_to_check (S index) shorter;
        | exist _ None _ =>
            Raise (ValueError "list.remove(x): x not in list") } } }.
Proof.
  - apply lookup_lt_Some in e. lia.
  - apply lookup_lt_Some in e. apply list_remove_length in e1. lia.
Qed.

(** [for j in range(len(subset_to_check)): if target_copy[i + j] !=
    subset_to_check[j]: break], with [true] for the [else] branch of the
    loop, taken when it ends without [break]. *)
Fixpoint matches_at (target_copy subset_to_check : list A) (i : nat)
    (js : list nat) : result bool :=
  match js with
  | [] => Ok true
  | j :: js' =>
      match target_copy !! (i + j)%nat, subset_to_check !! j with
      | Some x, Some y =>
          if decide (x ≠ y) then Ok false
          else matches_at target_copy subset_to_check i js'
      | _, _ => Raise IndexError
      end
  end.

(** [for i in range(...): ...; return False] *)
Fixpoint first_match_from (target_copy subset_to_check : list A)
    (indices : list nat) : result bool :=
  match indices with
  | [] => Ok false
  | i :: indices' =>
      matched ← matches_at target_copy subset_to_check i
                           (seq 0 (length subset_to_check));
      if matched : bool then Ok true
      else first_match_from target_copy subset_to_check indices'
  end.

(** [contains(subset_to_check, target_list)]. The bound
    [len(target_copy) - len(subset_to_check) + 1] of the outer range is
    computed in [nat], whose subtraction stops at zero as the range is
    empty for a negative bound. *)
Definition contains (subset_to_check target_list : list A) : result bool :=
  target_copy ← delete_foreign subset_to_check 0 target_list;
  first_match_from target_copy subset_to_check
    (seq 0 (length target_copy + 1 - length subset_to_check)).

End Contains.


(** [sub] occurs in [l] as a block of adjacent items. *)
Definition infix_of {A} (sub l : list A) : Prop :=
  exists before after, l = before ++ sub ++ after.

(** No two neighbours of [target] are both missing from [subset]. *)
Fixpoint no_adjacent_foreign `{EqDecision A} (subset target : list A) : bool :=
  match target with
  | x :: (y :: _) as rest =>
      (bool_decide (x ∈ subset) || bool_decide (y ∈ subset))
      && no_adjacent_foreign subset rest
  | _ => true
  end.

(** A character with a special meaning in Rizin. *)
Definition rizin_special (c : ascii) : bool := Chr.among "<>$" c.

(** [s] has none of the characters [<], [>] and [$]. *)
Definition rizin_plain (s : string) : bool :=
  Str.all (fun c => negb (rizin_special c)) s.

(** The characters of [s], each changed by [f]. *)
Fixpoint map_chars (f : ascii -> ascii) (s : string) : string :=
  match s with
  | EmptyString => EmptyString
  | String a s' => String (f a) (map_chars f s')
  end.

Definition present {A} (o : option A) : bool :=
  match o with Some _ => true | None => false end.



(** An operand as it stands in a line: not empty, without any of the
    separators [{], [}] and [,], and without white space at either end. *)
Definition operand (t : string) : bool :=
  nonempty t
  && Str.all (fun c => negb (Chr.among "{}," c)) t
  && String.eqb (strip t) t.

(** The operand text of the registers [regs] and a final parameter [p]:
    in the layout [{r1, ..., rk}, p] of the invoke instructions, or in
    the plain layout [r1, ..., rk, p]. *)
Definition operand_text (braced : bool) (regs : list string) (p : string)
  : string :=
  if braced then "{" +:+ Str.join ", " regs +:+ "}, " +:+ p
  else Str.join ", " (regs ++ [p]).

(** An index that [int] converts back from its decimal text. *)
Definition within_digit_limit (z : Z) : Prop :=
  (String.length (py_str z) <= int_max_str_digits)%nat.

(** A character of a class name inside a descriptor: anything but [;],
    [)], a space or a line feed. *)
Definition class_name_char (c : ascii) : bool :=
  negb (Chr.among "; )" c || Ascii.eqb c Chr.newline).

(** A field type of a JVM descriptor: array brackets, then a primitive
    code or [L<class>;]. *)
Fixpoint field_type (s : string) : bool :=
  match s with
  | EmptyString => false
  | String c rest =>
      if Ascii.eqb c "[" then field_type rest
      else if Ascii.eqb c "L" then
        let '(name, tail) := Str.span class_name_char rest in
        nonempty name && String.eqb tail ";"
      else Chr.among "ZBCSIJFD" c && String.eqb rest ""
  end.

(** The matches of ["L.+?;|[ZBCSIJFD]|\["] in a field type: one per
    bracket, then the rest. *)
Fixpoint type_tokens (t : string) : list string :=
  match t with
  | EmptyString => []
  | String c rest =>
      if Ascii.eqb c "[" then "[" :: type_tokens rest else [t]
  end.

(** The commands that open and analyse the session of a Dex file. *)
Definition opening (index : nat) : list (nat * command) :=
  [(index, Cmd_open); (index, Cmd_aa)].

(** A command sent to the session of the Dex file of a method that is
    not imported. *)
Definition to_own_session (c : RizinCache) (q : nat * command) : Prop :=
  is_imported c = false /\ fst q = dexindex c.

(** [sample_parent] as another Dex file would describe it: the same
    triple, another address and Dex index. *)
Definition sample_parent_twin : MethodObject :=
  {| class_name := "Lcom/example/B;"; name := "work"; descriptor := "()V";
     access_flags := Some ["public"];
     cache := Some {| address := 0; dexindex := 0; is_imported := true |} |}.

(** The methods of [l] are pairwise different as [MethodObject.__eq__]
    compares them. *)
Definition distinct_methods (l : list MethodObject) : Prop :=
  NoDup (map compare_fields l).

(** The methods that the records of the answer to [isj] parse to, in the
    order of the records. *)
Definition parsed_methods (d : Dex) (dexindex : nat) : list MethodObject :=
  omap (fun json_obj =>
          match _parse_method_from_isj_obj json_obj dexindex with
          | Ok (Some method) => Some method
          | _ => None
          end) (isj d).

(** The methods of [l] whose class name is the key [key]. *)
Definition methods_of_class (key : option string) (l : list MethodObject)
  : list MethodObject :=
  filter (fun method => Some (class_name method) = key) l.

(** ** The rest of the class [RizinImp]: all methods, strings and class
    hierarchy *)

(** One entry of the answer to [izzj]. *)
Record string_detail : Type := {
  s_string : option string
}.

(** One entry of the answer to [icj]. *)
Record class_info : Type := {
  c_classname : option string;
  c_super : option string
}.

(** What Rizin answers for one Dex file to the commands [izzj] and
    [icj]. *)
Record DexInfo : Type := {
  izzj : list string_detail;
  icj : list class_info
}.

Inductive query : Type :=
| Cmd_izzj                    (* izzj *)
| Cmd_icj.                    (* icj *)

(** An instance of the class: the sessions and memoized results of
    [state], the commands [izzj] and [icj] sent so far, oldest first,
    and the values that [functools.cached_property] has stored. *)
Record instance : Type := {
  sessions : state;
  queries : list (nat * query);
  all_methods_cache : option (list MethodObject);
  superclass_cache : option (gmap string (gset string));
  subclass_cache : option (gmap string (gset string))
}.

Definition set_sessions st (i : instance) :=
  {| sessions := st; queries := queries i;
     all_methods_cache := all_methods_cache i;
     superclass_cache := superclass_cache i;
     subclass_cache := subclass_cache i |}.
Definition set_queries q (i : instance) :=
  {| sessions := sessions i; queries := q;
     all_methods_cache := all_methods_cache i;
     superclass_cache := superclass_cache i;
     subclass_cache := subclass_cache i |}.
Definition set_all_methods_cache c (i : instance) :=
  {| sessions := sessions i; queries := queries i;
     all_methods_cache := c;
     superclass_cache := superclass_cache i;
     subclass_cache := subclass_cache i |}.
Definition set_superclass_cache c (i : instance) :=
  {| sessions := sessions i; queries := queries i;
     all_methods_cache := all_methods_cache i;
     superclass_cache := c;
     subclass_cache := subclass_cache i |}.
Definition set_subclass_cache c (i : instance) :=
  {| sessions := sessions i; queries := queries i;
     all_methods_cache := all_methods_cache i;
     superclass_cache := superclass_cache i;
     subclass_cache := c |}.

Definition initial_instance : instance :=
  {| sessions := initial_state; queries := [];
     all_methods_cache := None; superclass_cache := None;
     subclass_cache := None |}.

(** Computations on an instance. *)
Definition MI (A : Type) : Type := instance -> result A * instance.

Global Instance MI_ret : MRet MI := fun _ a i => (Ok a, i).
Global Instance MI_bind : MBind MI := fun _ _ f m i =>
  match m i with
  | (Ok a, i') => f a i'
  | (Raise e, i') => (Raise e, i')
  end.

(** A computation on the sessions, run on those of the instance. *)
Definition on_sessions {A} (m : M A) : MI A :=
  fun i => let '(r, st) := m (sessions i) in (r, set_sessions st i).

Definition lift_i {A} (r : result A) : MI A := fun i => (r, i).

(** The decorator [functools.cached_property]: the value is computed at
    the first access that returns and stored in the instance. *)
Definition cached_property {V} (get : instance -> option V)
    (set : option V -> instance -> instance) (f : MI V) : MI V :=
  fun i =>
    match get i with
    | Some v => (Ok v, i)
    | None =>
        match f i with
        | (Ok v, i') => (Ok v, set (Some v) i')
        | (Raise e, i') => (Raise e, i')
        end
    end.

(** [for x in xs: acc = body(x, acc)] on an instance *)
Fixpoint for_each_i {A S} (xs : list A) (body : A -> S -> MI S) (acc : S)
  : MI S :=
  match xs with
  | [] => mret acc
  | x :: xs' => acc' ← body x acc; for_each_i xs' body acc'
  end.

(** [[f(x) for x in xs]] where [f] may raise *)
Fixpoint comprehension {A B} (f : A -> result B) (xs : list A)
  : result (list B) :=
  match xs with
  | [] => Ok []
  | x :: xs' => y ← f x; ys ← comprehension f xs'; Ok (y :: ys)
  end.

Section RizinInstance.

Variable str_hash : string -> Z.
Variable tuple_hash : list Z -> Z.
Variable set_order : list MethodObject -> list MethodObject.
Variable dex_list : list Dex.

(** The answers to [izzj] and [icj], one entry for each Dex file of
    [dex_list]. *)
Variable info_list : list DexInfo.

(** [rz.cmdj("izzj")] and [rz.cmdj("icj")] on the session of Dex file
    [rz] *)
Definition queryj {A} (rz : nat) (c : query) (answer : DexInfo -> A) : MI A :=
  fun i =>
    let i := set_queries (queries i ++ [(rz, c)]) i in
    match info_list !! rz with
    | Some d => (Ok (answer d), i)
    | None => (Raise IndexError, i)
    end.

(** [d.values()] of a method table. The tables are kept as finite maps,
    which are enumerated in the order of their keys, where Python
    enumerates a dictionary in the order of insertion; the values are
    only collected into a set. *)
Definition dict_values (d : MethodTable) : list (list MethodObject) :=
  (map_to_list d).*2.

(** The cached property [all_methods] *)
Definition all_methods : MI (list MethodObject) :=
  cached_property all_methods_cache set_all_methods_cache
    (on_sessions
       (for_each (seq 0 (_number_of_dex dex_list))
          (fun dex_index method_set =>
             method_dict ← _get_methods_classified
                              str_hash tuple_hash set_order dex_list dex_index;
             mret (fold_left (set_update str_hash tuple_hash)
                             (dict_values method_dict) method_set))
          [])).

(** [method.cache.is_imported] *)
Definition cache_is_imported (method : MethodObject) : result bool :=
  match cache method with
  | Some c => Ok (is_imported c)
  | None => Raise AttributeError
  end.

(** [{x for x in s if keep(x)}] for a condition that may raise *)
Fixpoint set_comprehension (keep : MethodObject -> result bool)
    (s : list MethodObject) : result (list MethodObject) :=
  match s with
  | [] => Ok []
  | x :: s' =>
      kept ← keep x;
      rest ← set_comprehension keep s';
      Ok (if kept : bool then set_update str_hash tuple_hash [x] rest
          else rest)
  end.

(** The property [android_apis] *)
Definition android_apis : MI (list MethodObject) :=
  methods ← all_methods;
  lift_i (set_comprehension
            (fun method =>
               if is_android_api method then cache_is_imported method
               else Ok false)
            methods).

(** The property [custom_methods] *)
Definition custom_methods : MI (list MethodObject) :=
  methods ← all_methods;
  lift_i (set_comprehension
            (fun method => imported ← cache_is_imported method;
                           Ok (negb imported))
            methods).

Definition get_strings : MI (gset string) :=
  for_each_i (seq 0 (_number_of_dex dex_list))
    (fun dex_index (strings : gset string) =>
       rz ← on_sessions (_get_rz dex_list dex_index);
       string_detail_list ← queryj rz Cmd_izzj izzj;
       found ← lift_i (comprehension
                         (fun string_detail =>
                            field "string" (s_string string_detail))
                         string_detail_list);
       mret (strings ∪ list_to_set found))
    ∅.

(** [hierarchy_dict[key].add(value)] on a [defaultdict(set)] *)
Definition add_to (key value : string) (d : gmap string (gset string))
  : gmap string (gset string) :=
  <[key := default ∅ (d !! key) ∪ {[value]}]> d.

(** The cached property [superclass_relationships] *)
Definition superclass_relationships : MI (gmap string (gset string)) :=
  cached_property superclass_cache set_superclass_cache
    (for_each_i (seq 0 (_number_of_dex dex_list))
       (fun dex_index hierarchy_dict =>
          rz ← on_sessions (_get_rz dex_list dex_index);
          class_info_list ← queryj rz Cmd_icj icj;
          for_each_i class_info_list
            (fun class_info hierarchy_dict =>
               class_name ← lift_i (field "classname"
                                          (c_classname class_info));
               super_class ← lift_i (field "super" (c_super class_info));
               mret (add_to class_name super_class hierarchy_dict))
            hierarchy_dict)
       ∅).

(** The cached property [subclass_relationships] *)
Definition subclass_relationships : MI (gmap string (gset string)) :=
  cached_property subclass_cache set_subclass_cache
    (for_each_i (seq 0 (_number_of_dex dex_list))
       (fun dex_index hierarchy_dict =>
          rz ← on_sessions (_get_rz dex_list dex_index);
          class_info_list ← queryj rz Cmd_icj icj;
          for_each_i class_info_list
            (fun class_info hierarchy_dict =>
               class_name ← lift_i (field "classname"
                                          (c_classname class_info));
               super_class ← lift_i (field "super" (c_super class_info));
               mret (add_to super_class class_name hierarchy_dict))
            hierarchy_dict)
       ∅).

End RizinInstance.

(** [method.cache.is_imported], where the method has a cache *)
Definition imported (method : MethodObject) : bool :=
  match cache method with
  | Some c => is_imported c
  | None => false
  end.

(** The members of [hierarchy_dict[key]], none for a missing key. *)
Definition related (hierarchy_dict : gmap string (gset string))
    (key : string) : gset string :=
  default ∅ (hierarchy_dict !! key).

(** Two Dex files with one class each, and their strings. *)
Definition sample_info_list : list DexInfo :=
  [ {| izzj := [ {| s_string := Some "hello" |} ];
       icj := [ {| c_classname := Some "Lcom/example/A;";
                   c_super := Some "Ljava/lang/Object;" |} ] |};
    {| izzj := [ {| s_string := Some "world" |};
                 {| s_string := Some "hello" |} ];
       icj := [ {| c_classname := Some "Lcom/example/B;";
                   c_super := Some "Lcom/example/A;" |} ] |} ].

(** ** The rest of [quark/core/struct/methodobject.py] *)

(** [MethodObject.__str__] *)
Definition MethodObject_str (m : MethodObject) : string :=
  class_name m +:+ " " +:+ name m +:+ " " +:+ descriptor m.

(** The property [MethodObject.full_name] *)
Definition full_name (m : MethodObject) : string := MethodObject_str m.

(** Two methods whose class names and names have a space in different
    places. *)
Definition sample_spaced_method_1 : MethodObject :=
  {| class_name := "a b"; name := "c"; descriptor := "()V";
     access_flags := None; cache := None |}.
Definition sample_spaced_method_2 : MethodObject :=
  {| class_name := "a"; name := "b c"; descriptor := "()V";
     access_flags := None; cache := None |}.

(** ** Finding and installing Rizin ([quark/utils/tools.py])

    The functions below start child processes and touch the file
    system. The machine is a [system]: for every operation it tells the
    outcome, given the operations that were carried out before. A
    computation carries the list of these operations. The constants of
    [quark.config] are parameters; the printing functions of
    [quark.utils.pprint] change no value and are left out. *)

(** The two values that the source passes as [stderr]. *)
Inductive redirect : Type := PIPE | STDOUT.

(** A child process that has ended: the characters read from its
    standard output, the text of its standard error, its return code. *)
Record process : Type := {
  stdout : string;
  stderr : string;
  return_code : Z }.

Inductive action : Type :=
| Which (cmd : string)
| Run (args : list string)
| Access (path : string)
| Rmtree (path : string)
| Mkdir (path : string)
| Popen (args : list string) (stderr_to : redirect) (cwd : option string).

(** - [sys_which]: [shutil.which(cmd)];
    - [sys_run]: [str(process.stdout)] for
      [subprocess.run(args, timeout=5, check=True, stdout=PIPE)], and
      [None] where that call raises (no such program, a return code
      other than 0, no end within five seconds);
    - [sys_access]: [os.access(path, F_OK)];
    - [sys_rmtree], [sys_mkdir]: whether the call completes ([false]
      where it raises an [OSError]);
    - [sys_popen]: the process started by [subprocess.Popen], once it
      has ended, and [None] where it cannot be started. *)
Record system : Type := {
  sys_which : list action -> string -> option string;
  sys_run : list action -> list string -> option string;
  sys_access : list action -> string -> bool;
  sys_rmtree : list action -> string -> bool;
  sys_mkdir : list action -> string -> bool;
  sys_popen : list action -> list string -> redirect -> option string
              -> option process }.

(** A Python text value: [str] or [bytes]. *)
Inductive text : Type :=
| PyStr (s : string)
| PyBytes (s : string).

(** [t.decode()]: only [bytes] has the method. *)
Definition decode (t : text) : result string :=
  match t with
  | PyBytes s => Ok s
  | PyStr _ => Raise AttributeError
  end.

Inductive error : Type :=
| CalledProcessError (returncode : Z) (cmd : list string) (err : text)
| OSError
| Builtin (e : exn).

Inductive outcome (A : Type) : Type :=
| Return (a : A)
| Throw (e : error).
Arguments Return {A} a.
Arguments Throw {A} e.

Definition IO (A : Type) : Type := list action -> outcome A * list action.

Global Instance IO_ret : MRet IO := fun _ a h => (Return a, h).
Global Instance IO_bind : MBind IO := fun _ _ f m h =>
  match m h with
  | (Return a, h') => f a h'
  | (Throw e, h') => (Throw e, h')
  end.

Definition lift_io {A} (r : result A) : IO A :=
  fun h => match r with
           | Ok a => (Return a, h)
           | Raise e => (Throw (Builtin e), h)
           end.

(** [try: body / except subprocess.CalledProcessError as error: handler] *)
Definition try_except {A} (body : IO A) (handler : text -> IO A) : IO A :=
  fun h =>
    match body h with
    | (Throw (CalledProcessError _ _ err), h') => handler err h'
    | r => r
    end.

(** The lines that the reading loop of [execute_command] yields from
    the characters [out], [line] being the characters read since the
    last line end. *)
Fixpoint yielded (line out : string) : list string :=
  match out with
  | EmptyString => []
  | String char out' =>
      if Ascii.eqb char Chr.newline || Ascii.eqb char (ascii_of_nat 13)
      then line :: yielded EmptyString out'
      else yielded (line +:+ String char EmptyString) out'
  end.

(** [[0-9]+\.[0-9]+\.[0-9]+] matched at the start of [s] *)
Definition version_at (s : string) : option string :=
  let '(major, rest) := Str.span Chr.is_digit s in
  match major, rest with
  | String _ _, String "." rest =>
      let '(minor, rest) := Str.span Chr.is_digit rest in
      match minor, rest with
      | String _ _, String "." rest =>
          let '(patch, _) := Str.span Chr.is_digit rest in
          match patch with
          | String _ _ => Some (major +:+ "." +:+ minor +:+ "." +:+ patch)
          | EmptyString => None
          end
      | _, _ => None
      end
  | _, _ => None
  end.

(** [next(re.finditer(r"[0-9]+\.[0-9]+\.[0-9]+", s), None)], with the
    matched text for the match object *)
Fixpoint first_matched (s : string) : option string :=
  match version_at s with
  | Some version => Some version
  | None =>
      match s with
      | EmptyString => None
      | String _ s' => first_matched s'
      end
  end.

Section Installation.

Variable COMPATIBLE_RAZIN_VERSIONS : list string.
Variable sys : system.

Definition which (cmd : string) : IO (option string) :=
  fun h => (Return (sys_which sys h cmd), h ++ [Which cmd]).

Definition access (path : string) : IO bool :=
  fun h => (Return (sys_access sys h path), h ++ [Access path]).

Definition rmtree (path : string) : IO unit :=
  fun h => (if sys_rmtree sys h path then Return tt else Throw OSError,
            h ++ [Rmtree path]).

Definition mkdir (path : string) : IO unit :=
  fun h => (if sys_mkdir sys h path then Return tt else Throw OSError,
            h ++ [Mkdir path]).

(** The generator [execute_command], run to its end: the lines it
    yields, or what it raises after them. *)
Definition execute_command (command : list string) (stderr_ : redirect)
    (cwd : option string) : IO (list string) :=
  fun h =>
    let h' := h ++ [Popen command stderr_ cwd] in
    match sys_popen sys h command stderr_ cwd with
    | None => (Throw OSError, h')
    | Some process =>
        if (return_code process =? 0)%Z
        then (Return (yielded EmptyString (stdout process)), h')
        else
          let error_messages :=
            match stderr_ with
            | PIPE => stderr process
            | STDOUT => EmptyString
            end in
          (Throw (CalledProcessError (return_code process) command
                    (PyStr error_messages)), h')
    end.

Definition get_rizin_version (rizin_path : string) : IO (option string) :=
  fun h =>
    (Return
       match sys_run sys h [rizin_path; "-v"] with
       | Some result =>
           match Str.find "@" result with
           | Some at_ => first_matched (Str.take at_ result)
           | None => None
           end
       | None => None
       end,
     h ++ [Run [rizin_path; "-v"]]).

Definition download_rizin (target_path : string) : IO bool :=
  present ← access target_path;
  (if present : bool
   then rmtree target_path;; mkdir target_path
   else mret tt);;
  try_except
    (execute_command
       ["git"; "clone"; "--progress"; "https://github.com/rizinorg/rizin";
        target_path] STDOUT None;;
     mret true)
    (fun _ => mret false).

(** The handler of both [try] statements of [update_rizin]: the lines
    of [error.stderr.decode()] are printed, then [False] is returned. *)
Definition update_failed (err : text) : IO bool :=
  lift_io (decode err);;
  mret false.

(** The first [try] statement gives [Some] where its handler returns. *)
Definition update_rizin (source_path target_commit : string) : IO bool :=
  returned ← try_except
    ((* Checkout to target commit *)
     execute_command ["git"; "checkout"; target_commit] PIPE
       (Some source_path);;
     (* Remove the last build *)
     execute_command ["rm"; "-rf"; "build"] PIPE (Some source_path);;
     (* Clean out old subproject *)
     execute_command ["git"; "clean"; "-dxff"; "subprojects/"] PIPE
       (Some source_path);;
     mret None)
    (fun err => value ← update_failed err; mret (Some value));
  match returned with
  | Some value => mret value
  | None =>
      (* Compile Rizin *)
      try_except
        ((* Configure *)
         execute_command ["meson"; "--buildtype=release"; "build"] PIPE
           (Some source_path);;
         (* Compile the source code *)
         execute_command ["meson"; "compile"; "-C"; "build"] PIPE
           (Some source_path);;
         mret true)
        update_failed
  end.

(** [version in COMPATIBLE_RAZIN_VERSIONS] *)
Definition is_compatible (version : option string) : bool :=
  match version with
  | Some version => existsb (String.eqb version) COMPATIBLE_RAZIN_VERSIONS
  | None => false
  end.

(** [for _ in range(times): result = download_rizin(path); if result: break] *)
Fixpoint download_attempts (times : nat) (path : string) : IO unit :=
  match times with
  | O => mret tt
  | S times' =>
      result ← download_rizin path;
      if result : bool then mret tt else download_attempts times' path
  end.

(** The defaults of the source are [RIZIN_DIR], [RIZIN_COMMIT] and
    [False]. *)
Definition find_rizin_instance (rizin_source_path target_commit : string)
    (disable_rizin_installation : bool) : IO (option string) :=
  let search_home : IO (option string) :=
    (* Otherwise, search the home path *)
    let rizin_executable_path :=
      rizin_source_path +:+ "build/binrz/rizin/rizin" in
    current_version ← get_rizin_version rizin_executable_path;
    if negb (truthy current_version) && negb disable_rizin_installation
    then
      download_attempts 3 rizin_source_path;;
      result ← update_rizin rizin_source_path target_commit;
      mret (if result : bool then Some rizin_executable_path else None)
    else if negb (truthy current_version) then mret None
    else if is_compatible current_version
    then mret (Some rizin_executable_path)
    else if disable_rizin_installation
    then mret (Some rizin_executable_path)
    else
      (* Update and compile the source code *)
      result ← update_rizin rizin_source_path target_commit;
      mret (if result : bool then Some rizin_executable_path else None) in
  (* Search Rizin in PATH *)
  which_result ← which "rizin";
  match which_result with
  | Some path =>
      if nonempty path
      then
        version ← get_rizin_version path;
        if is_compatible version then mret which_result else search_home
      else search_home
  | None => search_home
  end.

End Installation.

(** *** Vocabulary for the statements about the installation *)

(** The return code with which the process that the operation [a]
    starts after the operations [h] ends; [None] where [a] starts no
    process or the process cannot be started. *)
Definition exit_code (sys : system) (h : list action) (a : action)
  : option Z :=
  match a with
  | Popen args stderr_to cwd =>
      return_code <$> sys_popen sys h args stderr_to cwd
  | _ => None
  end.

(** The processes of [acts], started in turn after [h], all end with
    return code 0. *)
Definition all_succeed (sys : system) (h acts : list action) : Prop :=
  forall n a, acts !! n = Some a ->
    exit_code sys (h ++ take n acts) a = Some 0%Z.

(** The five commands of [update_rizin]. *)
Definition update_commands (source_path target_commit : string)
  : list action :=
  [ Popen ["git"; "checkout"; target_commit] PIPE (Some source_path);
    Popen ["rm"; "-rf"; "build"] PIPE (Some source_path);
    Popen ["git"; "clean"; "-dxff"; "subprojects/"] PIPE (Some source_path);
    Popen ["meson"; "--buildtype=release"; "build"] PIPE (Some source_path);
    Popen ["meson"; "compile"; "-C"; "build"] PIPE (Some source_path) ].

(** The command of [download_rizin]. *)
Definition clone_command (target_path : string) : action :=
  Popen ["git"; "clone"; "--progress"; "https://github.com/rizinorg/rizin";
         target_path] STDOUT None.

Definition is_clone (a : action) : bool :=
  match a with
  | Popen ("git" :: "clone" :: _) _ _ => true
  | _ => false
  end.

(** Operations that only look: [shutil.which] and [rizin -v]. *)
Definition is_query (a : action) : bool :=
  match a with
  | Which _ | Run _ => true
  | _ => false
  end.

(** A non-empty run of decimal digits. *)
Definition number (s : string) : Prop :=
  s <> EmptyString /\ Str.all Chr.is_digit s = true.

(** A machine without [rizin] in PATH, whose executable in the Quark
    directory reports version 0.3.0, and on which every command fails. *)
Definition sample_outdated_system : system :=
  {| sys_which := fun _ _ => None;
     sys_run := fun _ args =>
       match args with
       | ["/q/build/binrz/rizin/rizin"; "-v"] =>
           Some "b'rizin 0.3.0 @ linux-x86-64'"
       | _ => None
       end;
     sys_access := fun _ _ => false;
     sys_rmtree := fun _ _ => false;
     sys_mkdir := fun _ _ => false;
     sys_popen := fun _ _ _ _ => None |}.

(** A machine with a Rizin 0.4.1 in PATH. *)
Definition sample_path_system : system :=
  {| sys_which := fun _ _ => Some "/usr/bin/rizin";
     sys_run := fun _ args =>
       match args with
       | ["/usr/bin/rizin"; "-v"] => Some "b'rizin 0.4.1 @ linux-x86-64'"
       | _ => None
       end;
     sys_access := fun _ _ => false;
     sys_rmtree := fun _ _ => false;
     sys_mkdir := fun _ _ => false;
     sys_popen := fun _ _ _ _ => None |}.

(** * Properties *)

(** ** Strings *)

Lemma str_app_cons a s t : String a s +:+ t = String a (s +:+ t).
Proof. reflexivity. Qed.

Lemma str_app_nil_l s : "" +:+ s = s.
Proof. reflexivity. Qed.

Lemma str_app_nil_r s : s +:+ "" = s.
Proof.
  induction s as [|a s IH]; [reflexivity|]. rewrite str_app_cons. congruence.
Qed.

Lemma str_app_assoc s t u : (s +:+ t) +:+ u = s +:+ t +:+ u.
Proof.
  induction s as [|a s IH]; [reflexivity|]. rewrite !str_app_cons. congruence.
Qed.

Lemma str_app_length s t :
  String.length (s +:+ t) = (String.length s + String.length t)%nat.
Proof.
  induction s as [|a s IH]; [reflexivity|]. rewrite str_app_cons. simpl. congruence.
Qed.

Lemma prefix_refl s : String.prefix s s = true.
Proof.
  induction s as [|a s IH]; simpl; [reflexivity|].
  destruct (ascii_dec a a); [exact IH|congruence].
Qed.

Lemma prefix_app p s : String.prefix p (p +:+ s) = true.
Proof.
  induction p as [|a p IH]; [now destruct s|]. rewrite str_app_cons. simpl.
  destruct (ascii_dec a a); [exact IH|congruence].
Qed.

Lemma prefix_inv p s :
  String.prefix p s = true -> exists r, s = p +:+ r.
Proof.
  revert s; induction p as [|a p IH]; intros s H.
  - exists s; reflexivity.
  - destruct s as [|b s]; simpl in H; [discriminate|].
    destruct (ascii_dec a b) as [->|]; [|discriminate].
    destruct (IH _ H) as [r ->]. exists r; reflexivity.
Qed.

Lemma prefix_cons a p b s :
  String.prefix (String a p) (String b s)
  = Ascii.eqb a b && String.prefix p s.
Proof.
  simpl. destruct (ascii_dec a b) as [->|Hne].
  - now rewrite Ascii.eqb_refl.
  - apply Ascii.eqb_neq in Hne. now rewrite Hne.
Qed.

Lemma prefix_nil s : String.prefix "" s = true.
Proof. now destruct s. Qed.

Lemma take_app s t : Str.take (String.length s) (s +:+ t) = s.
Proof.
  induction s as [|a s IH]; [now destruct t|].
  rewrite str_app_cons. simpl. now rewrite IH.
Qed.

Lemma drop_app s t : Str.drop (String.length s) (s +:+ t) = t.
Proof.
  induction s as [|a s IH]; [now destruct t|]. rewrite str_app_cons. exact IH.
Qed.

Lemma drop_last_app s t : Str.drop_last (String.length t) (s +:+ t) = s.
Proof.
  unfold Str.drop_last. rewrite str_app_length.
  replace (String.length s + String.length t - String.length t)%nat
    with (String.length s) by lia.
  apply take_app.
Qed.

Lemma endswith_unfold s suf :
  Str.endswith s suf =
    if String.eqb s suf then true
    else match s with
         | EmptyString => false
         | String _ s' => Str.endswith s' suf
         end.
Proof. destruct s; reflexivity. Qed.

Lemma endswith_app s suf : Str.endswith (s +:+ suf) suf = true.
Proof.
  induction s as [|a s IH]; rewrite endswith_unfold.
  - rewrite str_app_nil_l. now rewrite String.eqb_refl.
  - rewrite str_app_cons, IH. now destruct (String.eqb _ _).
Qed.

Lemma endswith_inv s suf :
  Str.endswith s suf = true -> exists u, s = u +:+ suf.
Proof.
  induction s as [|a s IH]; rewrite endswith_unfold;
    destruct (String.eqb _ suf) eqn:E.
  - apply String.eqb_eq in E. exists "". now subst.
  - discriminate.
  - apply String.eqb_eq in E. exists "". now subst.
  - intros H. destruct (IH H) as [u ->]. exists (String a u). reflexivity.
Qed.

Lemma contains_unfold sub s :
  Str.contains sub s =
    if String.prefix sub s then true
    else match s with
         | EmptyString => false
         | String _ s' => Str.contains sub s'
         end.
Proof. destruct s; reflexivity. Qed.

(** ** The expectations of [tests/core/test_rzapkinfo.py]

    The embedding computes, on the inputs of the repository's tests, the
    values those tests expect. *)

Example test_convert_type_to_type_signature :
  map _convert_type_to_type_signature
    [ "void"; "boolean"; "byte"; "char"; "short"; "int"; "long"; "float";
      "double"; "double[]"; "String"; "[String"; "[[String"; "String[][]";
      "android.accessibilityservice.AccessibilityServiceInfo";
      "[android.accessibilityservice.AccessibilityServiceInfo";
      "[[android.accessibilityservice.AccessibilityServiceInfo" ]
  = [ "V"; "Z"; "B"; "C"; "S"; "I"; "J"; "F"; "D"; "[D";
      "Ljava/lang/String;"; "[Ljava/lang/String;"; "[[Ljava/lang/String;";
      "[[Ljava/lang/String;";
      "Landroid/accessibilityservice/AccessibilityServiceInfo;";
      "[Landroid/accessibilityservice/AccessibilityServiceInfo;";
      "[[Landroid/accessibilityservice/AccessibilityServiceInfo;" ].
Proof. vm_compute. reflexivity. Qed.

Example test_parse_overloaded_method :
  parsed_fields sample_isj_getCapabilities_Mr2
  = Some ("Landroid/support/v4/accessibilityservice/AccessibilityServiceInfoCompatJellyBeanMr2;",
          "getCapabilities",
          "(Landroid/accessibilityservice/AccessibilityServiceInfo;)I").
Proof. vm_compute. reflexivity. Qed.

Example test_parse_subclass_method :
  parsed_fields sample_isj_getCapabilities_Impl
  = Some ("Landroid/support/v4/accessibilityservice/AccessibilityServiceInfoCompat$AccessibilityServiceInfoVersionImpl;",
          "getCapabilities",
          "(Landroid/accessibilityservice/AccessibilityServiceInfo;)I").
Proof. vm_compute. reflexivity. Qed.

Example test_parse_imported_method :
  parsed_fields sample_isj_FutureTask_get
  = Some ("Ljava/util/concurrent/FutureTask;", "get", "()Ljava/lang/Object;").
Proof. vm_compute. reflexivity. Qed.

Example test_parse_demangled_arguments :
  parsed_fields sample_isj_Request
  = Some ("Lcom/example/google/service/WebServiceCalling;", "Request",
          "(Landroid/os/Handler; Ljava/lang/String; Ljava/lang/String;)V").
Proof. vm_compute. reflexivity. Qed.

(** The instruction line that the specification shows parsed. *)
Example parse_smali_invoke_virtual :
  _parse_smali
    "invoke-virtual {v1, v2}, Ljava/lang/String;->concat(Ljava/lang/String;)Ljava/lang/String;"
  = Ok {| mnemonic := "invoke-virtual";
          registers := Some ["v1"; "v2"];
          parameter :=
            Some "Ljava/lang/String;->concat(Ljava/lang/String;)Ljava/lang/String;" |}.
Proof. vm_compute. reflexivity. Qed.

Example parse_smali_no_operands :
  _parse_smali "return-void"
  = Ok {| mnemonic := "return-void"; registers := None; parameter := None |}.
Proof. vm_compute. reflexivity. Qed.

Example parse_smali_empty_line : is_raise (_parse_smali "") = true.
Proof. vm_compute. reflexivity. Qed.

(** ** C4: array and variadic rules of the type signature converter *)

Ltac rhs_rewrite e := etransitivity; [| rewrite e; reflexivity].

Lemma convert_unfold s :
  _convert_type_to_type_signature s =
    match s with
    | EmptyString => EmptyString
    | _ =>
      if Str.endswith s "[]" then
        "[" +:+ _convert_type_to_type_signature (Str.drop_last 2 s)
      else if Str.startswith s "[" then
        "[" +:+ _convert_type_to_type_signature (Str.drop 1 s)
      else match Str.find "..." s with
           | Some index =>
               "[" +:+ _convert_type_to_type_signature (Str.take index s)
           | None => convert_plain s
           end
    end.
Proof.
  destruct s as [|a s]; [reflexivity|].
  simp _convert_type_to_type_signature.
  destruct (inspect (Str.endswith (String a s) "[]")) as [[] e1];
    rhs_rewrite e1; simp _convert_type_to_type_signature; [reflexivity|].
  destruct (inspect (Str.startswith (String a s) "[")) as [[] e2];
    rhs_rewrite e2; simp _convert_type_to_type_signature; [reflexivity|].
  destruct (inspect (Str.find "..." (String a s))) as [[i|] e3];
    rhs_rewrite e3; simp _convert_type_to_type_signature; reflexivity.
Qed.

(** Rule (a), trailing form: holds for every string. *)
Lemma convert_array_suffix T :
  _convert_type_to_type_signature (T +:+ "[]")
  = "[" +:+ _convert_type_to_type_signature T.
Proof.
  rewrite convert_unfold.
  rewrite endswith_app.
  change 2%nat with (String.length "[]"). rewrite drop_last_app.
  destruct T; reflexivity.
Qed.

(** Rule (a), leading form: the trailing test comes first, so the one
    string it can steal from the leading test, a lone closing bracket
    after the opening one, has to be set aside. *)
Lemma convert_array_prefix T :
  Str.startswith T "]" = false ->
  _convert_type_to_type_signature ("[" +:+ T)
  = "[" +:+ _convert_type_to_type_signature T.
Proof.
  remember (String.length T) as n eqn:Hn.
  revert T Hn. induction n as [n IH] using lt_wf_ind. intros T Hn HT.
  rewrite convert_unfold. rewrite str_app_cons, str_app_nil_l.
  destruct (Str.endswith (String "[" T) "[]") eqn:He.
  - rewrite endswith_unfold in He.
    destruct (String.eqb (String "[" T) "[]") eqn:E.
    + apply String.eqb_eq in E. injection E as ->. discriminate HT.
    + apply endswith_inv in He. destruct He as [U ->].
      rewrite <- str_app_cons.
      change 2%nat with (String.length "[]"). rewrite drop_last_app.
      rewrite convert_array_suffix.
      f_equal. apply (IH (String.length U)); [|reflexivity|].
      * rewrite Hn, str_app_length. simpl. lia.
      * destruct U as [|u U]; [reflexivity|].
        unfold Str.startswith in *. rewrite str_app_cons in HT.
        rewrite prefix_cons, prefix_nil in *. exact HT.
  - unfold Str.startswith. rewrite prefix_cons, prefix_nil. reflexivity.
Qed.

Lemma eqb_app_dots_false c F t :
  (2 <= String.length t)%nat ->
  String.eqb (String c (F +:+ "...")) t = true -> String.length t = 2%nat ->
  False.
Proof.
  intros _ H Hl. apply String.eqb_eq in H. apply (f_equal String.length) in H.
  simpl in H. rewrite str_app_length in H. simpl in H. lia.
Qed.

Lemma endswith_dots F : Str.endswith (F +:+ "...") "[]" = false.
Proof.
  induction F as [|c F IH]; [reflexivity|].
  rewrite str_app_cons, endswith_unfold.
  destruct (String.eqb _ _) eqn:E; [|exact IH].
  exfalso. eapply eqb_app_dots_false; [|exact E|]; simpl; lia.
Qed.

Lemma find_dots F :
  Str.contains "..." F = false -> Str.endswith F "." = false ->
  Str.find "..." (F +:+ "...") = Some (String.length F).
Proof.
  induction F as [|c F IH]; intros Hc He; [reflexivity|].
  rewrite contains_unfold in Hc. rewrite endswith_unfold in He.
  destruct (String.prefix "..." (String c F)) eqn:Hp; [discriminate|].
  destruct (String.eqb (String c F) ".") eqn:Heq; [discriminate|].
  rewrite str_app_cons, find_unfold.
  assert (Hp' : String.prefix "..." (String c (F +:+ "...")) = false).
  { rewrite prefix_cons in Hp |- *.
    destruct (Ascii.eqb "." c) eqn:Ec; [|reflexivity]. cbn [andb] in Hp |- *.
    apply Ascii.eqb_eq in Ec. subst c.
    destruct F as [|d F]; [discriminate Heq|].
    rewrite str_app_cons. rewrite prefix_cons in Hp |- *.
    destruct (Ascii.eqb "." d) eqn:Ed; [|reflexivity]. cbn [andb] in Hp |- *.
    apply Ascii.eqb_eq in Ed. subst d.
    destruct F as [|e F]; [discriminate He|].
    rewrite str_app_cons. rewrite prefix_cons in Hp |- *.
    rewrite prefix_nil in *. rewrite andb_true_r in *. exact Hp. }
  rewrite Hp'. rewrite (IH Hc He). reflexivity.
Qed.

Lemma lstrip_bracket_head E :
  Str.startswith (Str.lstrip (Ascii.eqb "[") E) "]" = false ->
  Str.startswith E "]" = false.
Proof.
  destruct E as [|c E]; [reflexivity|]. cbn [Str.lstrip].
  destruct (Ascii.eqb "[" c) eqn:Ec.
  - apply Ascii.eqb_eq in Ec. subst c. intros _.
    unfold Str.startswith. now rewrite prefix_cons.
  - trivial.
Qed.

(** Rule (b): the text before the ellipsis is converted as an array
    element. *)
Lemma convert_variadic E :
  variadic_element E = true ->
  _convert_type_to_type_signature (E +:+ "...")
  = "[" +:+ _convert_type_to_type_signature E.
Proof.
  unfold variadic_element. rewrite !andb_true_iff, !negb_true_iff.
  intros [[Hc He] Hb].
  induction E as [|c E IH]; [reflexivity|].
  rewrite convert_unfold. rewrite str_app_cons.
  rewrite <- str_app_cons, endswith_dots, str_app_cons.
  unfold Str.startswith. rewrite prefix_cons, prefix_nil, andb_true_r.
  destruct (Ascii.eqb "[" c) eqn:Ec.
  - apply Ascii.eqb_eq in Ec. subst c.
    change (Str.drop 1 (String "[" (E +:+ "..."))) with (E +:+ "...").
    rewrite contains_unfold in Hc. rewrite endswith_unfold in He.
    destruct (String.prefix "..." (String "[" E)); [discriminate|].
    destruct (String.eqb (String "[" E) "."); [discriminate|].
    simpl in Hb.
    rewrite (IH Hc He Hb).
    change (String "[" E) with ("[" +:+ E).
    rewrite convert_array_prefix; [reflexivity|].
    now apply lstrip_bracket_head.
  - rewrite <- str_app_cons. rewrite (find_dots _ Hc He). rewrite take_app.
    reflexivity.
Qed.

(** C4. For a type name [T] (no type name begins with a closing bracket)
    the converter maps [T[]] and [[T] to ["["] followed by the conversion
    of [T]; the array rule comes first, so [String[][]] becomes
    [[[Ljava/lang/String;]; and for an element type [E] the variadic
    type [E...] is converted as an array of [E]. *)
Theorem convert_array_and_variadic_rules (T E : string) :
  Str.startswith T "]" = false ->
  variadic_element E = true ->
  _convert_type_to_type_signature (T +:+ "[]")
    = "[" +:+ _convert_type_to_type_signature T
  /\ _convert_type_to_type_signature ("[" +:+ T)
    = "[" +:+ _convert_type_to_type_signature T
  /\ _convert_type_to_type_signature "String[][]" = "[[Ljava/lang/String;"
  /\ _convert_type_to_type_signature (E +:+ "...")
    = "[" +:+ _convert_type_to_type_signature E.
Proof.
  intros HT HE. split; [apply convert_array_suffix|].
  split; [now apply convert_array_prefix|].
  split; [reflexivity|]. now apply convert_variadic.
Qed.

Lemma convert_array_and_variadic_rules_witness :
  Str.startswith "String[]" "]" = false
  /\ variadic_element "int[]" = true
  /\ _convert_type_to_type_signature ("String[]" +:+ "[]")
     = "[" +:+ _convert_type_to_type_signature "String[]"
  /\ _convert_type_to_type_signature ("[" +:+ "String[]")
     = "[" +:+ _convert_type_to_type_signature "String[]"
  /\ _convert_type_to_type_signature "String[][]" = "[[Ljava/lang/String;"
  /\ _convert_type_to_type_signature ("int[]" +:+ "...")
     = "[" +:+ _convert_type_to_type_signature "int[]".
Proof.
  split; [reflexivity|]. split; [reflexivity|].
  apply (convert_array_and_variadic_rules "String[]" "int[]"); reflexivity.
Defined.

(** The side condition on [T] only excludes strings that are not type
    names: on ["[" +:+ "]"] the array suffix rule, which is tried first,
    applies to the whole string. *)
Remark convert_bracket_pair :
  _convert_type_to_type_signature ("[" +:+ "]") = "["
  /\ "[" +:+ _convert_type_to_type_signature "]" = "[Ljava/lang/];".
Proof. split; vm_compute; reflexivity. Qed.

(** ** C6: when the descriptor conversion raises *)

Lemma contains_find sub s :
  Str.contains sub s = true -> exists i, Str.find sub s = Some i.
Proof.
  induction s as [|c s IH]; rewrite contains_unfold, find_unfold;
    destruct (String.prefix sub _); try discriminate; eauto.
  intros H. destruct (IH H) as [i ->]. simpl. eauto.
Qed.

Lemma contains_app sub a c : Str.contains sub (a +:+ sub +:+ c) = true.
Proof.
  induction a as [|x a IH]; rewrite contains_unfold.
  - now rewrite str_app_nil_l, prefix_app.
  - rewrite str_app_cons, IH. now destruct (String.prefix _ _).
Qed.

Lemma balanced_pair_contains d :
  has_balanced_pair d ->
  Str.contains "(" d = true /\ Str.contains ")" d = true.
Proof.
  intros (a & b & c & ->). split; [apply contains_app|].
  rewrite <- (str_app_assoc "(" b), <- str_app_assoc. apply contains_app.
Qed.

Lemma descriptor_raise_iff d :
  is_raise (descriptor_to_androguard_format d) = true
  <-> Str.contains "(" d = false \/ Str.contains ")" d = false.
Proof.
  unfold descriptor_to_androguard_format.
  destruct (Str.contains "(" d) eqn:Ho, (Str.contains ")" d) eqn:Hc; simpl;
    try (split; [intros _; auto | reflexivity]).
  destruct (contains_find _ _ Hc) as [i ->]. simpl.
  split; [discriminate | intros [?|?]; discriminate].
Qed.

(** C6, as the code has it. The conversion raises exactly when the
    descriptor has no opening parenthesis or no closing one, whatever
    their order; so every descriptor with a pair [( ... )] is converted;
    the function is pure, so nothing but the call is affected. *)
Theorem descriptor_raises_iff_parenthesis_missing (d : string) :
  (is_raise (descriptor_to_androguard_format d) = true
   <-> Str.contains "(" d = false \/ Str.contains ")" d = false)
  /\ (has_balanced_pair d ->
      is_raise (descriptor_to_androguard_format d) = false).
Proof.
  split; [apply descriptor_raise_iff|].
  intros H. apply balanced_pair_contains in H. destruct H as [Ho Hc].
  destruct (is_raise _) eqn:E; [|reflexivity].
  apply descriptor_raise_iff in E. destruct E; congruence.
Qed.

Lemma descriptor_raises_iff_parenthesis_missing_witness :
  has_balanced_pair "(I)V"
  /\ is_raise (descriptor_to_androguard_format "(I)V") = false.
Proof.
  assert (H : has_balanced_pair "(I)V") by (exists "", "I", "V"; reflexivity).
  split; [exact H|].
  exact (proj2 (descriptor_raises_iff_parenthesis_missing "(I)V") H).
Defined.

(** C6, as stated, fails: [")("] has no balanced pair, yet it is
    converted, to ["()("]. *)
Lemma descriptor_unbalanced_not_raised :
  ~ (is_raise (descriptor_to_androguard_format ")(") = true
     <-> ~ has_balanced_pair ")(").
Proof.
  intros [_ H].
  assert (Hn : ~ has_balanced_pair ")(").
  { intros (a & b & c & E).
    destruct a as [|x [|y [|z a]]]; try discriminate E.
    injection E as _ E. destruct b as [|? [|? ?]]; discriminate E. }
  specialize (H Hn). vm_compute in H. discriminate H.
Qed.

(** ** C3: identity of a method signature *)

Section Identity.

Variable str_hash : string -> Z.
Variable tuple_hash : list Z -> Z.

Local Abbreviation hash := (MethodObject_hash str_hash tuple_hash).
Local Abbreviation same := (same_key str_hash tuple_hash).
Local Abbreviation add := (set_add str_hash tuple_hash).

Lemma MethodObject_eq_iff a b :
  MethodObject_eq a b = true <-> compare_fields a = compare_fields b.
Proof.
  unfold MethodObject_eq, compare_fields.
  rewrite !andb_true_iff, !String.eqb_eq. split.
  - intros [[-> ->] ->]. reflexivity.
  - intros [= -> -> ->]. auto.
Qed.

Lemma MethodObject_hash_fields a b :
  compare_fields a = compare_fields b -> hash a = hash b.
Proof.
  unfold MethodObject_hash, compare_fields. intros [= -> -> ->]. reflexivity.
Qed.

Lemma same_key_fields a b x :
  compare_fields a = compare_fields b -> same a x = same b x.
Proof.
  intros H. unfold same_key, MethodObject_eq.
  rewrite (MethodObject_hash_fields a b H).
  unfold compare_fields in H. injection H as -> -> ->. reflexivity.
Qed.

Lemma same_key_refl a : same a a = true.
Proof.
  unfold same_key, MethodObject_eq.
  rewrite Z.eqb_refl, !String.eqb_refl. reflexivity.
Qed.

Lemma existsb_same a b s :
  compare_fields a = compare_fields b ->
  existsb (same b) s = existsb (same a) s.
Proof.
  intros H. induction s as [|x s IH]; [reflexivity|]. simpl.
  now rewrite IH, (same_key_fields a b x H).
Qed.

Lemma set_add_collapse a b s :
  compare_fields a = compare_fields b -> add b (add a s) = add a s.
Proof.
  intros H. unfold set_add at 2 3.
  destruct (existsb (same a) s) eqn:E; unfold set_add.
  - now rewrite (existsb_same a b s H), E.
  - rewrite existsb_app. simpl.
    rewrite <- (same_key_fields a b a H), same_key_refl.
    now rewrite orb_true_r.
Qed.

(** C3. Two method signatures with the same (class, name, descriptor)
    compare equal and hash equal whatever their access flags and backend
    handles are, equality holds for no other pair, and a set that has
    received one of them is unchanged by adding the other. *)
Theorem MethodObject_identity_is_the_triple (a b : MethodObject)
    (s : list MethodObject) :
  compare_fields a = compare_fields b ->
  MethodObject_eq a b = true
  /\ hash a = hash b
  /\ add b (add a s) = add a s
  /\ (forall x y, MethodObject_eq x y = true
                  <-> compare_fields x = compare_fields y).
Proof.
  intros H. split; [now apply MethodObject_eq_iff|].
  split; [now apply MethodObject_hash_fields|].
  split; [now apply set_add_collapse|]. apply MethodObject_eq_iff.
Qed.

End Identity.

Lemma MethodObject_identity_is_the_triple_witness :
  compare_fields sample_method_dex0 = compare_fields sample_method_dex1
  /\ sample_method_dex0 <> sample_method_dex1
  /\ set_update sample_str_hash sample_tuple_hash []
       [sample_method_dex0; sample_method_dex1] = [sample_method_dex0]
  /\ MethodObject_eq sample_method_dex0 sample_method_dex1 = true.
Proof.
  split; [reflexivity|]. split; [discriminate|]. split; [reflexivity|].
  exact (proj1 (MethodObject_identity_is_the_triple
                  sample_str_hash sample_tuple_hash
                  sample_method_dex0 sample_method_dex1 [] eq_refl)).
Defined.

(** ** C7: the prefixes [sym.] and [imp.] *)

Lemma drop_sym_imp_step s :
  drop_sym_imp s =
    if Str.startswith s "sym." || Str.startswith s "imp."
    then drop_sym_imp (Str.drop 4 s) else s.
Proof.
  rewrite drop_sym_imp_equation_1.
  destruct (inspect (Str.startswith s "sym." || Str.startswith s "imp."))
    as [[] e]; rhs_rewrite e; reflexivity.
Qed.


(** A repeated prefix is dropped as often as it occurs. *)
Lemma drop_sym_imp_repeated s :
  drop_sym_imp ("sym." +:+ s) = drop_sym_imp s
  /\ drop_sym_imp ("imp." +:+ s) = drop_sym_imp s.
Proof.
  split; rewrite drop_sym_imp_step; unfold Str.startswith;
    rewrite ?prefix_app, ?orb_true_r; reflexivity.
Qed.






(** ** C1: ranged register expressions *)

Ltac by_cases_on_char c :=
  destruct c as [[] [] [] [] [] [] [] []]; vm_compute;
  first [congruence | intuition congruence].

Lemma all_impl (p q : ascii -> bool) s :
  (forall c, p c = true -> q c = true) ->
  Str.all p s = true -> Str.all q s = true.
Proof.
  intros H. induction s as [|c s IH]; [reflexivity|]. simpl.
  rewrite !andb_true_iff. intros [Hc Hs]. auto.
Qed.

Lemma all_app p s t :
  Str.all p (s +:+ t) = Str.all p s && Str.all p t.
Proof.
  induction s as [|c s IH]; [reflexivity|]. rewrite str_app_cons. simpl.
  now rewrite IH, andb_assoc.
Qed.

Lemma uint_digits u : Str.all Chr.is_digit (NilEmpty.string_of_uint u) = true.
Proof. induction u; simpl; auto. Qed.

Lemma py_str_chars z : Str.all number_char (py_str z) = true.
Proof.
  assert (H : forall u, Str.all number_char (NilZero.string_of_uint u) = true).
  { intros u. unfold NilZero.string_of_uint.
    destruct u; try reflexivity;
      apply (all_impl Chr.is_digit); try apply uint_digits;
      intros c Hc; unfold number_char; now rewrite Hc. }
  unfold py_str, NilZero.string_of_int.
  destruct (Z.to_int z); [apply H|]. simpl. apply H.
Qed.

Ltac digit_value_compute :=
  unfold digit_value;
  match goal with
  | |- context [(Z.of_nat (Chr.code ?c) - 48)%Z] =>
      let v := eval vm_compute in (Z.of_nat (Chr.code c) - 48)%Z in
      change (Z.of_nat (Chr.code c) - 48)%Z with v
  end.

Lemma int_digits_acc u acc :
  int_digits (NilEmpty.string_of_uint u) (Z.pos acc) true
  = Some (Z.pos (Pos.of_uint_acc u acc)).
Proof.
  revert acc. induction u; intros acc; simpl; try reflexivity;
    digit_value_compute; rewrite <- IHu; f_equal; lia.
Qed.

Lemma int_digits_uint u after :
  (u = Decimal.Nil -> after = true) ->
  int_digits (NilEmpty.string_of_uint u) 0 after
  = Some (Z.of_N (Pos.of_uint u)).
Proof.
  revert after. induction u; intros after H; simpl;
    try (digit_value_compute; apply int_digits_acc).
  - now rewrite H.
  - digit_value_compute. now apply IHu.
Qed.

Lemma int_digits_nilzero u :
  int_digits (NilZero.string_of_uint u) 0 false
  = Some (Z.of_N (Pos.of_uint u)).
Proof.
  unfold NilZero.string_of_uint.
  destruct u; try reflexivity; apply int_digits_uint; discriminate.
Qed.

Lemma lstrip_head p c s : p c = false -> Str.lstrip p (String c s) = String c s.
Proof. intros H. simpl. now rewrite H. Qed.

Lemma rstrip_all p s :
  Str.all (fun c => negb (p c)) s = true -> Str.rstrip p s = s.
Proof.
  induction s as [|c s IH]; [reflexivity|]. simpl.
  rewrite andb_true_iff, negb_true_iff. intros [Hc Hs].
  rewrite (IH Hs). destruct s; [now rewrite Hc|reflexivity].
Qed.

Lemma lstrip_all p s :
  Str.all (fun c => negb (p c)) s = true -> Str.lstrip p s = s.
Proof.
  destruct s as [|c s]; [reflexivity|]. simpl.
  rewrite andb_true_iff, negb_true_iff. intros [-> _]. reflexivity.
Qed.

Lemma strip_all s :
  Str.all (fun c => negb (Chr.is_space c)) s = true -> strip s = s.
Proof.
  intros H. unfold strip. rewrite (lstrip_all _ _ H). now apply rstrip_all.
Qed.

Lemma number_not_space c : number_char c = true -> negb (Chr.is_space c) = true.
Proof. by_cases_on_char c. Qed.

Lemma nilzero_digits u :
  Str.all Chr.is_digit (NilZero.string_of_uint u) = true.
Proof.
  unfold NilZero.string_of_uint. destruct u; try reflexivity; apply uint_digits.
Qed.

Lemma digit_not_sign c :
  Chr.is_digit c = true -> Ascii.eqb c "+" = false /\ Ascii.eqb c "-" = false.
Proof. by_cases_on_char c. Qed.

Lemma count_digits_le s : (count_digits s <= String.length s)%nat.
Proof.
  induction s as [|c s IH]; simpl; [lia|]. destruct (Chr.is_digit c); lia.
Qed.

Lemma int_magnitude_within s :
  (String.length s <= int_max_str_digits)%nat ->
  int_magnitude s = int_digits s 0 false.
Proof.
  intros H. unfold int_magnitude.
  pose proof (count_digits_le s) as Hc.
  destruct (Nat.ltb_spec int_max_str_digits (count_digits s)); [lia|].
  reflexivity.
Qed.

Lemma py_int_py_str z :
  (String.length (py_str z) <= int_max_str_digits)%nat ->
  py_int (py_str z) = Some z.
Proof.
  intros Hlen. unfold py_int. rewrite strip_all;
    [|eapply all_impl; [apply number_not_space | apply py_str_chars]].
  revert Hlen. unfold py_str. rewrite <- (DecimalZ.of_to z) at 3.
  destruct (Z.to_int z) as [u|u]; cbn [NilZero.string_of_int]; intros Hlen.
  - pose proof (int_digits_nilzero u) as H.
    pose proof (nilzero_digits u) as Hd.
    rewrite <- (int_magnitude_within _ Hlen) in H.
    destruct (NilZero.string_of_uint u) as [|c s]; [discriminate H|].
    simpl in Hd. apply andb_true_iff in Hd. destruct Hd as [Hc _].
    destruct (digit_not_sign c Hc) as [-> ->]. exact H.
  - rewrite Ascii.eqb_refl. change (Ascii.eqb "-" "+") with false. cbv iota.
    rewrite int_magnitude_within by (simpl in Hlen; lia).
    rewrite int_digits_nilzero. simpl. unfold Z.of_uint.
    now destruct (Pos.of_uint u).
Qed.

Lemma span_app p s c t :
  Str.all p s = true -> p c = false ->
  Str.span p (s +:+ String c t) = (s, String c t).
Proof.
  intros Hs Hc. induction s as [|x s IH].
  - rewrite str_app_nil_l. simpl. now rewrite Hc.
  - rewrite str_app_cons. simpl in *. apply andb_true_iff in Hs.
    destruct Hs as [-> Hs]. now rewrite (IH Hs).
Qed.

Lemma split_maxsplit1_two mn c rest :
  mn <> "" ->
  Str.all (fun c => negb (Chr.is_space c)) mn = true ->
  Chr.is_space c = false ->
  split_maxsplit1 (mn +:+ " " +:+ String c rest) = [mn; String c rest].
Proof.
  intros Hne Hmn Hc. unfold split_maxsplit1.
  destruct mn as [|m mn]; [congruence|].
  pose proof Hmn as Hm. simpl in Hm. apply andb_true_iff in Hm.
  destruct Hm as [Hm _]. apply negb_true_iff in Hm.
  rewrite str_app_cons, (lstrip_head _ _ _ Hm), <- str_app_cons.
  change (" " +:+ String c rest) with (String " " (String c rest)).
  rewrite (span_app _ (String m mn) " " (String c rest) Hmn eq_refl).
  cbn [Str.lstrip].
  change (Chr.is_space " ") with true. cbv iota. now rewrite Hc.
Qed.

Lemma re_split_cons p b s : exists piece r, Str.re_split_aux p b s = piece :: r.
Proof.
  revert b. induction s as [|c s IH]; intros b; simpl; [eauto|].
  destruct (p c).
  - destruct b; [apply IH | eauto].
  - destruct (IH false) as (piece & r & ->). eauto.
Qed.

Lemma re_split_flag p b c s :
  p c = false ->
  Str.re_split_aux p b (String c s) = Str.re_split_aux p false (String c s).
Proof. intros H. simpl. now rewrite H. Qed.

Lemma re_split_run p body rest piece r :
  Str.all (fun c => negb (p c)) body = true ->
  Str.re_split_aux p false rest = piece :: r ->
  Str.re_split_aux p false (body +:+ rest) = (body +:+ piece) :: r.
Proof.
  intros Hb Hr. induction body as [|c body IH]; [exact Hr|].
  simpl in Hb. apply andb_true_iff in Hb. destruct Hb as [Hc Hb].
  apply negb_true_iff in Hc. rewrite !str_app_cons. simpl.
  now rewrite Hc, (IH Hb).
Qed.

Lemma re_split_end p body :
  Str.all (fun c => negb (p c)) body = true ->
  Str.re_split_aux p false body = [body].
Proof.
  intros Hb. rewrite <- (str_app_nil_r body) at 1.
  rewrite (re_split_run p body "" "" []); [|exact Hb|reflexivity].
  now rewrite str_app_nil_r.
Qed.



Lemma no_char_no_contains x t s :
  Str.all (fun c => negb (Ascii.eqb x c)) s = true ->
  Str.contains (String x t) s = false.
Proof.
  induction s as [|c s IH]; [reflexivity|]. simpl Str.all.
  rewrite andb_true_iff, negb_true_iff. intros [Hc Hs].
  rewrite contains_unfold, prefix_cons, Hc. simpl. auto.
Qed.

Lemma register_name_chars z :
  Str.all register_char (register_name z) = true.
Proof.
  unfold register_name. change ("v" +:+ py_str z) with (String "v" (py_str z)).
  cbn [Str.all]. change (register_char "v") with true. cbn [andb].
  eapply all_impl; [|apply py_str_chars].
  intros c Hc. unfold register_char. now rewrite Hc.
Qed.




Lemma py_range_length a b : length (py_range a b) = Z.to_nat (b - a).
Proof. unfold py_range. now rewrite length_map, length_seq. Qed.




(** ** Running computations *)

Lemma bind_run {A B} (m : M A) (f : A -> M B) st :
  (m ≫= f) st =
    match m st with
    | (Ok a, st') => f a st'
    | (Raise e, st') => (Raise e, st')
    end.
Proof. reflexivity. Qed.

Lemma ret_run {A} (a : A) st : (mret a : M A) st = (Ok a, st).
Proof. reflexivity. Qed.

Section Sends.

Context (P : nat * command -> Prop).

Lemma sends_only_ret {A} (a : A) : sends_only P (mret a : M A).
Proof.
  intros st. exists []. split; [|constructor].
  unfold appends. simpl. now rewrite List.app_nil_r.
Qed.

Lemma sends_only_raise {A} e : sends_only P (raise e : M A).
Proof.
  intros st. exists []. split; [|constructor].
  unfold appends. simpl. now rewrite List.app_nil_r.
Qed.

Lemma sends_only_lift {A} (r : result A) : sends_only P (lift r).
Proof.
  intros st. exists []. split; [|constructor].
  unfold appends. simpl. now rewrite List.app_nil_r.
Qed.

Lemma sends_only_send i c : P (i, c) -> sends_only P (send i c).
Proof.
  intros H st. exists [(i, c)]. split; [reflexivity|]. repeat constructor.
  exact H.
Qed.

Lemma sends_only_bind {A B} (m : M A) (f : A -> M B) :
  sends_only P m -> (forall a, sends_only P (f a)) -> sends_only P (m ≫= f).
Proof.
  intros Hm Hf st. destruct (Hm st) as (new1 & H1 & F1).
  unfold appends in *. rewrite bind_run.
  destruct (m st) as [[a|e] st1]; simpl in H1.
  - destruct (Hf a st1) as (new2 & H2 & F2). exists (new1 ++ new2).
    split; [|now apply Forall_app].
    unfold appends in H2. rewrite H2, H1. now rewrite List.app_assoc.
  - exists new1. split; assumption.
Qed.

Lemma sends_only_bind_ok {A B} (m : M A) (f : A -> M B) :
  sends_only P m ->
  (forall a st st', m st = (Ok a, st') -> sends_only P (f a)) ->
  sends_only P (m ≫= f).
Proof.
  intros Hm Hf st. destruct (Hm st) as (new1 & H1 & F1).
  unfold appends in *. rewrite bind_run.
  destruct (m st) as [[a|e] st1] eqn:E; simpl in H1.
  - destruct (Hf a st st1 E st1) as (new2 & H2 & F2). exists (new1 ++ new2).
    split; [|now apply Forall_app].
    unfold appends in H2. rewrite H2, H1. now rewrite List.app_assoc.
  - exists new1. split; assumption.
Qed.

Lemma sends_only_lru_cache {K V} same
    (get : state -> list (K * V)) (set : list (K * V) -> state -> state)
    (f : K -> M V) (k : K) :
  (forall c st, log (set c st) = log st) ->
  sends_only P (f k) -> sends_only P (lru_cache same get set f k).
Proof.
  intros Hset Hf st. unfold appends, lru_cache.
  destruct (Lru.lookup same k (get st)).
  - exists []. split; [|constructor]. simpl. now rewrite Hset, List.app_nil_r.
  - destruct (Hf st) as (new & H & F). unfold appends in H.
    exists new. split; [|exact F].
    destruct (f k st) as [[v|e] st1]; simpl in *; [now rewrite Hset|exact H].
Qed.

Lemma sends_only_for_each {A S} (xs : list A) (body : A -> S -> M S) acc :
  (forall x acc, sends_only P (body x acc)) ->
  sends_only P (for_each xs body acc).
Proof.
  intros Hb. revert acc. induction xs as [|x xs IH]; intros acc.
  - apply sends_only_ret.
  - simpl. apply sends_only_bind; [apply Hb|]. intros acc'. apply IH.
Qed.

Lemma sends_only_cmdj {A} dex_list rz c (answer : Dex -> A) :
  P (rz, c) -> sends_only P (cmdj dex_list rz c answer).
Proof.
  intros H. unfold cmdj. apply sends_only_bind; [now apply sends_only_send|].
  intros _. destruct (dex_list !! rz);
    [apply sends_only_ret | apply sends_only_raise].
Qed.

Lemma sends_only_get_rz dex_list index :
  P (index, Cmd_open) -> P (index, Cmd_aa) ->
  sends_only P (_get_rz dex_list index).
Proof.
  intros Ho Ha. unfold _get_rz.
  apply sends_only_bind; [|intros; apply sends_only_ret].
  apply sends_only_lru_cache; [reflexivity|].
  destruct (dex_list !! index); [|apply sends_only_raise].
  apply sends_only_bind; [|intros _]; now apply sends_only_send.
Qed.

End Sends.


(** A session is opened and analysed once the cache has it; either way
    the index comes back when the Dex file exists. *)
Lemma get_rz_run dex_list index d st :
  dex_list !! index = Some d ->
  exists st', _get_rz dex_list index st = (Ok index, st').
Proof.
  intros Hd. unfold _get_rz. rewrite bind_run. unfold lru_cache.
  destruct (Lru.lookup _ _ _); [eexists; reflexivity|].
  rewrite Hd. eexists; reflexivity.
Qed.

Lemma cmdj_run {A} dex_list rz d c (answer : Dex -> A) st :
  dex_list !! rz = Some d ->
  cmdj dex_list rz c answer st
  = (Ok (answer d), set_log (log st ++ [(rz, c)]) st).
Proof. intros Hd. unfold cmdj. rewrite bind_run. simpl. now rewrite Hd. Qed.

Lemma get_rz_result dex_list index st a st' :
  _get_rz dex_list index st = (Ok a, st') -> a = index.
Proof.
  unfold _get_rz. rewrite bind_run.
  destruct (lru_cache _ _ _ _ _ _) as [[[]|e] st1]; [|discriminate].
  now intros [= <- _].
Qed.

(** ** C10: address resolution always asks session 0 *)










(** A method of the second Dex file: its disassembly is asked of
    session 1, the symbols of its call targets of session 0. *)
Example lowerfunc_sessions :
  log (snd (lowerfunc sample_str_hash sample_tuple_hash sample_dex_list
                      sample_parent initial_state))
  = [ (1%nat, Cmd_open); (1%nat, Cmd_aa); (1%nat, Cmd_pdfj 1000);
      (0%nat, Cmd_open); (0%nat, Cmd_aa); (0%nat, Cmd_is_at 0);
      (0%nat, Cmd_is_at 0) ].
Proof. vm_compute. reflexivity. Qed.

(** ** C9: the evidence record of an imported parent *)

Lemma for_each_inv {A S} (I : S -> Prop) (xs : list A)
    (body : A -> S -> M S) :
  (forall x acc st acc' st',
      I acc -> body x acc st = (Ok acc', st') -> I acc') ->
  forall acc st acc' st',
    I acc -> for_each xs body acc st = (Ok acc', st') -> I acc'.
Proof.
  intros Hb. induction xs as [|x xs IH]; intros acc st acc' st' HI.
  - simpl. rewrite ret_run. now intros [= <- _].
  - simpl. rewrite bind_run.
    destruct (body x acc st) as [[acc1|e] st1] eqn:E; [|discriminate].
    intros H. eapply IH; [|exact H]. eapply Hb; eauto.
Qed.

Lemma sends_only_log_grows {A} (m : M A) st q :
  sends_only (fun _ => True) m -> In q (log st) -> In q (log (snd (m st))).
Proof.
  intros Hm Hq. destruct (Hm st) as (new & H & _). unfold appends in H.
  rewrite H. apply in_or_app. now left.
Qed.

Lemma evidence_keys_insert (r : gmap string evidence) k v :
  k ∈ evidence_keys -> dom r = evidence_keys ->
  dom (<[k := v]> r) = evidence_keys.
Proof. intros Hk Hr. rewrite dom_insert_L, Hr. set_solver. Qed.

Tactic Notation "bind_step" hyp(H) "as" ident(a) ident(st1) ident(E) :=
  rewrite bind_run in H;
  match type of H with
  | context [match ?m ?st with _ => _ end] =>
      match type of st with
      | state =>
          let e := fresh "e" in
          destruct (m st) as [[a|e] st1] eqn:E; [|discriminate H]
      end
  end.

Lemma wrapper_record_step (first_pat second_pat : string) (ins : Ins)
    (acc acc' : gmap string evidence * option string) st st' :
  dom (fst acc) = evidence_keys ->
  wrapper_scan first_pat second_pat ins acc st = (Ok acc', st') ->
  dom (fst acc') = evidence_keys.
Proof.
  destruct acc as [result istr], acc' as [result' istr'].
  unfold wrapper_scan. simpl fst. intros HI H.
  destruct (Str.startswith _ _);
    [|rewrite ret_run in H; now injection H as <- _ _].
  assert (exists text,
             match Str.rfind ";" (i_disasm ins) with
             | Some index => Some (Str.take index (i_disasm ins))
             | None => istr
             end = Some text) as [text Ht].
  { destruct (Str.rfind _ _); [eauto|].
    destruct istr; [eauto|discriminate H]. }
  rewrite Ht in H. cbv beta iota zeta in H.
  bind_step H as r1 st1 E1. bind_step H as r2 st2 E2.
  rewrite ret_run in H. injection H as <- _ _.
  assert (H1 : dom r1 = evidence_keys).
  { destruct (Str.contains first_pat text).
    - bind_step E1 as bc s1 B1. bind_step E1 as l s2 B2.
      rewrite ret_run in E1. injection E1 as <- _.
      repeat apply evidence_keys_insert; try exact HI;
        unfold evidence_keys; set_solver.
    - rewrite ret_run in E1. now injection E1 as <- _. }
  destruct (Str.contains second_pat text).
  - bind_step E2 as bc s1 B1. bind_step E2 as l s2 B2.
    rewrite ret_run in E2. injection E2 as <- _.
    repeat apply evidence_keys_insert; try exact H1;
      unfold evidence_keys; set_solver.
  - rewrite ret_run in E2. now injection E2 as <- _.
Qed.

Lemma wrapper_loop_sends (first_pat second_pat : string) ops acc :
  sends_only (fun _ => True)
    (for_each ops (wrapper_scan first_pat second_pat) acc).
Proof.
  apply sends_only_for_each. intros ins [result istr]. unfold wrapper_scan.
  destruct (Str.startswith _ _); [|apply sends_only_ret].
  cbv zeta.
  destruct (match Str.rfind ";" (i_disasm ins) with
            | Some index => Some (Str.take index (i_disasm ins))
            | None => istr
            end) as [text|]; [|apply sends_only_raise].
  apply sends_only_bind.
  { destruct (Str.contains _ _); [|apply sends_only_ret].
    apply sends_only_bind; [apply sends_only_lift|]. intros ?.
    apply sends_only_bind; [apply sends_only_lift|]. intros ?.
    apply sends_only_ret. }
  intros r1. apply sends_only_bind; [|intros; apply sends_only_ret].
  destruct (Str.contains _ _); [|apply sends_only_ret].
  apply sends_only_bind; [apply sends_only_lift|]. intros ?.
  apply sends_only_bind; [apply sends_only_lift|]. intros ?.
  apply sends_only_ret.
Qed.

Lemma initial_record_keys :
  dom ({[ "first" := EvNone; "first_hex" := EvNone;
          "second" := EvNone; "second_hex" := EvNone ]}
       : gmap string evidence) = evidence_keys.
Proof.
  unfold evidence_keys. rewrite !dom_insert_L, dom_singleton_L. set_solver.
Qed.

(** C9. For an imported parent the extractor returns the empty
    dictionary and leaves the sessions untouched: no command is sent.
    For any other parent a result, when there is one, has exactly the
    four evidence fields, and the disassembly query has been sent. *)
Theorem imported_parent_yields_empty_record
    (dex_list : list Dex) (parent first_method second_method : MethodObject)
    (c : RizinCache) (st : state) :
  cache parent = Some c ->
  (is_imported c = true ->
   get_wrapper_smali dex_list parent first_method second_method st
   = (Ok ∅, st))
  /\ (is_imported c = false ->
      forall r st',
        get_wrapper_smali dex_list parent first_method second_method st
        = (Ok r, st') ->
        dom r = evidence_keys
        /\ In (dexindex c, Cmd_pdfj (address c)) (log st')).
Proof.
  intros Hc. unfold get_wrapper_smali, cache_of. rewrite Hc.
  split; intros Hi; rewrite bind_run, ret_run, Hi; [reflexivity|].
  intros r st' H.
  bind_step H as rz st1 Erz. apply get_rz_result in Erz. subst rz.
  bind_step H as answer st2 Ecmd. unfold cmdj in Ecmd.
  bind_step Ecmd as u st3 Esend.
  destruct (dex_list !! dexindex c) as [d|]; [|discriminate Ecmd].
  rewrite ret_run in Ecmd. injection Ecmd as <- <-.
  injection Esend as _ <-.
  destruct (pdfj d (address c)) as [ops|]; [|discriminate H].
  bind_step H as acc st4 E. destruct acc as [r' istr]. rewrite ret_run in H.
  injection H as <- <-. split.
  - eapply (for_each_inv (fun acc => dom (fst acc) = evidence_keys)) in E;
      [exact E| |exact initial_record_keys].
    intros x acc s acc' s'. apply wrapper_record_step.
  - pose proof (wrapper_loop_sends (search_pattern first_method)
                  (search_pattern second_method) ops
                  ({[ "first" := EvNone; "first_hex" := EvNone;
                      "second" := EvNone; "second_hex" := EvNone ]}, None))
      as Hs.
    eapply sends_only_log_grows in Hs.
    + rewrite E in Hs. exact Hs.
    + simpl. apply in_or_app. right. now left.
Qed.

Lemma imported_parent_yields_empty_record_witness :
  cache sample_method_dex1
    = Some {| address := 520; dexindex := 1; is_imported := true |}
  /\ get_wrapper_smali sample_dex_list sample_method_dex1
       sample_FutureTask_get sample_method_dex0 initial_state
     = (Ok ∅, initial_state).
Proof.
  split; [reflexivity|].
  exact (proj1 (imported_parent_yields_empty_record sample_dex_list
                  sample_method_dex1 sample_FutureTask_get sample_method_dex0
                  _ initial_state eq_refl) eq_refl).
Defined.

(** ** C5: the pairs returned by [lowerfunc] *)







(** ** C2: how the wrapper evidence is matched *)













(** ** C8: how [find_method] matches *)

Lemma lru_lookup_remove_ne {V} (j k : nat) (c : list (nat * V)) :
  j <> k ->
  Lru.lookup Nat.eqb j (Lru.remove Nat.eqb k c) = Lru.lookup Nat.eqb j c.
Proof.
  intros Hne. induction c as [|[k' v] c IH]; [reflexivity|]. simpl.
  destruct (Nat.eqb k k') eqn:Ek.
  - apply Nat.eqb_eq in Ek. subst k'.
    apply Nat.eqb_neq in Hne. now rewrite Hne.
  - simpl. now rewrite IH.
Qed.

Lemma lru_lookup_touch_ne {V} (j k : nat) (v : V) c :
  j <> k ->
  Lru.lookup Nat.eqb j (Lru.touch Nat.eqb k v c) = Lru.lookup Nat.eqb j c.
Proof.
  intros Hne. unfold Lru.touch. simpl.
  pose proof Hne as Hb. apply Nat.eqb_neq in Hb. rewrite Hb.
  now apply lru_lookup_remove_ne.
Qed.

Lemma lru_lookup_update_ne {V} (j k : nat) (v : V) c :
  j <> k ->
  Lru.lookup Nat.eqb j (Lru.update Nat.eqb k v c) = Lru.lookup Nat.eqb j c.
Proof.
  intros Hne. induction c as [|[k' v'] c IH]; [reflexivity|]. simpl.
  destruct (Nat.eqb k k') eqn:Ek; simpl; [|now rewrite IH].
  apply Nat.eqb_eq in Ek. subst k'.
  apply Nat.eqb_neq in Hne. now rewrite Hne.
Qed.

Lemma defaultdict_get_bucket (d : MethodTable) key :
  fst (defaultdict_get d key) = bucket d key.
Proof. unfold defaultdict_get, bucket. now destruct (d !! key). Qed.

Section FindMethod.

Variable str_hash : string -> Z.
Variable tuple_hash : list Z -> Z.
Variable set_order : list MethodObject -> list MethodObject.
Variable dex_list : list Dex.







End FindMethod.




(** ** [quark.utils.tools.contains] *)

Section ContainsFacts.

Context {A : Type} `{EqDecision A}.
Implicit Types (subset target sub l kept rest tc : list A) (x y : A).

Lemma delete_foreign_step subset index l :
  delete_foreign subset index l =
    match l !! index with
    | None => Ok l
    | Some item =>
        if bool_decide (item ∈ subset)
        then delete_foreign subset (S index) l
        else match list_remove item l with
             | Some shorter => delete_foreign subset (S index) shorter
             | None => Raise (ValueError "list.remove(x): x not in list")
             end
    end.
Proof.
  rewrite delete_foreign_equation_1.
  destruct (inspect (l !! index)) as [[item|] e]; rhs_rewrite e;
    simp delete_foreign; [|reflexivity].
  destruct (inspect (bool_decide (item ∈ subset))) as [[] e1];
    rhs_rewrite e1; simp delete_foreign; [reflexivity|].
  destruct (inspect (list_remove item l)) as [[shorter|] e2];
    rhs_rewrite e2; simp delete_foreign; reflexivity.
Qed.

Lemma list_remove_split x l :
  x ∈ l ->
  exists l1 l2, l = l1 ++ (x :: l2) /\ (x ∉ l1)
                /\ list_remove x l = Some (l1 ++ l2).
Proof.
  induction l as [|y l IH]; intros Hx; [now apply elem_of_nil in Hx|].
  simpl. destruct (decide (y = x)) as [->|Hne].
  - exists [], l. split; [reflexivity|]. split; [apply not_elem_of_nil|].
    reflexivity.
  - apply elem_of_cons in Hx as [->|Hx]; [congruence|].
    destruct (IH Hx) as (l1 & l2 & -> & Hn & ->).
    exists (y :: l1), l2. split; [reflexivity|]. split; [|reflexivity].
    intros [?|?]%elem_of_cons; [congruence|contradiction].
Qed.

Lemma list_remove_sublist x l :
  x ∈ l -> exists l', list_remove x l = Some l' /\ sublist l' l.
Proof.
  intros (l1 & l2 & -> & _ & ->)%list_remove_split.
  eexists; split; [reflexivity|].
  apply sublist_app; [reflexivity|]. now apply sublist_cons.
Qed.

Lemma delete_foreign_ok subset index l :
  exists l', delete_foreign subset index l = Ok l' /\ sublist l' l.
Proof.
  remember (length l - index)%nat as n eqn:Hn.
  revert index l Hn.
  induction n as [n IH] using lt_wf_ind. intros index l ->.
  rewrite delete_foreign_step.
  destruct (l !! index) as [item|] eqn:Hl; [|now exists l].
  pose proof (lookup_lt_Some _ _ _ Hl) as Hlt.
  destruct (bool_decide (item ∈ subset)).
  - apply (IH (length l - S index)%nat); [lia|reflexivity].
  - destruct (list_remove_sublist item l) as (shorter & -> & Hsub).
    { eapply list_elem_of_lookup_2, Hl. }
    pose proof (sublist_length _ _ Hsub) as Hlen.
    destruct (IH (length shorter - S index)%nat ltac:(lia)
                 (S index) shorter eq_refl) as (l' & -> & Hl').
    exists l'. split; [reflexivity|]. now transitivity shorter.
Qed.

Lemma matches_at_run tc sub i n k :
  (k + n = length sub)%nat -> (i + length sub <= length tc)%nat ->
  matches_at tc sub i (seq k n)
  = Ok (bool_decide (take n (drop (i + k) tc) = drop k sub)).
Proof.
  revert k; induction n as [|n IH]; intros k Hk Hi; simpl.
  - rewrite take_0, (drop_ge sub k) by lia.
    now rewrite bool_decide_eq_true_2.
  - destruct (lookup_lt_is_Some_2 tc (i + k)) as [x Hx]; [lia|].
    destruct (lookup_lt_is_Some_2 sub k) as [y Hy]; [lia|].
    rewrite Hx, Hy.
    rewrite (drop_S _ _ _ Hx), (drop_S _ _ _ Hy). simpl.
    destruct (decide (x ≠ y)) as [Hne|He].
    + rewrite bool_decide_eq_false_2; [reflexivity|]. intros [=]. congruence.
    + apply dec_stable in He. subst y.
      rewrite (IH (S k)) by lia. f_equal.
      replace (i + S k)%nat with (S (i + k)) by lia.
      apply bool_decide_ext. split; [now intros ->|now intros [=]].
Qed.

Lemma first_match_from_run tc sub a m :
  (a + m + length sub <= length tc + 1)%nat -> (length sub <= length tc)%nat ->
  first_match_from tc sub (seq a m)
  = Ok (existsb (fun i => bool_decide (take (length sub) (drop i tc) = sub))
                (seq a m)).
Proof.
  revert a; induction m as [|m IH]; intros a Ha Hlen; simpl; [reflexivity|].
  rewrite (matches_at_run tc sub a (length sub) 0) by lia.
  rewrite Nat.add_0_r. simpl.
  destruct (bool_decide _); simpl; [reflexivity|].
  apply IH; lia.
Qed.

Lemma infix_take_drop sub l :
  infix_of sub l
  <-> exists i, (i + length sub <= length l)%nat
                /\ take (length sub) (drop i l) = sub.
Proof.
  split.
  - intros (l1 & l2 & ->). exists (length l1). split.
    + rewrite !length_app. lia.
    + rewrite drop_app_length. apply take_app_length.
  - intros (i & Hi & Ht). exists (take i l), (drop (length sub) (drop i l)).
    rewrite <- Ht at 1. now rewrite !take_drop.
Qed.

Lemma first_match_from_infix tc sub :
  exists b, first_match_from tc sub (seq 0 (length tc + 1 - length sub)) = Ok b
            /\ (b = true <-> infix_of sub tc).
Proof.
  destruct (le_lt_dec (length sub) (length tc)) as [Hle|Hgt].
  - rewrite first_match_from_run by lia. eexists; split; [reflexivity|].
    rewrite existsb_exists, infix_take_drop. split.
    + intros (i & Hi%in_seq & Hb%bool_decide_eq_true). exists i. split; [lia|done].
    + intros (i & Hi & Ht). exists i. split; [apply in_seq; lia|].
      now apply bool_decide_eq_true.
  - replace (length tc + 1 - length sub)%nat with 0%nat by lia.
    exists false. split; [reflexivity|]. split; [discriminate|].
    intros (l1 & l2 & ->). rewrite !length_app in Hgt. lia.
Qed.

(** What [contains] computes: the list left by the deleting loop is a
    subsequence of the target, and the answer tells whether the pattern
    is a block of it. *)
Lemma contains_run subset target :
  exists tc b,
    delete_foreign subset 0 target = Ok tc /\ sublist tc target
    /\ contains subset target = Ok b
    /\ (b = true <-> infix_of subset tc).
Proof.
  destruct (delete_foreign_ok subset 0 target) as (tc & Htc & Hsub).
  destruct (first_match_from_infix tc subset) as (b & Hb & Hiff).
  exists tc, b. unfold contains. rewrite Htc. simpl. auto.
Qed.

Lemma infix_sublist sub l : infix_of sub l -> sublist sub l.
Proof.
  intros (l1 & l2 & ->). apply sublist_inserts_l, sublist_inserts_r.
  reflexivity.
Qed.

(** With members only, the loop deletes nothing. *)
Lemma delete_foreign_members subset kept rest :
  Forall (fun x => x ∈ subset) rest ->
  delete_foreign subset (length kept) (kept ++ rest) = Ok (kept ++ rest).
Proof.
  revert kept; induction rest as [|x rest IH]; intros kept Hrest;
    rewrite delete_foreign_step.
  - rewrite lookup_ge_None_2; [reflexivity|]. rewrite length_app; simpl; lia.
  - rewrite list_lookup_middle by reflexivity.
    apply Forall_cons in Hrest as [Hx Hrest].
    rewrite bool_decide_eq_true_2 by exact Hx.
    specialize (IH (kept ++ [x]) Hrest).
    rewrite length_app, <- app_assoc in IH. simpl in IH.
    now rewrite Nat.add_1_r in IH.
Qed.

Lemma list_remove_middle x kept rest :
  x ∉ kept -> list_remove x (kept ++ x :: rest) = Some (kept ++ rest).
Proof.
  induction kept as [|y kept IH]; intros Hx; simpl.
  - now rewrite decide_True.
  - apply not_elem_of_cons in Hx as [Hne Hx].
    rewrite decide_False by congruence. now rewrite IH.
Qed.

Lemma members_not_foreign subset kept x :
  Forall (fun y => y ∈ subset) kept -> x ∉ subset -> x ∉ kept.
Proof.
  intros Hk Hx Hin. rewrite Forall_forall in Hk. apply Hx, Hk, Hin.
Qed.

(** The deleting loop passes over the item that follows a deleted
    one. *)
Lemma delete_foreign_skip subset kept x rest :
  Forall (fun y => y ∈ subset) kept -> x ∉ subset ->
  delete_foreign subset (length kept) (kept ++ x :: rest)
  = delete_foreign subset (S (length kept)) (kept ++ rest).
Proof.
  intros Hk Hx. rewrite delete_foreign_step.
  rewrite list_lookup_middle by reflexivity.
  rewrite bool_decide_eq_false_2 by exact Hx.
  rewrite list_remove_middle; [reflexivity|].
  eapply members_not_foreign; eauto.
Qed.

Lemma delete_foreign_filter subset n :
  forall kept rest,
    (length rest <= n)%nat ->
    Forall (fun y => y ∈ subset) kept ->
    no_adjacent_foreign subset rest = true ->
    delete_foreign subset (length kept) (kept ++ rest)
    = Ok (kept ++ filter (fun y => y ∈ subset) rest).
Proof.
  induction n as [|n IH]; intros kept rest Hn Hk Hadj.
  { destruct rest; [|simpl in Hn; lia].
    now rewrite (delete_foreign_members subset kept []). }
  destruct rest as [|x rest].
  { now rewrite (delete_foreign_members subset kept []). }
  destruct (decide (x ∈ subset)) as [Hx|Hx].
  - rewrite filter_cons_True by exact Hx.
    rewrite delete_foreign_step, list_lookup_middle by reflexivity.
    rewrite bool_decide_eq_true_2 by exact Hx.
    specialize (IH (kept ++ [x]) rest).
    rewrite length_app, <- app_assoc, Nat.add_1_r in IH. simpl in IH.
    rewrite IH; [now rewrite <- app_assoc| simpl in Hn; lia | |].
    + apply Forall_app; split; [exact Hk|]. now apply Forall_singleton.
    + destruct rest; [reflexivity|]. simpl in Hadj.
      now apply andb_true_iff in Hadj as [_ Hadj].
  - rewrite filter_cons_False by exact Hx.
    rewrite delete_foreign_skip by assumption.
    destruct rest as [|y rest].
    { rewrite delete_foreign_step, lookup_ge_None_2; [reflexivity|].
      rewrite app_nil_r. lia. }
    simpl in Hadj. apply andb_true_iff in Hadj as [Hxy Hadj].
    rewrite (bool_decide_eq_false_2 _ Hx) in Hxy. simpl in Hxy.
    apply bool_decide_eq_true in Hxy.
    rewrite filter_cons_True by exact Hxy.
    specialize (IH (kept ++ [y]) rest).
    rewrite length_app, <- app_assoc, Nat.add_1_r in IH. simpl in IH.
    rewrite IH; [now rewrite <- app_assoc| simpl in Hn; lia | |].
    + apply Forall_app; split; [exact Hk|]. now apply Forall_singleton.
    + destruct rest; [reflexivity|]. simpl in Hadj.
      now apply andb_true_iff in Hadj as [_ Hadj].
Qed.

(** A block without [y] lies in a list around [y] on one side of it. *)
Lemma infix_around sub l1 y l2 :
  y ∉ sub ->
  infix_of sub (l1 ++ y :: l2) <-> infix_of sub l1 \/ infix_of sub l2.
Proof.
  intros Hy. split.
  - intros (b & a & Heq).
    destruct (le_lt_dec (length (b ++ sub)) (length l1)) as [Hle|Hgt].
    + left. exists b, (drop (length (b ++ sub)) l1).
      rewrite app_assoc in Heq |- *.
      apply (f_equal (take (length (b ++ sub)))) in Heq.
      rewrite take_app_le, take_app_length in Heq by lia.
      rewrite <- Heq at 1. now rewrite take_drop.
    + destruct (le_lt_dec (length b) (length l1)) as [Hb|Hb].
      * exfalso. apply Hy.
        assert (Hlook : (b ++ sub ++ a) !! length l1 = Some y).
        { rewrite <- Heq. now apply list_lookup_middle. }
        rewrite lookup_app_r in Hlook by lia.
        rewrite length_app in Hgt.
        rewrite lookup_app_l in Hlook by lia.
        eapply list_elem_of_lookup_2, Hlook.
      * right. exists (drop (S (length l1)) b), a.
        apply (f_equal (drop (S (length l1)))) in Heq.
        rewrite drop_app_ge in Heq by lia.
        replace (S (length l1) - length l1)%nat with 1%nat in Heq by lia.
        simpl in Heq. rewrite drop_0 in Heq.
        rewrite Heq. rewrite drop_app_le by lia. reflexivity.
  - intros [(b & a & ->)|(b & a & ->)].
    + exists b, (a ++ y :: l2). now rewrite <- !app_assoc.
    + exists (l1 ++ y :: b), a. now rewrite <- !app_assoc.
Qed.

End ContainsFacts.

Section ContainsProperties.

Context {A : Type} `{EqDecision A}.
Implicit Types (subset target pre post : list A) (x y : A).

Lemma delete_foreign_advance subset kept members rest :
  Forall (fun y => y ∈ subset) members ->
  delete_foreign subset (length kept) (kept ++ members ++ rest)
  = delete_foreign subset (length (kept ++ members))
                   ((kept ++ members) ++ rest).
Proof.
  revert kept; induction members as [|m members IH]; intros kept Hm.
  - now rewrite !app_nil_r.
  - apply Forall_cons in Hm as [Hm Hms].
    rewrite delete_foreign_step. simpl.
    rewrite list_lookup_middle by reflexivity.
    rewrite bool_decide_eq_true_2 by exact Hm.
    specialize (IH (kept ++ [m]) Hms).
    rewrite length_app, Nat.add_1_r, <- !app_assoc in IH. simpl in IH.
    rewrite IH. now rewrite <- !app_assoc.
Qed.

Lemma delete_foreign_advance_0 subset members rest :
  Forall (fun y => y ∈ subset) members ->
  delete_foreign subset 0 (members ++ rest)
  = delete_foreign subset (length members) (members ++ rest).
Proof. intros Hm. exact (delete_foreign_advance subset [] members rest Hm). Qed.

Lemma contains_by_block subset target tc :
  delete_foreign subset 0 target = Ok tc ->
  contains subset target = Ok true <-> infix_of subset tc.
Proof.
  intros Htc. unfold contains. rewrite Htc. simpl.
  destruct (first_match_from_infix tc subset) as (b & -> & Hb).
  rewrite <- Hb. split; [now intros [= ->]|now intros ->].
Qed.

(** X1. [contains] never raises: deleting from the list that is being
    iterated over always finds the item to delete, and the index
    [i + j] of the comparison loop stays within the list. *)
Theorem contains_never_raises subset target :
  is_raise (contains subset target) = false.
Proof.
  destruct (contains_run subset target) as (tc & b & _ & _ & -> & _).
  reflexivity.
Qed.

(** X2. [contains] answers [True] only if the pattern occurs in the
    target in order (as a subsequence). *)
Theorem contains_true_is_subsequence subset target :
  contains subset target = Ok true -> sublist subset target.
Proof.
  intros Hc.
  destruct (contains_run subset target) as (tc & b & Htc & Hsub & _ & _).
  apply (contains_by_block _ _ _ Htc) in Hc.
  transitivity tc; [now apply infix_sublist|exact Hsub].
Qed.

(** X3. When no two neighbours of the target are both foreign to the
    pattern, the deleting loop removes exactly the foreign items, and
    [contains] tells whether the pattern is a block of what is left. *)
Theorem contains_is_block_of_filter subset target :
  no_adjacent_foreign subset target = true ->
  delete_foreign subset 0 target
    = Ok (filter (fun x => x ∈ subset) target)
  /\ (contains subset target = Ok true
      <-> infix_of subset (filter (fun x => x ∈ subset) target)).
Proof.
  intros Hadj.
  assert (Htc : delete_foreign subset 0 target
                = Ok (filter (fun x => x ∈ subset) target)).
  { apply (delete_foreign_filter subset (length target) [] target);
      [lia|constructor|exact Hadj]. }
  split; [exact Htc|]. now apply contains_by_block.
Qed.

(** X4. Of two adjacent foreign items the loop deletes the first and
    passes over the second, which stays in the list: around such a pair
    the pattern is found only if it lies wholly before or wholly after
    it, whereas a single foreign item is deleted and the pattern may lie
    across it. *)
Theorem contains_split_by_foreign_pair subset pre post x y :
  Forall (fun z => z ∈ subset) pre ->
  Forall (fun z => z ∈ subset) post ->
  x ∉ subset -> y ∉ subset ->
  (contains subset (pre ++ x :: y :: post) = Ok true
   <-> infix_of subset pre \/ infix_of subset post)
  /\ (contains subset (pre ++ x :: post) = Ok true
      <-> infix_of subset (pre ++ post)).
Proof.
  intros Hpre Hpost Hx Hy. split.
  - rewrite (contains_by_block subset _ (pre ++ y :: post)).
    + now apply infix_around.
    + rewrite (delete_foreign_advance_0 subset pre (x :: y :: post) Hpre).
      rewrite delete_foreign_skip by assumption.
      change (y :: post) with ([y] ++ post). rewrite app_assoc.
      replace (S (length pre)) with (length (pre ++ [y]))
        by (rewrite length_app; simpl; lia).
      now apply delete_foreign_members.
  - rewrite (contains_by_block subset _ (pre ++ post)); [reflexivity|].
    rewrite (delete_foreign_advance_0 subset pre (x :: post) Hpre).
    rewrite delete_foreign_skip by assumption.
    destruct post as [|p post].
    { rewrite delete_foreign_step, lookup_ge_None_2; [reflexivity|].
      rewrite app_nil_r. lia. }
    apply Forall_cons in Hpost as [Hp Hpost].
    change (p :: post) with ([p] ++ post). rewrite app_assoc.
    replace (S (length pre)) with (length (pre ++ [p]))
      by (rewrite length_app; simpl; lia).
    now apply delete_foreign_members.
Qed.

(** X5. The empty pattern is found in every target, and in the empty
    target nothing but the empty pattern is found. *)
Theorem contains_empty_lists subset target :
  contains [] target = Ok true
  /\ contains subset [] = Ok (bool_decide (subset = [])).
Proof.
  split.
  - destruct (contains_run [] target) as (tc & b & Htc & _ & _ & _).
    apply (contains_by_block _ _ _ Htc). now exists [], tc.
  - unfold contains. rewrite delete_foreign_step. simpl.
    destruct subset as [|s subset]; reflexivity.
Qed.

End ContainsProperties.

Lemma contains_true_is_subsequence_witness :
  sublist ["getCellLocation"; "sendTextMessage"]
          ["put"; "getCellLocation"; "query"; "sendTextMessage"].
Proof.
  apply (contains_true_is_subsequence
           ["getCellLocation"; "sendTextMessage"]
           ["put"; "getCellLocation"; "query"; "sendTextMessage"]).
  vm_compute. reflexivity.
Defined.

Lemma contains_is_block_of_filter_witness :
  delete_foreign ["getCellLocation"; "sendTextMessage"] 0
                 ["sendTextMessage"; "put"; "getCellLocation"; "query"]
  = Ok (filter (fun x => x ∈ ["getCellLocation"; "sendTextMessage"])
               ["sendTextMessage"; "put"; "getCellLocation"; "query"])
  /\ (contains ["getCellLocation"; "sendTextMessage"]
               ["sendTextMessage"; "put"; "getCellLocation"; "query"]
      = Ok true
      <-> infix_of ["getCellLocation"; "sendTextMessage"]
            (filter (fun x => x ∈ ["getCellLocation"; "sendTextMessage"])
               ["sendTextMessage"; "put"; "getCellLocation"; "query"])).
Proof.
  apply (contains_is_block_of_filter
           ["getCellLocation"; "sendTextMessage"]
           ["sendTextMessage"; "put"; "getCellLocation"; "query"]).
  vm_compute. reflexivity.
Defined.

Lemma contains_split_by_foreign_pair_witness :
  (contains ["a"; "b"] (["a"] ++ "x" :: "y" :: ["b"]) = Ok true
   <-> infix_of ["a"; "b"] ["a"] \/ infix_of ["a"; "b"] ["b"])
  /\ (contains ["a"; "b"] (["a"] ++ "x" :: ["b"]) = Ok true
      <-> infix_of ["a"; "b"] (["a"] ++ ["b"])).
Proof.
  apply (contains_split_by_foreign_pair ["a"; "b"] ["a"] ["b"] "x" "y").
  - repeat constructor.
  - repeat constructor.
  - intros H; repeat (apply elem_of_cons in H as [H|H]; [discriminate|]).
    now apply elem_of_nil in H.
  - intros H; repeat (apply elem_of_cons in H as [H|H]; [discriminate|]).
    now apply elem_of_nil in H.
Defined.

(** ** [RizinImp._escape_str_in_rizin_manner] *)

Lemma replace_char_map c d s :
  Str.replace_char c (String d "") s
  = map_chars (fun a => if Ascii.eqb a c then d else a) s.
Proof.
  induction s as [|a s IH]; [reflexivity|]. simpl. rewrite IH.
  destruct (Ascii.eqb a c); reflexivity.
Qed.

Lemma map_chars_compose f g s :
  map_chars g (map_chars f s) = map_chars (fun a => g (f a)) s.
Proof. induction s as [|a s IH]; [reflexivity|]. simpl. now rewrite IH. Qed.

Lemma map_chars_ext f g s :
  (forall a, f a = g a) -> map_chars f s = map_chars g s.
Proof.
  intros H. induction s as [|a s IH]; [reflexivity|]. simpl.
  now rewrite H, IH.
Qed.

Lemma map_chars_length f s : String.length (map_chars f s) = String.length s.
Proof. induction s as [|a s IH]; [reflexivity|]. simpl. now rewrite IH. Qed.

Lemma escape_as_map raw_str :
  _escape_str_in_rizin_manner raw_str
  = map_chars (fun a => if rizin_special a then "_"%char else a) raw_str.
Proof.
  unfold _escape_str_in_rizin_manner, RIZIN_ESCAPE_CHAR_LIST. simpl.
  rewrite !replace_char_map, !map_chars_compose.
  apply map_chars_ext. intros a. by_cases_on_char a.
Qed.

(** X6. Escaping replaces each of [<], [>] and [$] by an underscore and
    keeps every other character in its place: the result has the same
    length and none of the three characters, a text is returned as it is
    exactly when it has none of them, and escaping twice is escaping
    once. *)
Theorem escape_replaces_special_characters (raw_str : string) :
  String.length (_escape_str_in_rizin_manner raw_str) = String.length raw_str
  /\ (forall n,
         String.get n (_escape_str_in_rizin_manner raw_str)
         = option_map (fun a => if rizin_special a then "_"%char else a)
                      (String.get n raw_str))
  /\ rizin_plain (_escape_str_in_rizin_manner raw_str) = true
  /\ (_escape_str_in_rizin_manner raw_str = raw_str
      <-> rizin_plain raw_str = true)
  /\ _escape_str_in_rizin_manner (_escape_str_in_rizin_manner raw_str)
     = _escape_str_in_rizin_manner raw_str.
Proof.
  assert (Hplain : forall s,
             rizin_plain s = true -> _escape_str_in_rizin_manner s = s).
  { intros s. rewrite escape_as_map. unfold rizin_plain.
    induction s as [|a s IH]; [reflexivity|]. simpl.
    rewrite andb_true_iff, negb_true_iff. intros [-> Hs]. now rewrite IH. }
  assert (Hout : forall s,
             rizin_plain (_escape_str_in_rizin_manner s) = true).
  { intros s. rewrite escape_as_map. unfold rizin_plain.
    induction s as [|a s IH]; [reflexivity|]. simpl. rewrite IH.
    rewrite andb_true_r. by_cases_on_char a. }
  split; [rewrite escape_as_map; apply map_chars_length|].
  split.
  { intros n. rewrite escape_as_map. revert n.
    induction raw_str as [|a s IH]; intros n; [reflexivity|].
    destruct n; simpl; [reflexivity|apply IH]. }
  split; [apply Hout|]. split; [|apply Hplain, Hout].
  split; [|apply Hplain]. intros He. rewrite <- He. apply Hout.
Qed.

(** ** [RizinImp._parse_method_from_isj_obj] *)






Lemma join_brackets_head c s :
  Ascii.eqb c "[" = false ->
  exists t, Re.join_brackets (String c s) = String c t.
Proof.
  intros Hc. destruct s as [|b s]; simpl; [eauto|].
  rewrite Hc. simpl. eauto.
Qed.

Lemma descriptor_result_head d r :
  descriptor_to_androguard_format d = Ok r -> Str.startswith r "(" = true.
Proof.
  unfold descriptor_to_androguard_format.
  destruct (negb _ || negb _); [discriminate|].
  destruct (Str.find ")" d); [|discriminate]. cbv zeta. intros [= <-].
  unfold Str.startswith.
  match goal with
  | |- context [match ?x with _ => _ end] => destruct x
  end; [reflexivity|].
  now rewrite prefix_cons, prefix_nil.
Qed.

Ltac isj_cases H :=
  repeat match type of H with
         | context [match ?x with _ => _ end] =>
             destruct x eqn:?; try discriminate H
         | context [if ?x then _ else _] =>
             destruct x eqn:?; try discriminate H
         end.



(** X8. A method object that the parser returns comes from a record of
    type [FUNC] or [METH]; its cache holds the record's [vaddr], the Dex
    index the parser was called with and the record's [is_imported]; its
    access flags are unset; its descriptor begins with an opening
    parenthesis; and its name is the record's [realname], unless the
    flag is [sym.imp.clone], for which the name, the class and the
    descriptor are fixed. *)
Theorem parsed_method_records_its_origin
    (json_obj : isj_obj) (dexindex : nat) (m : MethodObject) :
  _parse_method_from_isj_obj json_obj dexindex = Ok (Some m) ->
  (j_type json_obj = Some "FUNC" \/ j_type json_obj = Some "METH")
  /\ (exists vaddr imported,
         j_vaddr json_obj = Some vaddr
         /\ j_is_imported json_obj = Some imported
         /\ cache m = Some {| address := vaddr; dexindex := dexindex;
                              is_imported := imported |})
  /\ access_flags m = None
  /\ Str.startswith (descriptor m) "(" = true
  /\ (j_flagname json_obj = Some "sym.imp.clone"
      /\ compare_fields m = ("", "clone", "()Ljava/lang/Object;")
      \/ j_flagname json_obj <> Some "sym.imp.clone"
         /\ j_realname json_obj = Some (name m)).
Proof.
  unfold _parse_method_from_isj_obj, mbind, result_bind, field.
  intros H.
  assert (Htype : j_type json_obj = Some "FUNC"
                  \/ j_type json_obj = Some "METH").
  { destruct (j_type json_obj) as [kind|]; simpl in H; [|discriminate].
    destruct (String.eqb kind "FUNC") eqn:E1;
      [apply String.eqb_eq in E1; subst; now left|].
    destruct (String.eqb kind "METH") eqn:E2;
      [apply String.eqb_eq in E2; subst; now right|].
    simpl in H. discriminate. }
  split; [exact Htype|]. clear Htype.
  destruct (negb _); [discriminate|].
  destruct (j_name json_obj) as [full|]; [|discriminate].
  destruct (Re.paren_signature full) as [raw|]; [|discriminate].
  match type of H with
  | match ?conv with _ => _ end = _ => destruct conv as [text|]
  end; [|discriminate].
  destruct (descriptor_to_androguard_format text) as [r|] eqn:Hr;
    [|discriminate].
  apply descriptor_result_head in Hr.
  destruct (j_realname json_obj); [|discriminate].
  destruct (j_is_imported json_obj); [|discriminate].
  destruct (j_flagname json_obj) as [flag|]; [|discriminate].
  destruct (j_vaddr json_obj); [|isj_cases H].
  destruct (String.eqb_spec flag "sym.imp.clone") as [->|Hflag].
  - injection H as <-. cbn.
    split; [eauto|]. split; [reflexivity|]. split; [reflexivity|].
    left. split; reflexivity.
  - destruct (last_opt _); [|discriminate]. injection H as <-. cbn.
    split; [eauto|]. split; [reflexivity|]. split; [exact Hr|].
    right. split; [congruence|reflexivity].
Qed.

Lemma parsed_method_records_its_origin_witness :
  (j_type sample_isj_FutureTask_get = Some "FUNC"
   \/ j_type sample_isj_FutureTask_get = Some "METH")
  /\ (exists vaddr imported,
         j_vaddr sample_isj_FutureTask_get = Some vaddr
         /\ j_is_imported sample_isj_FutureTask_get = Some imported
         /\ cache sample_FutureTask_get
            = Some {| address := vaddr; dexindex := 0;
                      is_imported := imported |})
  /\ access_flags sample_FutureTask_get = None
  /\ Str.startswith (descriptor sample_FutureTask_get) "(" = true
  /\ (j_flagname sample_isj_FutureTask_get = Some "sym.imp.clone"
      /\ compare_fields sample_FutureTask_get
         = ("", "clone", "()Ljava/lang/Object;")
      \/ j_flagname sample_isj_FutureTask_get <> Some "sym.imp.clone"
         /\ j_realname sample_isj_FutureTask_get
            = Some (name sample_FutureTask_get)).
Proof.
  apply (parsed_method_records_its_origin sample_isj_FutureTask_get 0).
  reflexivity.
Defined.

(** ** [RizinImp._parse_smali]: operands *)

Local Abbreviation sep_char := (Chr.among "{},").
Local Abbreviation args_of text :=
  (map strip (filter (fun arg => nonempty arg = true)
                     (Str.re_split sep_char text))).

Lemma re_split_space p s piece r :
  p " "%char = false ->
  Str.re_split_aux p false s = piece :: r ->
  forall b, Str.re_split_aux p b (String " " s) = String " " piece :: r.
Proof. intros Hp Hs b. simpl. now rewrite Hp, Hs. Qed.

Lemma re_split_sep p b c s :
  p c = true ->
  Str.re_split_aux p b (String c s)
  = (if b then [] else [""]) ++ Str.re_split_aux p true s.
Proof. intros Hp. simpl. rewrite Hp. now destruct b. Qed.

Lemma re_split_join ts t rest R :
  Forall (fun t => Str.all (fun c => negb (sep_char c)) t = true) (t :: ts) ->
  Str.re_split_aux sep_char false rest = "" :: R ->
  Str.re_split_aux sep_char false (Str.join ", " (t :: ts) +:+ rest)
  = t :: map (String " ") ts ++ R.
Proof.
  revert t; induction ts as [|u ts IH]; intros t Hts Hrest.
  - apply Forall_cons in Hts as [Ht _]. cbn [Str.join map app].
    rewrite (re_split_run _ t rest "" R Ht Hrest). now rewrite str_app_nil_r.
  - apply Forall_cons in Hts as [Ht Hts].
    change (Str.join ", " (t :: u :: ts))
      with (t +:+ ", " +:+ Str.join ", " (u :: ts)).
    rewrite !str_app_assoc.
    rewrite (re_split_run _ t _ "" (String " " u :: map (String " ") ts ++ R) Ht).
    + now rewrite str_app_nil_r.
    + rewrite str_app_cons. cbn [Str.re_split_aux].
      change (sep_char ",") with true. cbv iota. f_equal.
      rewrite str_app_cons, str_app_nil_l.
      apply re_split_space; [reflexivity|]. now apply IH.
Qed.

Lemma strip_space t : strip (String " " t) = strip t.
Proof. reflexivity. Qed.

Lemma operand_parts t :
  operand t = true ->
  t <> "" /\ Str.all (fun c => negb (sep_char c)) t = true /\ strip t = t.
Proof.
  unfold operand. rewrite !andb_true_iff. intros [[Hn Ha] Hs].
  split; [intros ->; discriminate|]. split; [exact Ha|].
  now apply String.eqb_eq.
Qed.

Lemma operand_head t :
  operand t = true ->
  exists c rest, t = String c rest /\ Chr.is_space c = false
                 /\ sep_char c = false.
Proof.
  intros H. destruct (operand_parts t H) as (Hne & Ha & Hs).
  destruct t as [|c rest]; [congruence|]. exists c, rest.
  split; [reflexivity|]. split.
  - destruct (Chr.is_space c) eqn:Hc; [|reflexivity].
    unfold strip in Hs. simpl in Hs. rewrite Hc in Hs.
    assert (Hlen : forall p s, (String.length (Str.lstrip p s)
                                <= String.length s)%nat).
    { intros p s. induction s as [|x s IH]; simpl; [lia|].
      destruct (p x); simpl; lia. }
    assert (Hlen' : forall p s, (String.length (Str.rstrip p s)
                                 <= String.length s)%nat).
    { intros p s. induction s as [|x s IH]; simpl; [lia|].
      destruct (Str.rstrip p s); [destruct (p x)|]; simpl in *; lia. }
    apply (f_equal String.length) in Hs. simpl in Hs.
    pose proof (Hlen' Chr.is_space (Str.lstrip Chr.is_space rest)).
    pose proof (Hlen Chr.is_space rest). lia.
  - simpl in Ha. apply andb_true_iff in Ha as [Hc _].
    now apply negb_true_iff in Hc.
Qed.

Lemma register_operand z : operand (register_name z) = true.
Proof.
  unfold operand. rewrite !andb_true_iff. split; [split|].
  - reflexivity.
  - eapply all_impl; [|apply register_name_chars]. intros c. by_cases_on_char c.
  - apply String.eqb_eq, strip_all.
    eapply all_impl; [|apply register_name_chars]. intros c. by_cases_on_char c.
Qed.

Lemma strip_operands ts :
  Forall (fun t => operand t = true) ts ->
  map strip (map (String " ") ts) = ts.
Proof.
  induction 1 as [|t ts Ht _ IH]; [reflexivity|]. simpl map.
  rewrite strip_space, IH. f_equal. now apply operand_parts.
Qed.

Lemma filter_operands (f : string -> string) ts :
  Forall (fun t => nonempty (f t) = true) ts ->
  filter (fun arg => nonempty arg = true) (map f ts) = map f ts.
Proof.
  induction 1 as [|t ts Ht _ IH]; [reflexivity|]. simpl map.
  now rewrite filter_cons, decide_True, IH.
Qed.

(** The tokens of an operand text in the plain layout. *)
Lemma plain_args t ts :
  Forall (fun t => operand t = true) (t :: ts) ->
  args_of (Str.join ", " (t :: ts)) = t :: ts.
Proof.
  intros Hts. unfold Str.re_split.
  rewrite <- (str_app_nil_r (Str.join ", " (t :: ts))).
  rewrite (re_split_join ts t "" []); [|
    eapply Forall_impl; [exact Hts|]; intros x Hx; now apply operand_parts
    | reflexivity].
  rewrite app_nil_r. apply Forall_cons in Hts as [Ht Hts].
  rewrite filter_cons, decide_True
    by (destruct (operand_head t Ht) as (c & r & -> & _); reflexivity).
  rewrite filter_operands by (eapply Forall_impl; [exact Hts|]; reflexivity).
  cbn [map]. rewrite strip_operands by exact Hts.
  destruct (operand_parts _ Ht) as (_ & _ & ->). reflexivity.
Qed.

(** The tokens of an operand text in the braced layout. *)
Lemma braced_args regs p :
  Forall (fun t => operand t = true) regs -> operand p = true ->
  args_of ("{" +:+ Str.join ", " regs +:+ "}, " +:+ p) = regs ++ [p].
Proof.
  intros Hregs Hp. unfold Str.re_split.
  destruct (operand_parts p Hp) as (Hpne & Hpa & Hps).
  assert (Htail : forall b,
             Str.re_split_aux sep_char b ("}, " +:+ p)
             = (if b then [] else [""]) ++ [String " " p]).
  { intros b. rewrite !str_app_cons, str_app_nil_l.
    rewrite (re_split_sep _ b "}") by reflexivity.
    rewrite (re_split_sep _ true ",") by reflexivity. cbn [app].
    now rewrite (re_split_space sep_char p p [] eq_refl
                                (re_split_end _ _ Hpa)). }
  rewrite str_app_cons, str_app_nil_l.
  rewrite (re_split_sep _ false "{") by reflexivity. cbn [app].
  destruct regs as [|r regs].
  - cbn [Str.join]. rewrite str_app_nil_l, (Htail true). cbn [app].
    rewrite filter_cons, decide_False by (now intros [=]).
    rewrite filter_cons, decide_True by reflexivity.
    rewrite filter_nil. cbn [map]. now rewrite strip_space, Hps.
  - pose proof Hregs as Hall. apply Forall_cons in Hregs as [Hr Hregs].
    destruct (operand_head r Hr) as (c & body & -> & _ & Hc).
    change (Str.join ", " (String c body :: regs))
      with (Str.join ", " (String c body :: regs)).
    assert (Hflag : forall rest,
               Str.re_split_aux sep_char true
                 (Str.join ", " (String c body :: regs) +:+ rest)
               = Str.re_split_aux sep_char false
                   (Str.join ", " (String c body :: regs) +:+ rest)).
    { intros rest. destruct regs; cbn [Str.join];
        rewrite !str_app_cons; now apply re_split_flag. }
    rewrite Hflag.
    rewrite (re_split_join regs (String c body) _ [String " " p]); [| |
      apply (Htail false)].
    2: { eapply Forall_impl; [exact Hall|]. intros x Hx.
         now apply operand_parts. }
    rewrite filter_cons, decide_False by (now intros [=]).
    rewrite filter_cons, decide_True by reflexivity.
    rewrite filter_app.
    rewrite filter_operands by (eapply Forall_impl; [exact Hregs|]; reflexivity).
    rewrite filter_cons, decide_True by reflexivity. rewrite filter_nil.
    cbn [map]. rewrite map_app, strip_operands by exact Hregs.
    cbn [map]. rewrite strip_space, Hps.
    destruct (operand_parts _ Hr) as (_ & _ & ->). reflexivity.
Qed.

Lemma register_indices_names zs :
  Forall within_digit_limit zs ->
  register_indices (map register_name zs) = Some zs.
Proof.
  unfold register_indices.
  induction 1 as [|z zs Hz _ IH]; [reflexivity|]. cbn [map map_opt].
  change (Str.drop 1 (register_name z)) with (py_str z).
  now rewrite (py_int_py_str z Hz), IH.
Qed.

Lemma register_name_not_ranged z :
  Str.contains ":" (register_name z) || Str.contains ".." (register_name z)
  = false.
Proof.
  rewrite !no_char_no_contains; [reflexivity| |];
    (eapply all_impl; [|apply register_name_chars]); intros c;
    by_cases_on_char c.
Qed.

Lemma register_name_head z : Str.startswith (register_name z) "v" = true.
Proof. unfold Str.startswith, register_name. rewrite str_app_cons. now rewrite prefix_cons, prefix_nil. Qed.

Lemma operand_text_args braced zs p :
  operand p = true ->
  args_of (operand_text braced (map register_name zs) p)
  = map register_name zs ++ [p].
Proof.
  intros Hp.
  assert (Hregs : Forall (fun t => operand t = true) (map register_name zs)).
  { apply Forall_map, Forall_forall. intros z _. apply register_operand. }
  destruct braced; cbn [operand_text]; [now apply braced_args|].
  destruct zs as [|z zs]; cbn [map app] in *.
  - apply (plain_args p []). now constructor.
  - apply (plain_args (register_name z) (map register_name zs ++ [p])).
    apply Forall_cons in Hregs as [Hz Hregs]. constructor; [exact Hz|].
    apply Forall_app. split; [exact Hregs|]. now constructor.
Qed.

Lemma operand_text_head braced zs p :
  operand p = true ->
  exists c rest,
    operand_text braced (map register_name zs) p = String c rest
    /\ Chr.is_space c = false.
Proof.
  intros Hp. destruct braced; cbn [operand_text].
  - eexists _, _. rewrite str_app_cons. split; reflexivity.
  - destruct zs as [|z zs]; cbn [map app].
    + destruct (operand_head p Hp) as (c & rest & -> & Hc & _).
      exists c, rest. split; [reflexivity|exact Hc].
    + destruct (map register_name zs ++ [p]) eqn:E.
      { destruct (map register_name zs); discriminate E. }
      cbn [Str.join]. unfold register_name.
      rewrite !str_app_cons. eexists _, _. split; reflexivity.
Qed.

Lemma join_register_head z ts :
  exists rest, Str.join ", " (register_name z :: ts) = String "v" rest.
Proof.
  unfold register_name. destruct ts; cbn [Str.join];
    rewrite !str_app_cons; eauto.
Qed.

Ltac parse_smali_line mn c rest Hne Hmn Hc :=
  unfold _parse_smali;
  replace (String.eqb (mn +:+ " " +:+ String c rest) "")
    with false by (destruct mn; [congruence|reflexivity]);
  rewrite contains_app; cbn [negb];
  rewrite (split_maxsplit1_two mn c rest Hne Hmn Hc).

(** X9. A line made of a mnemonic, registers and a final parameter
    that does not begin with [v], in the braced layout of the invoke
    instructions or in the plain one, is parsed into exactly these: the
    registers in order, and the parameter, in which the first dot is
    replaced by an arrow when the mnemonic begins with [invoke] and
    which is kept as it is otherwise. *)
Theorem parse_smali_registers_and_parameter
    (braced : bool) (mn : string) (zs : list Z) (p : string) :
  mn <> "" ->
  Str.all (fun c => negb (Chr.is_space c)) mn = true ->
  Forall within_digit_limit zs ->
  operand p = true ->
  Str.startswith p "v" = false ->
  _parse_smali (mn +:+ " " +:+ operand_text braced (map register_name zs) p)
  = Ok {| mnemonic := mn;
          registers := Some (map register_name zs);
          parameter :=
            Some (if Str.startswith mn "invoke"
                  then Str.replace_first_char "." "->" p else p) |}.
Proof.
  intros Hne Hmn Hzs Hp Hv.
  destruct (operand_text_head braced zs p Hp) as (c & rest & Htext & Hc).
  pose proof (operand_text_args braced zs p Hp) as Hargs.
  rewrite Htext in *.
  parse_smali_line mn c rest Hne Hmn Hc.
  rewrite Hargs. unfold last_opt. rewrite last_snoc. rewrite Hv.
  cbn [negb]. cbv beta iota zeta. unfold but_last. rewrite removelast_last.
  rewrite (register_indices_names zs Hzs).
  destruct zs as [|z [|z' zs]]; cbn [map]; try reflexivity.
  rewrite register_name_not_ranged. reflexivity.
Qed.

(** X10. An operand that begins with [v] is always read as a register:
    a line whose operands are all registers has no parameter, and a line
    that ends in an operand beginning with [v] whose remainder is not an
    integer raises [ValueError], whatever the operand was meant to be. *)
Theorem parse_smali_reads_v_as_register
    (mn : string) (z : Z) (zs : list Z) (p : string) :
  mn <> "" ->
  Str.all (fun c => negb (Chr.is_space c)) mn = true ->
  Forall within_digit_limit (z :: zs) ->
  operand p = true ->
  Str.startswith p "v" = true ->
  py_int (Str.drop 1 p) = None ->
  _parse_smali (mn +:+ " " +:+ Str.join ", " (map register_name (z :: zs)))
  = Ok {| mnemonic := mn;
          registers := Some (map register_name (z :: zs));
          parameter := None |}
  /\ _parse_smali
         (mn +:+ " " +:+ Str.join ", " (map register_name (z :: zs) ++ [p]))
     = Raise (ValueError
                ("Cannot parse bytecode. Unknown smali "
                   +:+ (mn +:+ " "
                           +:+ Str.join ", " (map register_name (z :: zs) ++ [p]))
                   +:+ ".")).
Proof.
  intros Hne Hmn Hzs Hp Hv Hint.
  assert (Hregs : Forall (fun t => operand t = true)
                         (map register_name (z :: zs))).
  { apply Forall_map, Forall_forall. intros x _. apply register_operand. }
  split.
  - pose proof (plain_args (register_name z) (map register_name zs) Hregs)
      as Hargs.
    destruct (join_register_head z (map register_name zs)) as (rest & Htext).
    rewrite Htext in Hargs. cbn [map]. rewrite Htext.
    parse_smali_line mn "v"%char rest Hne Hmn (@eq_refl bool false).
    rewrite Hargs.
    assert (Hlast : exists y, last_opt (register_name z :: map register_name zs)
                              = Some (register_name y)).
    { unfold last_opt. change (register_name z :: map register_name zs)
        with (map register_name (z :: zs)).
      rewrite fmap_last.
      destruct (last (z :: zs)) as [y|] eqn:E; [now exists y|].
      now apply last_None in E. }
    destruct Hlast as [y ->]. rewrite register_name_head.
    cbn [negb]. cbv beta iota zeta.
    change (register_name z :: map register_name zs)
      with (map register_name (z :: zs)).
    rewrite (register_indices_names _ Hzs).
    destruct zs as [|z' zs]; cbn [map]; [|reflexivity].
    rewrite register_name_not_ranged. reflexivity.
  - assert (Hall : Forall (fun t => operand t = true)
                          (register_name z :: (map register_name zs ++ [p]))).
    { apply Forall_cons in Hregs as [Hz Hregs]. constructor; [exact Hz|].
      apply Forall_app. split; [exact Hregs|]. now constructor. }
    pose proof (plain_args _ _ Hall) as Hargs.
    destruct (join_register_head z (map register_name zs ++ [p]))
      as (rest & Htext).
    rewrite Htext in Hargs. cbn [map app]. rewrite Htext.
    parse_smali_line mn "v"%char rest Hne Hmn (@eq_refl bool false).
    rewrite Hargs.
    change (register_name z :: map register_name zs ++ [p])
      with (map register_name (z :: zs) ++ [p]).
    unfold last_opt. rewrite last_snoc, Hv. cbn [negb]. cbv beta iota zeta.
    assert (Hnone : register_indices (map register_name (z :: zs) ++ [p])
                    = None).
    { unfold register_indices. clear -Hzs Hint.
      induction Hzs as [|y ys Hy _ IH]; cbn [map app map_opt].
      - now rewrite Hint.
      - change (Str.drop 1 (register_name y)) with (py_str y).
        rewrite (py_int_py_str y Hy). now rewrite IH. }
    rewrite Hnone.
    destruct (map register_name zs ++ [p]) eqn:E;
      [destruct (map register_name zs); discriminate E|].
    cbn [map app]. rewrite E. reflexivity.
Qed.




Lemma parse_smali_registers_and_parameter_witness :
  _parse_smali
    ("invoke-virtual" +:+ " "
       +:+ operand_text true (map register_name [1; 2]%Z)
             "Ljava/lang/String.concat(Ljava/lang/String;)Ljava/lang/String; ; 0x10")
  = Ok {| mnemonic := "invoke-virtual";
          registers := Some (map register_name [1; 2]%Z);
          parameter :=
            Some (if Str.startswith "invoke-virtual" "invoke"
                  then Str.replace_first_char "." "->"
                         "Ljava/lang/String.concat(Ljava/lang/String;)Ljava/lang/String; ; 0x10"
                  else "Ljava/lang/String.concat(Ljava/lang/String;)Ljava/lang/String; ; 0x10") |}.
Proof.
  apply (parse_smali_registers_and_parameter true "invoke-virtual" [1; 2]%Z).
  - discriminate.
  - reflexivity.
  - repeat (apply List.Forall_cons; [vm_compute; lia|]). apply List.Forall_nil.
  - reflexivity.
  - reflexivity.
Defined.

Lemma parse_smali_reads_v_as_register_witness :
  _parse_smali ("move" +:+ " " +:+ Str.join ", " (map register_name [0; 1]%Z))
  = Ok {| mnemonic := "move";
          registers := Some (map register_name [0; 1]%Z);
          parameter := None |}
  /\ _parse_smali
         ("move" +:+ " "
            +:+ Str.join ", " (map register_name [0; 1]%Z ++ ["void"]))
     = Raise (ValueError
                ("Cannot parse bytecode. Unknown smali "
                   +:+ ("move" +:+ " "
                           +:+ Str.join ", " (map register_name [0; 1]%Z ++ ["void"]))
                   +:+ ".")).
Proof.
  apply (parse_smali_reads_v_as_register "move" 0 [1]%Z "void").
  - discriminate.
  - reflexivity.
  - repeat (apply List.Forall_cons; [vm_compute; lia|]). apply List.Forall_nil.
  - reflexivity.
  - reflexivity.
  - reflexivity.
Defined.


(** ** [quark.utils.tools.descriptor_to_androguard_format] on JVM
    descriptors *)

Ltac str_norm :=
  repeat (rewrite str_app_assoc || rewrite str_app_cons
          || rewrite str_app_nil_l).

Lemma join_brackets_other c s :
  Ascii.eqb c "[" = false ->
  Re.join_brackets (String c s) = String c (Re.join_brackets s).
Proof. intros Hc. destruct s as [|b s]; simpl; [reflexivity|]. now rewrite Hc. Qed.

Lemma join_brackets_merge s :
  Re.join_brackets (String "[" (String " " s)) = String "[" (Re.join_brackets s).
Proof. reflexivity. Qed.

Lemma join_brackets_before b s c :
  Ascii.eqb b " " = false ->
  Re.join_brackets (String c (String b s))
  = String c (Re.join_brackets (String b s)).
Proof.
  intros Hb. destruct s; simpl; rewrite Hb, andb_false_r; reflexivity.
Qed.

Lemma join_brackets_run w b s :
  Str.all (fun c => negb (Ascii.eqb c " ")) w = true ->
  Ascii.eqb b " " = false ->
  Re.join_brackets (w +:+ String b s) = w +:+ Re.join_brackets (String b s).
Proof.
  intros Hw Hb. induction w as [|c w IH]; [now rewrite !str_app_nil_l|].
  simpl in Hw. apply andb_true_iff in Hw as [_ Hw].
  specialize (IH Hw). rewrite !str_app_cons.
  destruct w as [|d w].
  - rewrite !str_app_nil_l in *. now apply join_brackets_before.
  - rewrite str_app_cons in IH |- *. rewrite join_brackets_before.
    + now rewrite IH, str_app_cons.
    + simpl in Hw. apply andb_true_iff in Hw as [Hd _].
      now apply negb_true_iff in Hd.
Qed.

Lemma join_brackets_none s :
  Str.contains "[ " s = false -> Re.join_brackets s = s.
Proof.
  induction s as [|a s IH]; [reflexivity|].
  rewrite contains_unfold.
  destruct (String.prefix "[ " (String a s)) eqn:Hp; [discriminate|].
  intros Hs. specialize (IH Hs). destruct s as [|b s]; [reflexivity|].
  destruct (Ascii.eqb b " ") eqn:Hb.
  - rewrite join_brackets_other, IH; [reflexivity|].
    apply Ascii.eqb_eq in Hb. subst b.
    destruct (Ascii.eqb_spec a "[") as [->|]; [|reflexivity].
    rewrite !prefix_cons, prefix_nil in Hp. discriminate.
  - rewrite (join_brackets_before _ _ _ Hb). now rewrite IH.
Qed.

(** The shape of a field type. *)
Lemma field_type_shape t :
  field_type t = true ->
  exists c rest,
    t = String c rest
    /\ (c = "["%char /\ field_type rest = true
        \/ Chr.among "ZBCSIJFD" c = true /\ rest = ""
        \/ c = "L"%char
           /\ exists b name, rest = String b name +:+ ";"
                /\ Str.all class_name_char (String b name) = true).
Proof.
  destruct t as [|c rest]; [discriminate|]. cbn [field_type].
  intros H. exists c, rest. split; [reflexivity|].
  destruct (Ascii.eqb_spec c "[") as [->|Hb]; [left; auto|].
  destruct (Ascii.eqb_spec c "L") as [->|HL].
  - right; right. split; [reflexivity|].
    destruct (Str.span class_name_char rest) as [name tail] eqn:Hspan.
    apply andb_true_iff in H as [Hn Ht]. apply String.eqb_eq in Ht. subst tail.
    assert (Hsp : forall s n tl, Str.span class_name_char s = (n, tl) ->
                    s = n +:+ tl /\ Str.all class_name_char n = true).
    { induction s as [|x s IH]; simpl; intros n tl.
      - intros [= <- <-]. auto.
      - destruct (class_name_char x) eqn:Hx.
        + destruct (Str.span class_name_char s) as [n' tl'].
          intros [= <- <-]. destruct (IH _ _ eq_refl) as [-> Hn'].
          rewrite str_app_cons. simpl. now rewrite Hx.
        + intros [= <- <-]. auto. }
    destruct (Hsp _ _ _ Hspan) as [-> Hall].
    destruct name as [|b name]; [discriminate|]. eauto.
  - right; left. apply andb_true_iff in H as [Hc Hr].
    apply String.eqb_eq in Hr. auto.
Qed.

Lemma tokens_skip x rest :
  Re.descriptor_tokens (String.length x) (x +:+ rest)
  = Re.descriptor_tokens 0 rest.
Proof.
  induction x as [|c x IH]; [now rewrite str_app_nil_l; destruct rest|].
  rewrite str_app_cons. simpl. exact IH.
Qed.

Lemma upto_semicolon_name name rest :
  Str.all class_name_char name = true ->
  Re.upto_semicolon (name +:+ ";" +:+ rest) = Some (name +:+ ";").
Proof.
  induction name as [|c name IH]; intros Hn.
  - now rewrite !str_app_nil_l.
  - simpl in Hn. apply andb_true_iff in Hn as [Hc Hn].
    rewrite (str_app_cons c name (";" +:+ rest)), (str_app_cons c name ";").
    cbn [Re.upto_semicolon].
    assert (Ascii.eqb c ";" = false /\ Ascii.eqb c Chr.newline = false)
      as [-> ->].
    { revert Hc. unfold class_name_char. by_cases_on_char c. }
    now rewrite (IH Hn).
Qed.

Lemma descriptor_token_single c s :
  Ascii.eqb c "L" = false ->
  Chr.among "ZBCSIJFD" c || Ascii.eqb c "[" = true ->
  Re.descriptor_token (String c s) = Some (String c "").
Proof.
  intros HL Hc. unfold Re.descriptor_token. rewrite HL. cbn [andb].
  destruct s; now rewrite Hc.
Qed.

Lemma descriptor_token_none c s :
  Ascii.eqb c "L" = false ->
  Chr.among "ZBCSIJFD" c || Ascii.eqb c "[" = false ->
  Re.descriptor_token (String c s) = None.
Proof.
  intros HL Hc. unfold Re.descriptor_token. rewrite HL. cbn [andb].
  destruct s; now rewrite Hc.
Qed.

(** The tokens that the regular expression finds in a field type, and
    how the scan goes on after it. *)
Lemma tokens_of_field_type t :
  field_type t = true ->
  forall rest,
    Re.descriptor_tokens 0 (t +:+ rest)
    = type_tokens t ++ Re.descriptor_tokens 0 rest.
Proof.
  induction t as [|c t IH]; [discriminate|]. intros Ht rest.
  destruct (field_type_shape _ Ht) as (c' & r' & [= <- <-] & Hshape).
  destruct Hshape as [[-> Hrest] | [[Hc ->] | [-> (b & name & -> & Hname)]]].
  - rewrite str_app_cons. cbn [type_tokens Re.descriptor_tokens].
    rewrite (descriptor_token_single "[") by reflexivity.
    change (Ascii.eqb "[" "[") with true. cbv iota.
    cbn [String.length Nat.sub app]. f_equal. now apply IH.
  - rewrite str_app_cons, str_app_nil_l. cbn [type_tokens].
    assert (Hb : Ascii.eqb c "[" = false) by (revert Hc; by_cases_on_char c).
    rewrite Hb. cbn [Re.descriptor_tokens app].
    rewrite (descriptor_token_single c);
      [|revert Hc; by_cases_on_char c|now rewrite Hc]. cbn [String.length Nat.sub]. f_equal.
  - cbn [type_tokens]. change (Ascii.eqb "L" "[") with false. cbv iota.
    rewrite !str_app_cons, str_app_assoc. cbn [Re.descriptor_tokens app].
    assert (Htok : Re.descriptor_token
                     (String "L" (String b (name +:+ ";" +:+ rest)))
                   = Some (String "L" (String b (name +:+ ";")))).
    { unfold Re.descriptor_token. simpl in Hname.
      apply andb_true_iff in Hname as [Hb Hname].
      assert (Ascii.eqb b Chr.newline = false) as ->
        by (revert Hb; unfold class_name_char; by_cases_on_char b).
      change (Ascii.eqb "L" "L") with true. cbn [andb negb].
      now rewrite (upto_semicolon_name name rest Hname). }
    rewrite Htok. f_equal.
    cbn [String.length Nat.sub].
    rewrite <- str_app_assoc. apply tokens_skip.
Qed.

Lemma join_cons sep t u ts :
  Str.join sep (t :: u :: ts) = t +:+ sep +:+ Str.join sep (u :: ts).
Proof. reflexivity. Qed.

Lemma tokens_of_descriptor ts :
  Forall (fun t => field_type t = true) ts ->
  Re.descriptor_tokens 0 ("(" +:+ Str.join "" ts)
  = flat_map type_tokens ts.
Proof.
  intros Hts. rewrite str_app_cons, str_app_nil_l.
  cbn [Re.descriptor_tokens]. 
  rewrite (descriptor_token_none "(") by reflexivity.
  induction Hts as [|t ts Ht Hts IH]; [reflexivity|].
  destruct ts as [|u ts].
  - cbn [Str.join flat_map]. rewrite <- (str_app_nil_r t) at 1.
    now rewrite (tokens_of_field_type t Ht "").
  - rewrite join_cons, str_app_nil_l. cbn [flat_map] in *.
    now rewrite (tokens_of_field_type t Ht), IH.
Qed.

Lemma type_tokens_nonempty t : field_type t = true -> type_tokens t <> [].
Proof.
  destruct t as [|c t]; [discriminate|]. intros _. cbn [type_tokens].
  now destruct (Ascii.eqb c "[").
Qed.

Lemma join_more sep t toks :
  toks <> [] -> Str.join sep (t :: toks) = t +:+ sep +:+ Str.join sep toks.
Proof. destruct toks; [congruence|reflexivity]. Qed.

Lemma all_cons p a s : Str.all p (String a s) = p a && Str.all p s.
Proof. reflexivity. Qed.

Lemma field_type_no_space t :
  field_type t = true ->
  Str.all (fun c => negb (Ascii.eqb c " ")) t = true
  /\ Str.all (fun c => negb (Ascii.eqb c ")")) t = true.
Proof.
  induction t as [|c t IH]; [discriminate|]. intros Ht.
  destruct (field_type_shape _ Ht) as (c' & r' & [= <- <-] & Hshape).
  destruct Hshape as [[-> Hrest] | [[Hc ->] | [-> (b & name & -> & Hname)]]].
  - destruct (IH Hrest) as [H1 H2]. cbn [Str.all]. now rewrite H1, H2.
  - cbn [Str.all]. split; rewrite andb_true_r; revert Hc; by_cases_on_char c.
  - rewrite !(all_cons _ "L"), !all_app.
    assert (H1 : Str.all (fun c => negb (Ascii.eqb c " ")) (String b name)
                 = true)
      by (eapply all_impl; [|exact Hname]; intros x; unfold class_name_char;
          by_cases_on_char x).
    assert (H2 : Str.all (fun c => negb (Ascii.eqb c ")")) (String b name)
                 = true)
      by (eapply all_impl; [|exact Hname]; intros x; unfold class_name_char;
          by_cases_on_char x).
    rewrite H1, H2. split; reflexivity.
Qed.

(** What the bracket merging makes of the tokens of a field type when
    they are the last ones. *)
Lemma merged_last_type t :
  field_type t = true ->
  forall tail,
    Re.join_brackets (Str.join " " (type_tokens t) +:+ tail)
    = t +:+ Re.join_brackets tail.
Proof.
  induction t as [|c t IH]; [discriminate|]. intros Ht tail.
  destruct (field_type_shape _ Ht) as (c' & r' & [= <- <-] & Hshape).
  destruct Hshape as [[-> Hrest] | [[Hc ->] | [-> (b & name & -> & Hname)]]].
  - cbn [type_tokens]. change (Ascii.eqb "[" "[") with true. cbv iota.
    rewrite join_more by now apply type_tokens_nonempty.
    rewrite !str_app_assoc, (str_app_cons "["), str_app_nil_l.
    rewrite (str_app_cons " "), str_app_nil_l, join_brackets_merge.
    now rewrite (IH Hrest), str_app_cons.
  - cbn [type_tokens].
    assert (Hb : Ascii.eqb c "[" = false) by (revert Hc; by_cases_on_char c).
    rewrite Hb. cbn [Str.join]. rewrite !str_app_cons, !str_app_nil_l.
    now apply join_brackets_other.
  - cbn [type_tokens]. change (Ascii.eqb "L" "[") with false. cbv iota.
    cbn [Str.join].
    destruct (field_type_no_space _ Ht) as [Hsp _].
    rewrite <- (str_app_cons "L" (String b name) ";") in Hsp |- *.
    rewrite all_app in Hsp. apply andb_true_iff in Hsp as [Hw _].
    rewrite !str_app_assoc. rewrite (str_app_cons ";"), str_app_nil_l.
    rewrite join_brackets_run by (exact Hw || reflexivity).
    now rewrite join_brackets_other.
Qed.

(** The same when more tokens follow. *)
Lemma merged_type t :
  field_type t = true ->
  forall toks tail,
    toks <> [] ->
    Re.join_brackets (Str.join " " (type_tokens t ++ toks) +:+ tail)
    = t +:+ " " +:+ Re.join_brackets (Str.join " " toks +:+ tail).
Proof.
  induction t as [|c t IH]; [discriminate|]. intros Ht toks tail Htoks.
  destruct (field_type_shape _ Ht) as (c' & r' & [= <- <-] & Hshape).
  destruct Hshape as [[-> Hrest] | [[Hc ->] | [-> (b & name & -> & Hname)]]].
  - cbn [type_tokens]. change (Ascii.eqb "[" "[") with true. cbv iota.
    cbn [app]. rewrite join_more.
    2: { pose proof (type_tokens_nonempty t Hrest).
         destruct (type_tokens t); [congruence|discriminate]. }
    rewrite !str_app_assoc, (str_app_cons "["), str_app_nil_l.
    rewrite (str_app_cons " "), str_app_nil_l, join_brackets_merge.
    now rewrite (IH Hrest), str_app_cons.
  - cbn [type_tokens].
    assert (Hb : Ascii.eqb c "[" = false) by (revert Hc; by_cases_on_char c).
    rewrite Hb. cbn [app]. rewrite join_more by exact Htoks.
    str_norm. rewrite join_brackets_other by exact Hb.
    now rewrite join_brackets_other.
  - cbn [type_tokens]. change (Ascii.eqb "L" "[") with false. cbv iota.
    cbn [app]. rewrite join_more by exact Htoks.
    destruct (field_type_no_space _ Ht) as [Hsp _].
    rewrite <- (str_app_cons "L" (String b name) ";") in Hsp |- *.
    rewrite all_app in Hsp. apply andb_true_iff in Hsp as [Hw _].
    rewrite !str_app_assoc. rewrite (str_app_cons ";"), str_app_nil_l.
    rewrite join_brackets_run by (exact Hw || reflexivity).
    rewrite join_brackets_other by reflexivity.
    rewrite (str_app_cons " "), str_app_nil_l.
    now rewrite join_brackets_other.
Qed.

Lemma merged_types ts tail :
  Forall (fun t => field_type t = true) ts ->
  Re.join_brackets (Str.join " " (flat_map type_tokens ts) +:+ tail)
  = Str.join " " ts +:+ Re.join_brackets tail.
Proof.
  induction 1 as [|t ts Ht Hts IH]; [reflexivity|].
  cbn [flat_map]. destruct ts as [|u ts].
  - cbn [flat_map Str.join]. rewrite app_nil_r. now apply merged_last_type.
  - rewrite merged_type; [|exact Ht|].
    + rewrite IH. rewrite join_cons. now rewrite !str_app_assoc.
    + apply Forall_cons in Hts as [Hu _]. cbn [flat_map].
      pose proof (type_tokens_nonempty u Hu).
      destruct (type_tokens u); [congruence|discriminate].
Qed.

Lemma find_char c pre rest :
  Str.all (fun x => negb (Ascii.eqb x c)) pre = true ->
  Str.find (String c "") (pre +:+ String c rest) = Some (String.length pre).
Proof.
  induction pre as [|x pre IH]; intros Hp; rewrite find_unfold.
  - now rewrite str_app_nil_l, prefix_cons, Ascii.eqb_refl, prefix_nil.
  - simpl in Hp. apply andb_true_iff in Hp as [Hx Hp].
    apply negb_true_iff in Hx. rewrite str_app_cons, prefix_cons.
    rewrite Ascii.eqb_sym, Hx. cbn [andb]. now rewrite (IH Hp).
Qed.

Lemma joined_types_no_paren ts :
  Forall (fun t => field_type t = true) ts ->
  Str.all (fun c => negb (Ascii.eqb c ")")) (Str.join "" ts) = true.
Proof.
  induction 1 as [|t ts Ht Hts IH]; [reflexivity|].
  destruct ts as [|u ts]; [now apply field_type_no_space|].
  rewrite join_cons, str_app_nil_l, all_app, IH.
  now destruct (field_type_no_space t Ht) as [_ ->].
Qed.

(** X12. On a JVM method descriptor, whose parameter list is a
    sequence of field types, the conversion separates the parameter
    types by single spaces and changes nothing else. *)
Theorem descriptor_separates_parameter_types (ts : list string) (ret : string) :
  Forall (fun t => field_type t = true) ts ->
  Str.contains "[ " ret = false ->
  descriptor_to_androguard_format ("(" +:+ Str.join "" ts +:+ ")" +:+ ret)
  = Ok ("(" +:+ Str.join " " ts +:+ ")" +:+ ret).
Proof.
  intros Hts Hret.
  assert (Ho : Str.contains "(" ("(" +:+ Str.join "" ts +:+ ")" +:+ ret)
               = true) by apply (contains_app "(" "").
  assert (Hc : Str.contains ")" ("(" +:+ Str.join "" ts +:+ ")" +:+ ret)
               = true)
    by (rewrite <- (str_app_assoc "(" (Str.join "" ts)); apply contains_app).
  assert (Hd : "(" +:+ Str.join "" ts +:+ ")" +:+ ret
               = ("(" +:+ Str.join "" ts) +:+ String ")" ret)
    by now rewrite str_app_assoc.
  assert (Hf : Str.find ")" ("(" +:+ Str.join "" ts +:+ ")" +:+ ret)
               = Some (String.length ("(" +:+ Str.join "" ts))).
  { rewrite Hd. apply find_char. rewrite str_app_cons, str_app_nil_l.
    rewrite all_cons. now rewrite joined_types_no_paren. }
  unfold descriptor_to_androguard_format. rewrite Ho, Hc, Hf. cbn [negb orb].
  cbv zeta. rewrite Hd, take_app, drop_app, (tokens_of_descriptor ts Hts).
  f_equal. rewrite (str_app_cons "("), str_app_nil_l.
  rewrite join_brackets_other by reflexivity.
  rewrite (merged_types ts _ Hts).
  rewrite join_brackets_other by reflexivity.
  rewrite (join_brackets_none _ Hret). now str_norm.
Qed.

Lemma descriptor_separates_parameter_types_witness :
  descriptor_to_androguard_format
    ("(" +:+ Str.join "" ["I"; "Ljava/lang/String;"; "[[B"] +:+ ")" +:+ "V")
  = Ok ("(" +:+ Str.join " " ["I"; "Ljava/lang/String;"; "[[B"] +:+ ")" +:+ "V").
Proof.
  apply (descriptor_separates_parameter_types
           ["I"; "Ljava/lang/String;"; "[[B"] "V").
  - repeat constructor.
  - reflexivity.
Defined.

(** ** Sessions and memoized results *)

Lemma lru_lookup_head {K V} (same : K -> K -> bool) k k' (v : V) c :
  same k' k = true -> Lru.lookup same k' ((k, v) :: c) = Some v.
Proof. intros H. simpl. now rewrite H. Qed.

Lemma lru_lookup_store {K V} (same : K -> K -> bool) k k' (v : V) c :
  same k' k = true -> Lru.lookup same k' (Lru.store k v c) = Some v.
Proof. intros H. unfold Lru.store. cbn [Lru.maxsize firstn]. now apply lru_lookup_head. Qed.

Lemma lru_lookup_touch {K V} (same : K -> K -> bool) k k' (v : V) c :
  same k' k = true -> Lru.lookup same k' (Lru.touch same k v c) = Some v.
Proof. intros H. unfold Lru.touch. now apply lru_lookup_head. Qed.

(** A result that [lru_cache] has just returned is returned again, for
    every key that the cache takes for the same one, without running the
    function. *)
Lemma lru_cache_again {K V} (same : K -> K -> bool)
    (get : state -> list (K * V)) (set : list (K * V) -> state -> state)
    (f : K -> M V) k k' v st st1 :
  (forall c st, get (set c st) = c) ->
  same k' k = true ->
  lru_cache same get set f k st = (Ok v, st1) ->
  lru_cache same get set f k' st1
  = (Ok v, set (Lru.touch same k' v (get st1)) st1).
Proof.
  intros Hget Hsame. unfold lru_cache.
  destruct (Lru.lookup same k (get st)) as [v0|] eqn:E.
  - intros [= <- <-]. rewrite Hget.
    now rewrite (lru_lookup_touch same k k' v0 _ Hsame).
  - destruct (f k st) as [[v1|e] st'] eqn:Ef; [|discriminate].
    intros [= <- <-]. rewrite Hget.
    now rewrite (lru_lookup_store same k k' v1 _ Hsame).
Qed.

Lemma same_key_of_eq str_hash tuple_hash a b :
  MethodObject_eq a b = true -> same_key str_hash tuple_hash b a = true.
Proof.
  intros H. apply MethodObject_eq_iff in H.
  rewrite <- (same_key_fields str_hash tuple_hash a b a H).
  apply same_key_refl.
Qed.

(** X13. The first use of a Dex file opens and analyses its session,
    and the next use of the same file sends nothing; an index beyond the
    Dex files raises [IndexError] before anything is sent, and leaves
    the state as it was. *)
Theorem get_rz_opens_a_session_once
    (dex_list : list Dex) (index : nat) (st : state) :
  Lru.lookup Nat.eqb index (rz_cache st) = None ->
  match dex_list !! index with
  | Some _ =>
      exists st1,
        _get_rz dex_list index st = (Ok index, st1)
        /\ log st1 = log st ++ opening index
        /\ exists st2,
             _get_rz dex_list index st1 = (Ok index, st2)
             /\ log st2 = log st1
  | None => _get_rz dex_list index st = (Raise IndexError, st)
  end.
Proof.
  intros Hmiss.
  assert (Hrun : _get_rz dex_list index st
                 = match dex_list !! index with
                   | Some _ =>
                       (Ok index,
                        set_rz_cache
                          (Lru.store index tt (rz_cache st))
                          (set_log (log st ++ opening index) st))
                   | None => (Raise IndexError, st)
                   end).
  { unfold _get_rz. rewrite bind_run. unfold lru_cache. rewrite Hmiss.
    destruct (dex_list !! index); [|reflexivity].
    cbv [mbind M_bind send mret M_ret]. cbn.
    now rewrite <- List.app_assoc. }
  destruct (dex_list !! index) as [d|] eqn:Hd; [|exact Hrun].
  eexists. split; [exact Hrun|]. split; [reflexivity|].
  unfold _get_rz. rewrite bind_run. unfold lru_cache.
  cbn [rz_cache set_rz_cache].
  rewrite lru_lookup_store by apply Nat.eqb_refl.
  eexists. split; reflexivity.
Qed.

Lemma get_rz_opens_a_session_once_witness :
  exists st1,
    _get_rz sample_dex_list 1 initial_state = (Ok 1%nat, st1)
    /\ log st1 = log initial_state ++ opening 1
    /\ exists st2,
         _get_rz sample_dex_list 1 st1 = (Ok 1%nat, st2)
         /\ log st2 = log st1.
Proof.
  exact (get_rz_opens_a_session_once sample_dex_list 1 initial_state eq_refl).
Defined.

Section Memo.

Variable str_hash : string -> Z.
Variable tuple_hash : list Z -> Z.
Variable dex_list : list Dex.

(** X14. The results of [upperfunc] and [lowerfunc] are memoized by the
    identity triple alone: after a call that returned, a call with any
    method object of the same class, name and descriptor, whatever its
    address and Dex index, returns the same result and sends no
    command. *)
Theorem results_are_memoized_by_triple
    (method_object twin : MethodObject) (st : state) :
  MethodObject_eq method_object twin = true ->
  match upperfunc str_hash tuple_hash dex_list method_object st with
  | (Ok callers, st1) =>
      exists st2,
        upperfunc str_hash tuple_hash dex_list twin st1 = (Ok callers, st2)
        /\ log st2 = log st1
  | (Raise _, _) => True
  end
  /\ match lowerfunc str_hash tuple_hash dex_list method_object st with
     | (Ok callees, st1) =>
         exists st2,
           lowerfunc str_hash tuple_hash dex_list twin st1 = (Ok callees, st2)
           /\ log st2 = log st1
     | (Raise _, _) => True
     end.
Proof.
  intros Heq. pose proof (same_key_of_eq str_hash tuple_hash _ _ Heq) as Hs.
  split.
  - destruct (upperfunc _ _ _ method_object st) as [[r|e] st1] eqn:E; [|exact I].
    unfold upperfunc in *.
    rewrite (lru_cache_again _ upper_cache set_upper_cache _
               method_object twin r st st1 (fun _ _ => eq_refl) Hs E).
    eexists. split; reflexivity.
  - destruct (lowerfunc _ _ _ method_object st) as [[r|e] st1] eqn:E; [|exact I].
    unfold lowerfunc in *.
    rewrite (lru_cache_again _ lower_cache set_lower_cache _
               method_object twin r st st1 (fun _ _ => eq_refl) Hs E).
    eexists. split; reflexivity.
Qed.

(** X15. [get_method_bytecode] sends nothing and yields nothing for an
    imported method; for another method every command goes to the
    session of the method's own Dex file, the last one being the
    disassembly request at the method's address; and a Dex index beyond
    the Dex files raises [IndexError]. *)
Theorem bytecode_is_read_from_own_session
    (method_object : MethodObject) (c : RizinCache) (st : state) :
  cache method_object = Some c ->
  sends_only (to_own_session c) (get_method_bytecode dex_list method_object)
  /\ match is_imported c, dex_list !! dexindex c with
     | true, _ =>
         get_method_bytecode dex_list method_object st = (Ok [], st)
     | false, Some _ =>
         exists new,
           appends (get_method_bytecode dex_list method_object) st new
           /\ last new = Some (dexindex c, Cmd_pdfj (address c))
     | false, None =>
         fst (get_method_bytecode dex_list method_object st)
         = Raise IndexError
     end.
Proof.
  intros Hc. unfold get_method_bytecode, cache_of. rewrite Hc. split.
  - apply sends_only_bind_ok; [apply sends_only_ret|].
    intros a st0 st0' [= <- _].
    destruct (is_imported c) eqn:Hi; [apply sends_only_ret|].
    apply sends_only_bind_ok.
    { apply sends_only_get_rz; split; auto. }
    intros rz st1 st1' Hrz. apply get_rz_result in Hrz. subst rz.
    apply sends_only_bind.
    { apply sends_only_cmdj. split; auto. }
    intros [ops|]; [apply sends_only_ret|apply sends_only_raise].
  - unfold appends. rewrite bind_run, ret_run.
    destruct (is_imported c); [now destruct (dex_list !! dexindex c)|].
    rewrite bind_run.
    destruct (dex_list !! dexindex c) as [d|] eqn:Hd.
    + destruct (sends_only_get_rz (fun _ => True) dex_list (dexindex c) I I st)
        as (new1 & Hnew1 & _). unfold appends in Hnew1.
      destruct (get_rz_run dex_list (dexindex c) d st Hd) as [st1 Hrz].
      rewrite Hrz in Hnew1 |- *. cbn [snd] in Hnew1.
      exists (new1 ++ [(dexindex c, Cmd_pdfj (address c))]).
      split; [|apply last_snoc].
      rewrite bind_run, (cmdj_run _ _ d) by exact Hd.
      rewrite List.app_assoc, <- Hnew1.
      now destruct (pdfj d (address c)).
    + destruct (_get_rz dex_list (dexindex c) st) as [[rz|e] st1] eqn:Hrz.
      * apply get_rz_result in Hrz. subst rz.
        rewrite bind_run. unfold cmdj. rewrite bind_run. cbn. now rewrite Hd.
      * revert Hrz. unfold _get_rz. rewrite bind_run. unfold lru_cache.
        destruct (Lru.lookup _ _ _); [discriminate|]. rewrite Hd.
        cbn. now intros [= <- _].
Qed.

End Memo.

Lemma results_are_memoized_by_triple_witness :
  exists st1 st2,
    lowerfunc sample_str_hash sample_tuple_hash sample_dex_list
              sample_parent initial_state
    = (Ok [(sample_FutureTask_get, 0%Z); (sample_FutureTask_get, 16%Z)], st1)
    /\ lowerfunc sample_str_hash sample_tuple_hash sample_dex_list
                 sample_parent_twin st1
       = (Ok [(sample_FutureTask_get, 0%Z); (sample_FutureTask_get, 16%Z)],
          st2)
    /\ log st2 = log st1.
Proof.
  pose proof (proj2 (results_are_memoized_by_triple
                       sample_str_hash sample_tuple_hash sample_dex_list
                       sample_parent sample_parent_twin initial_state
                       eq_refl)) as H.
  destruct (lowerfunc sample_str_hash sample_tuple_hash sample_dex_list
                      sample_parent initial_state)
    as [[callees|e] st1] eqn:E; vm_compute in E; [|discriminate E].
  injection E as <- <-. destruct H as (st2 & H2 & Hlog).
  eexists _, st2. split; [reflexivity|]. split; [exact H2|exact Hlog].
Defined.

Lemma bytecode_is_read_from_own_session_witness :
  get_method_bytecode sample_dex_list sample_parent_twin initial_state
  = (Ok [], initial_state).
Proof.
  exact (proj2 (bytecode_is_read_from_own_session
                  sample_dex_list sample_parent_twin
                  {| address := 0; dexindex := 0; is_imported := true |}
                  initial_state eq_refl)).
Defined.

(** ** Sets of method objects, and [quark.utils.tools.remove_dup_list] *)

Section Sets.

Variable str_hash : string -> Z.
Variable tuple_hash : list Z -> Z.

Local Abbreviation same := (same_key str_hash tuple_hash).
Local Abbreviation add := (set_add str_hash tuple_hash).
Local Abbreviation update := (set_update str_hash tuple_hash).

Lemma same_key_iff a b :
  same a b = true <-> compare_fields a = compare_fields b.
Proof.
  split.
  - unfold same_key. intros [_ H]%andb_true_iff.
    now apply MethodObject_eq_iff.
  - intros H. rewrite (same_key_fields str_hash tuple_hash a b b H).
    apply same_key_refl.
Qed.

Lemma existsb_same_iff x s :
  existsb (same x) s = true
  <-> compare_fields x ∈ map compare_fields s.
Proof.
  rewrite existsb_exists, list_elem_of_fmap. split.
  - intros (y & Hy & Hs). exists y. split; [now apply same_key_iff in Hs|].
    now apply list_elem_of_In.
  - intros (y & Hy & Hin). exists y. split; [now apply list_elem_of_In|].
    now apply same_key_iff.
Qed.

Lemma set_add_fields x s :
  forall f, f ∈ map compare_fields (add x s)
            <-> f = compare_fields x \/ f ∈ map compare_fields s.
Proof.
  intros f. unfold set_add.
  destruct (existsb (same x) s) eqn:E.
  - apply existsb_same_iff in E. split; [auto|]. now intros [->|].
  - rewrite map_app, elem_of_app. cbn [map].
    rewrite list_elem_of_singleton. tauto.
Qed.

Lemma set_add_elem x s y : y ∈ add x s -> y = x \/ y ∈ s.
Proof.
  unfold set_add. destruct (existsb (same x) s); [auto|].
  rewrite elem_of_app, list_elem_of_singleton. tauto.
Qed.

Lemma set_add_keeps x s y : y ∈ s -> y ∈ add x s.
Proof.
  unfold set_add. destruct (existsb (same x) s); [auto|].
  intros H. apply elem_of_app. now left.
Qed.

Lemma set_add_distinct x s :
  distinct_methods s -> distinct_methods (add x s).
Proof.
  unfold distinct_methods, set_add. intros Hs.
  destruct (existsb (same x) s) eqn:E; [exact Hs|].
  rewrite map_app. apply NoDup_app. split; [exact Hs|]. split.
  - intros f Hf [->|[]%elem_of_nil]%elem_of_cons.
    apply existsb_same_iff in Hf. congruence.
  - cbn [map]. apply NoDup_singleton.
Qed.

Lemma set_update_fields l : forall s f,
  f ∈ map compare_fields (update s l)
  <-> f ∈ map compare_fields s \/ f ∈ map compare_fields l.
Proof.
  unfold set_update.
  induction l as [|x l IH]; intros s f; cbn [fold_left map].
  - rewrite elem_of_nil. tauto.
  - rewrite IH, set_add_fields, elem_of_cons. tauto.
Qed.

Lemma set_update_elem l : forall s y, y ∈ update s l -> y ∈ s \/ y ∈ l.
Proof.
  unfold set_update.
  induction l as [|x l IH]; intros s y; cbn [fold_left]; [auto|].
  intros [H|H]%IH; [|right; now apply elem_of_cons; right].
  apply set_add_elem in H as [->|H]; [right; now apply elem_of_cons; left|].
  now left.
Qed.

Lemma set_update_keeps l : forall s y, y ∈ s -> y ∈ update s l.
Proof.
  unfold set_update.
  induction l as [|x l IH]; intros s y; cbn [fold_left]; [auto|].
  intros H. now apply IH, set_add_keeps.
Qed.

Lemma set_update_distinct l : forall s,
  distinct_methods s -> distinct_methods (update s l).
Proof.
  unfold set_update.
  induction l as [|x l IH]; intros s Hs; cbn [fold_left]; [exact Hs|].
  now apply IH, set_add_distinct.
Qed.

Lemma distinct_methods_eq l a b :
  distinct_methods l -> a ∈ l -> b ∈ l ->
  compare_fields a = compare_fields b -> a = b.
Proof.
  unfold distinct_methods. intros Hl Ha Hb Hf.
  apply list_elem_of_lookup in Ha as [i Hi].
  apply list_elem_of_lookup in Hb as [j Hj].
  assert (i = j).
  { eapply NoDup_lookup; [exact Hl| |];
      rewrite list_lookup_fmap; [rewrite Hi|rewrite Hj]; cbn;
      [reflexivity|now rewrite Hf]. }
  subst j. congruence.
Qed.

Variable set_order : list MethodObject -> list MethodObject.

(** X16. Whatever order the interpreter enumerates a set in,
    [remove_dup_list] returns methods of the list it was given, one for
    every class of equal methods and no two equal ones: duplicates are
    told by the identity triple, and the backend handles of the dropped
    ones are lost. *)
Theorem remove_dup_list_keeps_one_of_each (element : list MethodObject) :
  (forall l, set_order l ≡ₚ l) ->
  (forall m, m ∈ remove_dup_list str_hash tuple_hash set_order element ->
             m ∈ element)
  /\ (forall m, m ∈ element ->
        exists kept,
          kept ∈ remove_dup_list str_hash tuple_hash set_order element
          /\ MethodObject_eq m kept = true)
  /\ distinct_methods (remove_dup_list str_hash tuple_hash set_order element).
Proof.
  intros Hperm. unfold remove_dup_list. split; [|split].
  - intros m Hm. rewrite Hperm in Hm.
    apply set_update_elem in Hm as [[]%elem_of_nil|Hm]. exact Hm.
  - intros m Hm.
    assert (Hf : compare_fields m
                 ∈ map compare_fields (update [] element)).
    { apply set_update_fields. right. apply list_elem_of_fmap. eauto. }
    apply list_elem_of_fmap in Hf as (kept & Hk & Hin).
    exists kept. split; [now rewrite Hperm|]. now apply MethodObject_eq_iff.
  - unfold distinct_methods. rewrite (Hperm _).
    apply set_update_distinct. constructor.
Qed.

End Sets.

Lemma remove_dup_list_keeps_one_of_each_witness :
  (forall m,
      m ∈ remove_dup_list sample_str_hash sample_tuple_hash (fun l => l)
            [sample_method_dex0; sample_method_dex1] ->
      m ∈ [sample_method_dex0; sample_method_dex1])
  /\ (forall m, m ∈ [sample_method_dex0; sample_method_dex1] ->
        exists kept,
          kept ∈ remove_dup_list sample_str_hash sample_tuple_hash
                   (fun l => l) [sample_method_dex0; sample_method_dex1]
          /\ MethodObject_eq m kept = true)
  /\ distinct_methods
       (remove_dup_list sample_str_hash sample_tuple_hash (fun l => l)
          [sample_method_dex0; sample_method_dex1]).
Proof.
  apply (remove_dup_list_keeps_one_of_each
           sample_str_hash sample_tuple_hash (fun l => l)).
  reflexivity.
Defined.

(** ** The method tables ([RizinImp._get_methods_classified]) *)

Section Tables.

Variable str_hash : string -> Z.
Variable tuple_hash : list Z -> Z.
Variable set_order : list MethodObject -> list MethodObject.
Variable dex_list : list Dex.

Local Abbreviation classified :=
  (_get_methods_classified str_hash tuple_hash set_order dex_list).
Local Abbreviation dedup := (remove_dup_list str_hash tuple_hash set_order).

(** The loop that files each parsed method under its class. *)
Local Abbreviation classify dexindex :=
  (fun json_obj (method_dict : MethodTable) =>
     method ← lift (_parse_method_from_isj_obj json_obj dexindex);
     match method with
     | Some method =>
         let key := Some (class_name method) in
         mret (<[key := bucket method_dict key ++ [method]]> method_dict)
     | None => mret method_dict
     end).

Local Abbreviation parsed_of dexindex :=
  (omap (fun json_obj =>
           match _parse_method_from_isj_obj json_obj dexindex with
           | Ok (Some method) => Some method
           | _ => None
           end)).

Lemma classify_loop dexindex records :
  forall (D D' : MethodTable) st st',
    for_each records (classify dexindex) D st = (Ok D', st') ->
    st' = st
    /\ Forall (fun j => is_raise (_parse_method_from_isj_obj j dexindex)
                        = false) records
    /\ forall key,
         D' !! key
         = match methods_of_class key (parsed_of dexindex records) with
           | [] => D !! key
           | new => Some (bucket D key ++ new)
           end.
Proof.
  induction records as [|j records IH]; intros D D' st st'.
  - cbn. intros [= <- <-]. split; [reflexivity|]. split; [constructor|].
    reflexivity.
  - cbn [for_each]. rewrite bind_run, bind_run. unfold lift at 1.
    destruct (_parse_method_from_isj_obj j dexindex) as [[m|]|e] eqn:Ej;
      [| |discriminate].
    + rewrite ret_run. intros H.
      destruct (IH _ _ _ _ H) as (-> & Hall & Hkeys).
      split; [reflexivity|]. split.
      { constructor; [now rewrite Ej|exact Hall]. }
      intros key. rewrite (Hkeys key). cbn [omap list_omap]. rewrite Ej.
      unfold methods_of_class at 2. rewrite filter_cons.
      fold (methods_of_class key (parsed_of dexindex records)).
      destruct (decide (Some (class_name m) = key)) as [<-|Hne].
      * destruct (methods_of_class _ _).
        -- now rewrite lookup_insert_eq.
        -- unfold bucket at 1. rewrite lookup_insert_eq. cbn [default id].
           now rewrite <- List.app_assoc.
      * destruct (methods_of_class _ _).
        -- now rewrite lookup_insert_ne.
        -- unfold bucket at 1. now rewrite lookup_insert_ne.
    + rewrite ret_run. intros H.
      destruct (IH _ _ _ _ H) as (-> & Hall & Hkeys).
      split; [reflexivity|]. split.
      { constructor; [now rewrite Ej|exact Hall]. }
      intros key. rewrite (Hkeys key). cbn [omap list_omap]. now rewrite Ej.
Qed.

(** What a first call for a Dex file computes. *)
Lemma classified_first_run dexindex d st T st' :
  Lru.lookup Nat.eqb dexindex (classified_cache st) = None ->
  dex_list !! dexindex = Some d ->
  classified dexindex st = (Ok T, st') ->
  Forall (fun j => is_raise (_parse_method_from_isj_obj j dexindex) = false)
         (isj d)
  /\ forall key,
       T !! key
       = match methods_of_class key (parsed_methods d dexindex) with
         | [] => None
         | methods => Some (dedup methods)
         end.
Proof.
  intros Hmiss Hd. unfold _get_methods_classified, lru_cache.
  rewrite Hmiss. rewrite bind_run.
  destruct (get_rz_run dex_list dexindex d st Hd) as [st1 ->].
  rewrite bind_run, (cmdj_run _ _ d) by exact Hd.
  rewrite bind_run.
  destruct (for_each (isj d) _ ∅ _) as [[D'|e] st2] eqn:Eloop; [|discriminate].
  rewrite ret_run. intros [= <- _].
  destruct (classify_loop _ _ _ _ _ _ Eloop) as (_ & Hall & Hkeys).
  split; [exact Hall|]. intros key. rewrite lookup_fmap, (Hkeys key).
  fold (parsed_methods d dexindex).
  destruct (methods_of_class key (parsed_methods d dexindex));
    [now rewrite lookup_empty|].
  unfold bucket. now rewrite lookup_empty.
Qed.

(** X17. The table that the first call for a Dex file builds has a key
    for exactly the classes of the methods that the records of [isj]
    parse to, and under each key the methods of that class in the order
    of the records, with duplicates removed; this requires every record
    to parse without raising; and the next call returns the same table
    without sending a command. *)
Theorem classified_table_by_class
    (dexindex : nat) (d : Dex) (st st' : state) (T : MethodTable) :
  Lru.lookup Nat.eqb dexindex (classified_cache st) = None ->
  dex_list !! dexindex = Some d ->
  classified dexindex st = (Ok T, st') ->
  (forall key,
      T !! key
      = match methods_of_class key (parsed_methods d dexindex) with
        | [] => None
        | methods => Some (dedup methods)
        end)
  /\ Forall (fun j => is_raise (_parse_method_from_isj_obj j dexindex) = false)
            (isj d)
  /\ exists st2,
       classified dexindex st' = (Ok T, st2) /\ log st2 = log st'.
Proof.
  intros Hmiss Hd Hrun.
  destruct (classified_first_run _ _ _ _ _ Hmiss Hd Hrun) as [Hall Hkeys].
  split; [exact Hkeys|]. split; [exact Hall|].
  unfold _get_methods_classified in *.
  rewrite (lru_cache_again Nat.eqb classified_cache set_classified_cache _
             dexindex dexindex T st st' (fun _ _ => eq_refl)
             (Nat.eqb_refl _) Hrun).
  eexists. split; reflexivity.
Qed.

End Tables.

Lemma sample_classified_run :
  fst (_get_methods_classified sample_str_hash sample_tuple_hash (fun l => l)
                               sample_dex_list 0 initial_state)
  = Ok sample_table.
Proof. vm_compute. reflexivity. Qed.

Lemma classified_table_by_class_witness :
  sample_table !! Some "Ljava/util/concurrent/FutureTask;"
  = match methods_of_class (Some "Ljava/util/concurrent/FutureTask;")
                           (parsed_methods sample_dex0 0) with
    | [] => None
    | methods =>
        Some (remove_dup_list sample_str_hash sample_tuple_hash
                              (fun l => l) methods)
    end.
Proof.
  pose proof sample_classified_run as Hrun.
  destruct (_get_methods_classified sample_str_hash sample_tuple_hash
              (fun l => l) sample_dex_list 0 initial_state)
    as [r st'] eqn:E.
  cbn [fst] in Hrun. subst r.
  exact (proj1 (classified_table_by_class
                  sample_str_hash sample_tuple_hash (fun l => l)
                  sample_dex_list 0 sample_dex0 initial_state st'
                  sample_table eq_refl eq_refl E)
               (Some "Ljava/util/concurrent/FutureTask;")).
Defined.

(** ** All methods, Android APIs and custom methods *)

Lemma parsed_method_has_cache json_obj dexindex m :
  _parse_method_from_isj_obj json_obj dexindex = Ok (Some m) ->
  exists c, cache m = Some c.
Proof.
  unfold _parse_method_from_isj_obj, mbind, result_bind, field.
  intros H. isj_cases H; injection H as <-; cbn; eauto.
Qed.

Lemma parsed_methods_elem d dexindex m :
  m ∈ parsed_methods d dexindex
  <-> exists j, j ∈ isj d
                /\ _parse_method_from_isj_obj j dexindex = Ok (Some m).
Proof.
  unfold parsed_methods. rewrite list_elem_of_omap. split.
  - intros (j & Hj & H). exists j. split; [exact Hj|].
    destruct (_parse_method_from_isj_obj j dexindex) as [[m'|]|];
      try discriminate. now injection H as ->.
  - intros (j & Hj & H). exists j. split; [exact Hj|]. now rewrite H.
Qed.

Lemma lru_lookup_take_none {K V} (same : K -> K -> bool) k n
    (c : list (K * V)) :
  Lru.lookup same k c = None -> Lru.lookup same k (take n c) = None.
Proof.
  revert n; induction c as [|[k' v] c IH]; intros [|n]; cbn; try reflexivity.
  destruct (same k k'); [discriminate|]. apply IH.
Qed.

Lemma get_rz_classified_frame dex_list index st r st1 :
  _get_rz dex_list index st = (r, st1) ->
  classified_cache st1 = classified_cache st.
Proof.
  unfold _get_rz. rewrite bind_run. unfold lru_cache.
  destruct (Lru.lookup _ _ _); [now intros [= _ <-]|].
  destruct (dex_list !! index); [|now intros [= _ <-]].
  cbv [mbind M_bind send mret M_ret]. cbn. now intros [= _ <-].
Qed.

Section AllMethods.

Variable str_hash : string -> Z.
Variable tuple_hash : list Z -> Z.
Variable set_order : list MethodObject -> list MethodObject.
Variable dex_list : list Dex.

Hypothesis set_order_permutes : forall l, set_order l ≡ₚ l.

Local Abbreviation classified :=
  (_get_methods_classified str_hash tuple_hash set_order dex_list).
Local Abbreviation dedup := (remove_dup_list str_hash tuple_hash set_order).
Local Abbreviation update := (set_update str_hash tuple_hash).

(** The cache of tables after a first call for a Dex file. *)
Lemma classified_first_cache dexindex d st T st' :
  Lru.lookup Nat.eqb dexindex (classified_cache st) = None ->
  dex_list !! dexindex = Some d ->
  classified dexindex st = (Ok T, st') ->
  classified_cache st' = Lru.store dexindex T (classified_cache st).
Proof.
  intros Hmiss Hd. unfold _get_methods_classified, lru_cache.
  rewrite Hmiss. rewrite bind_run.
  destruct (_get_rz dex_list dexindex st) as [[rz|e] st1] eqn:Hrz;
    [|discriminate].
  pose proof (get_rz_classified_frame _ _ _ _ _ Hrz) as Hframe.
  apply get_rz_result in Hrz. subst rz.
  rewrite bind_run, (cmdj_run _ _ d) by exact Hd.
  rewrite bind_run.
  destruct (for_each (isj d) _ ∅ _) as [[D'|e] st2] eqn:Eloop; [|discriminate].
  apply classify_loop in Eloop as (-> & _ & _).
  rewrite ret_run. intros [= <- <-]. cbn. now rewrite Hframe.
Qed.

Lemma dict_values_elem (T : MethodTable) l :
  l ∈ dict_values T <-> exists key, T !! key = Some l.
Proof.
  unfold dict_values. rewrite list_elem_of_fmap. split.
  - intros ([key l'] & -> & H). exists key. now apply elem_of_map_to_list.
  - intros (key & H). exists (key, l). split; [reflexivity|].
    now apply elem_of_map_to_list.
Qed.

Lemma fold_update_elem ls : forall S m,
  m ∈ fold_left update ls S -> m ∈ S \/ exists l, l ∈ ls /\ m ∈ l.
Proof.
  induction ls as [|l ls IH]; intros S m; cbn [fold_left]; [auto|].
  intros [H|(l' & Hl' & H)]%IH.
  - apply set_update_elem in H as [H|H]; [now left|].
    right. exists l. split; [now left|exact H].
  - right. exists l'. split; [now right|exact H].
Qed.

Lemma fold_update_keeps ls : forall S m, m ∈ S -> m ∈ fold_left update ls S.
Proof.
  induction ls as [|l ls IH]; intros S m; cbn [fold_left]; [auto|].
  intros H. now apply IH, set_update_keeps.
Qed.

Lemma fold_update_fields ls : forall S f,
  f ∈ map compare_fields (fold_left update ls S)
  <-> f ∈ map compare_fields S
      \/ exists l, l ∈ ls /\ f ∈ map compare_fields l.
Proof.
  induction ls as [|l ls IH]; intros S f; cbn [fold_left].
  - split; [auto|]. intros [H|(l & []%elem_of_nil & _)]. exact H.
  - rewrite IH, set_update_fields. split.
    + intros [[H|H]|(l' & Hl' & H)]; [now left| |].
      * right. exists l. split; [now left|exact H].
      * right. exists l'. split; [now right|exact H].
    + intros [H|(l' & [->|Hl']%elem_of_cons & H)]; [now left; left| |].
      * left. now right.
      * right. eauto.
Qed.

Lemma fold_update_distinct ls : forall S,
  distinct_methods S -> distinct_methods (fold_left update ls S).
Proof.
  induction ls as [|l ls IH]; intros S HS; cbn [fold_left]; [exact HS|].
  now apply IH, set_update_distinct.
Qed.

Lemma dedup_elem l m : m ∈ dedup l -> m ∈ l.
Proof.
  unfold remove_dup_list. rewrite set_order_permutes.
  intros [[]%elem_of_nil|H]%set_update_elem. exact H.
Qed.

Lemma dedup_fields l f :
  f ∈ map compare_fields (dedup l) <-> f ∈ map compare_fields l.
Proof.
  unfold remove_dup_list. rewrite set_order_permutes, set_update_fields.
  cbn [map]. rewrite elem_of_nil. tauto.
Qed.

(** The methods of a table that a first call has built. *)
Lemma table_methods dexindex d st T st' :
  Lru.lookup Nat.eqb dexindex (classified_cache st) = None ->
  dex_list !! dexindex = Some d ->
  classified dexindex st = (Ok T, st') ->
  (forall l m, l ∈ dict_values T -> m ∈ l -> m ∈ parsed_methods d dexindex)
  /\ (forall m, m ∈ parsed_methods d dexindex ->
        exists l, l ∈ dict_values T
                  /\ compare_fields m ∈ map compare_fields l).
Proof.
  intros Hmiss Hd Hrun.
  destruct (classified_first_run _ _ _ _ _ _ _ _ _ Hmiss Hd Hrun)
    as [_ Hkeys].
  split.
  - intros l m (key & Hkey)%dict_values_elem Hm.
    rewrite Hkeys in Hkey.
    destruct (methods_of_class key (parsed_methods d dexindex))
      as [|x xs] eqn:E; [discriminate|]. injection Hkey as <-.
    apply dedup_elem in Hm. rewrite <- E in Hm.
    unfold methods_of_class in Hm. now apply list_elem_of_filter in Hm as [_ Hm].
  - intros m Hm.
    assert (Hin : m ∈ methods_of_class (Some (class_name m))
                        (parsed_methods d dexindex)).
    { unfold methods_of_class. now apply list_elem_of_filter. }
    pose proof (Hkeys (Some (class_name m))) as Hkey.
    destruct (methods_of_class (Some (class_name m))
                               (parsed_methods d dexindex))
      as [|x xs] eqn:E; [now apply elem_of_nil in Hin|].
    exists (dedup (x :: xs)). split; [apply dict_values_elem; eauto|].
    apply dedup_fields, list_elem_of_fmap. eauto.
Qed.

Local Abbreviation collect :=
  (fun (dex_index : nat) (method_set : list MethodObject) =>
     method_dict ← classified dex_index;
     mret (fold_left update (dict_values method_dict) method_set)).

Lemma all_methods_loop indices : forall S st S' st',
  NoDup indices ->
  (forall k, k ∈ indices ->
     Lru.lookup Nat.eqb k (classified_cache st) = None
     /\ is_Some (dex_list !! k)) ->
  for_each indices collect S st = (Ok S', st') ->
  (forall m, m ∈ S' ->
     m ∈ S \/ exists k d, k ∈ indices /\ dex_list !! k = Some d
                          /\ m ∈ parsed_methods d k)
  /\ (forall m, m ∈ S -> m ∈ S')
  /\ (forall k d m, k ∈ indices -> dex_list !! k = Some d ->
        m ∈ parsed_methods d k ->
        compare_fields m ∈ map compare_fields S')
  /\ (distinct_methods S -> distinct_methods S').
Proof.
  induction indices as [|k indices IH]; intros S st S' st' Hnd Hfresh.
  - cbn. intros [= <- <-]. split; [auto|]. split; [auto|].
    split; [|auto]. intros k d m []%elem_of_nil.
  - cbn [for_each]. rewrite bind_run, bind_run.
    destruct (classified k st) as [[T|e] st1] eqn:ET; [|discriminate].
    rewrite ret_run. intros Hloop.
    apply NoDup_cons in Hnd as [Hk Hnd].
    destruct (Hfresh k ltac:(now apply elem_of_cons; left)) as [Hmiss [d Hd]].
    pose proof (classified_first_cache _ _ _ _ _ Hmiss Hd ET) as Hcache.
    destruct (table_methods _ _ _ _ _ Hmiss Hd ET) as [Hsound Hcomplete].
    assert (Hfresh' : forall k', k' ∈ indices ->
               Lru.lookup Nat.eqb k' (classified_cache st1) = None
               /\ is_Some (dex_list !! k')).
    { intros k' Hk'.
      destruct (Hfresh k' ltac:(now apply elem_of_cons; right)) as [Hm Hs].
      split; [|exact Hs]. rewrite Hcache. unfold Lru.store.
      cbn [Lru.maxsize take Lru.lookup].
      destruct (Nat.eqb_spec k' k) as [->|_]; [contradiction|].
      now apply lru_lookup_take_none. }
    destruct (IH _ _ _ _ Hnd Hfresh' Hloop) as (H1 & H2 & H3 & H4).
    split; [|split; [|split]].
    + intros m [Hm|(k' & d' & Hk' & Hd' & Hm)]%H1.
      * apply fold_update_elem in Hm as [Hm|(l & Hl & Hm)]; [now left|].
        right. exists k, d. split; [now left|]. split; [exact Hd|].
        eapply Hsound; eauto.
      * right. exists k', d'. split; [now right|]. auto.
    + intros m Hm. now apply H2, fold_update_keeps.
    + intros k' d' m [->|Hk']%elem_of_cons Hd' Hm.
      * assert (d' = d) by congruence. subst d'.
        destruct (Hcomplete m Hm) as (l & Hl & Hf).
        assert (Hin : compare_fields m
                      ∈ map compare_fields
                          (fold_left update (dict_values T) S)).
        { apply fold_update_fields. right. eauto. }
        apply list_elem_of_fmap in Hin as (m' & -> & Hm').
        apply list_elem_of_fmap. exists m'. split; [reflexivity|].
        now apply H2.
      * eapply H3; eauto.
    + intros HS. now apply H4, fold_update_distinct.
Qed.

End AllMethods.

Lemma bind_run_i {A B} (m : MI A) (f : A -> MI B) i :
  (m ≫= f) i =
    match m i with
    | (Ok a, i') => f a i'
    | (Raise e, i') => (Raise e, i')
    end.
Proof. reflexivity. Qed.

Section AllMethodsProperties.

Variable str_hash : string -> Z.
Variable tuple_hash : list Z -> Z.
Variable set_order : list MethodObject -> list MethodObject.
Variable dex_list : list Dex.

Local Abbreviation all :=
  (all_methods str_hash tuple_hash set_order dex_list).
Local Abbreviation update := (set_update str_hash tuple_hash).

(** What the first access to [all_methods] of a fresh instance
    computes. *)
Lemma all_methods_first (i i1 : instance) (S : list MethodObject) :
  (forall l, set_order l ≡ₚ l) ->
  classified_cache (sessions i) = [] ->
  all_methods_cache i = None ->
  all i = (Ok S, i1) ->
  distinct_methods S
  /\ (forall m, m ∈ S ->
        exists index d, dex_list !! index = Some d
                        /\ m ∈ parsed_methods d index)
  /\ (forall index d m,
        dex_list !! index = Some d -> m ∈ parsed_methods d index ->
        compare_fields m ∈ map compare_fields S)
  /\ all_methods_cache i1 = Some S.
Proof.
  intros Hperm Hfresh Hnone. unfold all_methods, cached_property.
  rewrite Hnone. unfold on_sessions.
  destruct (for_each _ _ [] (sessions i)) as [[S'|e] st'] eqn:Eloop;
    [|discriminate].
  intros [= <- <-].
  assert (Hidx : forall k,
             k ∈ seq 0 (_number_of_dex dex_list) ->
             Lru.lookup Nat.eqb k (classified_cache (sessions i)) = None
             /\ is_Some (dex_list !! k)).
  { intros k Hk. split; [now rewrite Hfresh|].
    apply lookup_lt_is_Some. apply elem_of_seq in Hk.
    unfold _number_of_dex in Hk. lia. }
  destruct (all_methods_loop str_hash tuple_hash set_order dex_list Hperm
              _ _ _ _ _ (NoDup_seq 0 _) Hidx Eloop)
    as (H1 & _ & H3 & H4).
  split; [apply H4; constructor|]. split; [|split; [|reflexivity]].
  - intros m [[]%elem_of_nil|(k & d & _ & Hd & Hm)]%H1. eauto.
  - intros index d m Hd Hm. eapply H3; eauto.
    apply elem_of_seq. apply lookup_lt_Some in Hd.
    unfold _number_of_dex. lia.
Qed.

Lemma set_comprehension_run (p : MethodObject -> bool)
    (keep : MethodObject -> result bool) (s : list MethodObject) :
  distinct_methods s ->
  (forall x, x ∈ s -> keep x = Ok (p x)) ->
  exists r,
    set_comprehension str_hash tuple_hash keep s = Ok r
    /\ forall m, m ∈ r <-> m ∈ s /\ p m = true.
Proof.
  induction s as [|x s IH]; intros Hd Hkeep.
  - exists []. split; [reflexivity|]. intros m.
    rewrite elem_of_nil. tauto.
  - pose proof Hd as Hd'. unfold distinct_methods in Hd'. cbn [map] in Hd'.
    apply NoDup_cons in Hd' as [Hx Hs].
    destruct (IH Hs) as (rest & Hrest & Hiff).
    { intros y Hy. apply Hkeep. now right. }
    cbn [set_comprehension]. rewrite (Hkeep x ltac:(now left)), Hrest. cbn.
    eexists. split; [reflexivity|]. intros m.
    destruct (p x) eqn:Hpx.
    + split.
      * intros [[->|[]%elem_of_nil]%elem_of_cons|Hm]%set_update_elem.
        -- split; [now left|exact Hpx].
        -- apply Hiff in Hm as [Hm Hp]. split; [now right|exact Hp].
      * intros [Hm Hp].
        assert (Hf : compare_fields m
                     ∈ map compare_fields (update [x] rest)).
        { apply set_update_fields.
          apply elem_of_cons in Hm as [->|Hm]; [left; now left|].
          right. apply list_elem_of_fmap. exists m. split; [reflexivity|].
          now apply Hiff. }
        apply list_elem_of_fmap in Hf as (m' & Hf & Hm').
        assert (Hin' : m' ∈ x :: s).
        { apply set_update_elem in Hm'
            as [[->|[]%elem_of_nil]%elem_of_cons|Hm']; [now left|].
          right. now apply Hiff in Hm' as [Hm' _]. }
        now rewrite (distinct_methods_eq (x :: s) m m' Hd Hm Hin' Hf).
    + rewrite Hiff. split.
      * intros [Hm Hp]. split; [now right|exact Hp].
      * intros [[->|Hm]%elem_of_cons Hp]; [congruence|]. auto.
Qed.

(** X18. The first access to [all_methods] on a fresh instance returns
    the methods that the records of [isj] of all the Dex files parse
    to, one for every class of equal methods and no two equal ones, and
    stores them: the next access returns the same set and changes
    nothing. *)
Theorem all_methods_are_the_parsed_methods
    (i i1 : instance) (S : list MethodObject) :
  (forall l, set_order l ≡ₚ l) ->
  classified_cache (sessions i) = [] ->
  all_methods_cache i = None ->
  all i = (Ok S, i1) ->
  distinct_methods S
  /\ (forall m, m ∈ S ->
        exists index d, dex_list !! index = Some d
                        /\ m ∈ parsed_methods d index)
  /\ (forall index d m,
        dex_list !! index = Some d -> m ∈ parsed_methods d index ->
        exists kept, kept ∈ S /\ MethodObject_eq m kept = true)
  /\ all i1 = (Ok S, i1).
Proof.
  intros Hperm Hfresh Hnone Hrun.
  destruct (all_methods_first i i1 S Hperm Hfresh Hnone Hrun)
    as (Hd & Hsound & Hcomplete & Hcache).
  split; [exact Hd|]. split; [exact Hsound|]. split.
  - intros index d m Hdex Hm.
    pose proof (Hcomplete index d m Hdex Hm) as Hf.
    apply list_elem_of_fmap in Hf as (kept & Hf & Hk).
    exists kept. split; [exact Hk|]. now apply MethodObject_eq_iff.
  - unfold all_methods, cached_property. now rewrite Hcache.
Qed.

(** X19. Once [all_methods] is computed, [android_apis] and
    [custom_methods] raise nothing and send nothing: every method has a
    cache to read; the first holds the imported methods of the Android
    packages, the second the methods that are not imported, and no
    method of the one equals a method of the other. *)
Theorem android_apis_and_custom_methods
    (i i1 : instance) (S : list MethodObject) :
  (forall l, set_order l ≡ₚ l) ->
  classified_cache (sessions i) = [] ->
  all_methods_cache i = None ->
  all i = (Ok S, i1) ->
  exists A C,
    android_apis str_hash tuple_hash set_order dex_list i1 = (Ok A, i1)
    /\ custom_methods str_hash tuple_hash set_order dex_list i1 = (Ok C, i1)
    /\ (forall m, m ∈ A <-> m ∈ S /\ is_android_api m && imported m = true)
    /\ (forall m, m ∈ C <-> m ∈ S /\ negb (imported m) = true)
    /\ (forall a c, a ∈ A -> c ∈ C -> MethodObject_eq a c = false).
Proof.
  intros Hperm Hfresh Hnone Hrun.
  destruct (all_methods_first i i1 S Hperm Hfresh Hnone Hrun)
    as (Hd & Hsound & _ & Hcache).
  assert (Hall : all i1 = (Ok S, i1))
    by (unfold all_methods, cached_property; now rewrite Hcache).
  assert (Hhas : forall x, x ∈ S -> exists c, cache x = Some c).
  { intros x (index & d & _ & Hx)%Hsound.
    apply parsed_methods_elem in Hx as (j & _ & Hj).
    eapply parsed_method_has_cache, Hj. }
  destruct (set_comprehension_run
              (fun m => is_android_api m && imported m)
              (fun method => if is_android_api method
                             then cache_is_imported method else Ok false)
              S Hd) as (A & HA & HAiff).
  { intros x (c & Hc)%Hhas. unfold cache_is_imported, imported. rewrite Hc.
    now destruct (is_android_api x). }
  destruct (set_comprehension_run
              (fun m => negb (imported m))
              (fun method => imported ← cache_is_imported method;
                             Ok (negb imported))
              S Hd) as (C & HC & HCiff).
  { intros x (c & Hc)%Hhas. unfold cache_is_imported, imported.
    now rewrite Hc. }
  exists A, C.
  split; [unfold android_apis; now rewrite bind_run_i, Hall; unfold lift_i; rewrite HA|].
  split; [unfold custom_methods; now rewrite bind_run_i, Hall; unfold lift_i; rewrite HC|].
  split; [exact HAiff|]. split; [exact HCiff|].
  intros a c [Ha Hpa]%HAiff [Hc Hpc]%HCiff.
  destruct (MethodObject_eq a c) eqn:E; [|reflexivity].
  apply MethodObject_eq_iff in E.
  rewrite (distinct_methods_eq S a c Hd Ha Hc E) in Hpa.
  apply andb_true_iff in Hpa as [_ Hpa]. rewrite Hpa in Hpc. discriminate.
Qed.

End AllMethodsProperties.

Lemma sample_all_methods_run :
  fst (all_methods sample_str_hash sample_tuple_hash (fun l => l)
                   sample_dex_list initial_instance)
  = Ok [sample_FutureTask_get].
Proof. vm_compute. reflexivity. Qed.

Lemma all_methods_are_the_parsed_methods_witness :
  distinct_methods [sample_FutureTask_get]
  /\ exists kept,
       kept ∈ [sample_FutureTask_get]
       /\ MethodObject_eq sample_FutureTask_get kept = true.
Proof.
  pose proof sample_all_methods_run as Hrun.
  destruct (all_methods sample_str_hash sample_tuple_hash (fun l => l)
                        sample_dex_list initial_instance)
    as [r i1] eqn:E.
  cbn [fst] in Hrun. subst r.
  destruct (all_methods_are_the_parsed_methods
              sample_str_hash sample_tuple_hash (fun l => l) sample_dex_list
              initial_instance i1 [sample_FutureTask_get]
              ltac:(reflexivity) eq_refl eq_refl E)
    as (Hd & _ & Hcomplete & _).
  split; [exact Hd|].
  apply (Hcomplete 0%nat sample_dex0 sample_FutureTask_get eq_refl).
  apply parsed_methods_elem. exists sample_isj_FutureTask_get.
  split; [now left|reflexivity].
Defined.

Lemma android_apis_and_custom_methods_witness :
  exists i1 A C,
    android_apis sample_str_hash sample_tuple_hash (fun l => l)
                 sample_dex_list i1 = (Ok A, i1)
    /\ custom_methods sample_str_hash sample_tuple_hash (fun l => l)
                      sample_dex_list i1 = (Ok C, i1)
    /\ (forall m, m ∈ A <-> m ∈ [sample_FutureTask_get]
                            /\ is_android_api m && imported m = true)
    /\ (forall m, m ∈ C <-> m ∈ [sample_FutureTask_get]
                            /\ negb (imported m) = true)
    /\ (forall a c, a ∈ A -> c ∈ C -> MethodObject_eq a c = false).
Proof.
  pose proof sample_all_methods_run as Hrun.
  destruct (all_methods sample_str_hash sample_tuple_hash (fun l => l)
                        sample_dex_list initial_instance)
    as [r i1] eqn:E.
  cbn [fst] in Hrun. subst r. exists i1.
  exact (android_apis_and_custom_methods
           sample_str_hash sample_tuple_hash (fun l => l) sample_dex_list
           initial_instance i1 [sample_FutureTask_get]
           ltac:(reflexivity) eq_refl eq_refl E).
Defined.

(** ** Strings and class hierarchy *)

Lemma related_add_to key value d k v :
  v ∈ related (add_to key value d) k
  <-> v ∈ related d k \/ (k = key /\ v = value).
Proof.
  unfold related, add_to. destruct (decide (k = key)) as [->|Hne].
  - rewrite lookup_insert_eq. cbn [default]. set_solver.
  - rewrite lookup_insert_ne by congruence. set_solver.
Qed.

Lemma on_sessions_get_rz dex_list index i rz i' :
  on_sessions (_get_rz dex_list index) i = (Ok rz, i') ->
  rz = index /\ queries i' = queries i.
Proof.
  unfold on_sessions.
  destruct (_get_rz dex_list index (sessions i)) as [r st] eqn:E.
  intros [= -> <-]. split; [|reflexivity]. eapply get_rz_result, E.
Qed.

Lemma comprehension_run {A B} (f : A -> result B) xs ys :
  comprehension f xs = Ok ys ->
  forall y, y ∈ ys <-> exists x, x ∈ xs /\ f x = Ok y.
Proof.
  revert ys; induction xs as [|x xs IH]; intros ys; cbn.
  - intros [= <-] y. rewrite elem_of_nil. split; [tauto|].
    intros (x & []%elem_of_nil & _).
  - unfold mbind, result_bind.
    destruct (f x) as [y0|] eqn:Ex; [|discriminate].
    destruct (comprehension f xs) as [ys0|]; [|discriminate].
    intros [= <-] y. rewrite elem_of_cons, (IH ys0 eq_refl). split.
    + intros [->|(x' & Hx' & Hy)]; [exists x; split; [now left|exact Ex]|].
      exists x'. split; [now right|exact Hy].
    + intros (x' & [->|Hx']%elem_of_cons & Hy); [left; congruence|].
      right. eauto.
Qed.

Section Hierarchy.

Variable dex_list : list Dex.
Variable info_list : list DexInfo.

Section Loops.

(** The key and the value that a class and its superclass are filed
    under. *)
Variable key_of value_of : string -> string -> string.

Local Abbreviation file_class :=
  (fun class_info (hierarchy_dict : gmap string (gset string)) =>
     class_name ← lift_i (field "classname" (c_classname class_info));
     super_class ← lift_i (field "super" (c_super class_info));
     mret (add_to (key_of class_name super_class)
                  (value_of class_name super_class) hierarchy_dict)).

Lemma file_class_loop infos : forall H0 i H' i',
  for_each_i infos file_class H0 i = (Ok H', i') ->
  i' = i
  /\ forall k v,
       v ∈ related H' k
       <-> v ∈ related H0 k
           \/ exists info cn sc,
                info ∈ infos /\ c_classname info = Some cn
                /\ c_super info = Some sc
                /\ k = key_of cn sc /\ v = value_of cn sc.
Proof.
  induction infos as [|info infos IH]; intros H0 i H' i'.
  - cbn. intros [= <- <-]. split; [reflexivity|]. intros k v.
    split; [auto|]. intros [H|(info & _ & _ & []%elem_of_nil & _)]. exact H.
  - cbn [for_each_i]. rewrite !bind_run_i. unfold lift_i at 1, field at 1.
    destruct (c_classname info) as [cn|] eqn:Ecn; [|discriminate].
    rewrite bind_run_i. unfold lift_i at 1, field at 1.
    destruct (c_super info) as [sc|] eqn:Esc; [|discriminate].
    change ((mret (add_to (key_of cn sc) (value_of cn sc) H0) : MI _) i)
      with (Ok (add_to (key_of cn sc) (value_of cn sc) H0), i).
    intros Hloop. destruct (IH _ _ _ _ Hloop) as [-> Hiff].
    split; [reflexivity|]. intros k v. rewrite Hiff, related_add_to. split.
    + intros [[H|[-> ->]]|(info' & cn' & sc' & Hin & H)]; [now left| |].
      * right. exists info, cn, sc. split; [now left|auto].
      * right. exists info', cn', sc'. split; [now right|exact H].
    + intros [H|(info' & cn' & sc' & [->|Hin]%elem_of_cons & Hc & Hs & -> & ->)];
        [now left; left| |].
      * left; right. split; congruence.
      * right. exists info', cn', sc'. auto.
Qed.

Local Abbreviation ask_classes :=
  (fun dex_index (hierarchy_dict : gmap string (gset string)) =>
     rz ← on_sessions (_get_rz dex_list dex_index);
     class_info_list ← queryj info_list rz Cmd_icj icj;
     for_each_i class_info_list file_class hierarchy_dict).

Lemma ask_classes_loop indices : forall H0 i H' i',
  for_each_i indices ask_classes H0 i = (Ok H', i') ->
  forall k v,
    v ∈ related H' k
    <-> v ∈ related H0 k
        \/ exists index d info cn sc,
             index ∈ indices /\ info_list !! index = Some d
             /\ info ∈ icj d /\ c_classname info = Some cn
             /\ c_super info = Some sc
             /\ k = key_of cn sc /\ v = value_of cn sc.
Proof.
  induction indices as [|index indices IH]; intros H0 i H' i'.
  - cbn. intros [= <- <-] k v. split; [auto|].
    intros [H|(index & _ & _ & _ & _ & []%elem_of_nil & _)]. exact H.
  - cbn [for_each_i]. rewrite !bind_run_i.
    destruct (on_sessions (_get_rz dex_list index) i) as [[rz|e] i1] eqn:Hrz;
      [|discriminate].
    apply on_sessions_get_rz in Hrz as [-> _].
    rewrite bind_run_i. unfold queryj at 1.
    destruct (info_list !! index) as [d|] eqn:Hd; [|discriminate].
    destruct (for_each_i (icj d) _ H0 _) as [[H1|e] i2] eqn:Hinner;
      [|discriminate].
    apply file_class_loop in Hinner as [_ Hin].
    intros Hloop k v. rewrite (IH _ _ _ _ Hloop), Hin. split.
    + intros [[H|(info & cn & sc & Hi & H)]|(index' & d' & info & cn & sc & Hi & H)];
        [now left| |].
      * right. exists index, d, info, cn, sc. split; [now left|auto].
      * right. exists index', d', info, cn, sc. split; [now right|exact H].
    + intros [H|(index' & d' & info & cn & sc & [->|Hi]%elem_of_cons & Hd' & H)];
        [now left; left| |].
      * left; right. assert (d' = d) by congruence. subst d'.
        exists info, cn, sc. exact H.
      * right. exists index', d', info, cn, sc. auto.
Qed.

End Loops.

Lemma related_empty k : related (∅ : gmap string (gset string)) k = ∅.
Proof. unfold related. now rewrite lookup_empty. Qed.

(** X20. The superclass dictionary holds, under each class, the
    superclasses that the answers to [icj] of the Dex files give for
    it, and the subclass dictionary is its converse: a class is among
    the subclasses of another exactly when that one is among its
    superclasses. Both are computed once and then returned as stored. *)
Theorem hierarchy_dictionaries_are_converse
    (i i1 i' i1' : instance) (Sup Sub : gmap string (gset string)) :
  superclass_cache i = None ->
  subclass_cache i' = None ->
  superclass_relationships dex_list info_list i = (Ok Sup, i1) ->
  subclass_relationships dex_list info_list i' = (Ok Sub, i1') ->
  (forall c s,
      s ∈ related Sup c
      <-> exists index d info,
            (index < length dex_list)%nat /\ info_list !! index = Some d
            /\ info ∈ icj d /\ c_classname info = Some c
            /\ c_super info = Some s)
  /\ (forall c s, s ∈ related Sup c <-> c ∈ related Sub s)
  /\ superclass_relationships dex_list info_list i1 = (Ok Sup, i1)
  /\ subclass_relationships dex_list info_list i1' = (Ok Sub, i1').
Proof.
  intros Hsup Hsub. unfold superclass_relationships, subclass_relationships,
    cached_property. rewrite Hsup, Hsub.
  destruct (for_each_i _ _ ∅ i) as [[S1|e] j1] eqn:E1; [|discriminate].
  destruct (for_each_i _ _ ∅ i') as [[S2|e] j2] eqn:E2; [|discriminate].
  intros [= <- <-] [= <- <-].
  pose proof (ask_classes_loop (fun cn _ => cn) (fun _ sc => sc)
                _ _ _ _ _ E1) as H1.
  pose proof (ask_classes_loop (fun _ sc => sc) (fun cn _ => cn)
                _ _ _ _ _ E2) as H2.
  assert (Hchar : forall c s,
             s ∈ related S1 c
             <-> exists index d info,
                   (index < length dex_list)%nat
                   /\ info_list !! index = Some d
                   /\ info ∈ icj d /\ c_classname info = Some c
                   /\ c_super info = Some s).
  { intros c s. rewrite H1, related_empty. split.
    - intros [[]%elem_of_empty
             |(index & d & info & cn & sc & Hi & Hd & Hin & Hc & Hs & -> & ->)].
      exists index, d, info. apply elem_of_seq in Hi.
      unfold _number_of_dex in Hi. repeat split; auto; lia.
    - intros (index & d & info & Hi & Hd & Hin & Hc & Hs). right.
      exists index, d, info, c, s. repeat split; auto.
      apply elem_of_seq. unfold _number_of_dex. lia. }
  split; [exact Hchar|]. split.
  - intros c s. rewrite Hchar, H2, related_empty. split.
    + intros (index & d & info & Hi & Hd & Hin & Hc & Hs). right.
      exists index, d, info, c, s. repeat split; auto.
      apply elem_of_seq. unfold _number_of_dex. lia.
    + intros [[]%elem_of_empty
             |(index & d & info & cn & sc & Hi & Hd & Hin & Hc & Hs & -> & ->)].
      exists index, d, info. apply elem_of_seq in Hi.
      unfold _number_of_dex in Hi. repeat split; auto; lia.
  - split; reflexivity.
Qed.

Local Abbreviation ask_strings :=
  (fun dex_index (strings : gset string) =>
     rz ← on_sessions (_get_rz dex_list dex_index);
     string_detail_list ← queryj info_list rz Cmd_izzj izzj;
     found ← lift_i (comprehension
                       (fun string_detail =>
                          field "string" (s_string string_detail))
                       string_detail_list);
     mret (strings ∪ list_to_set found)).

Lemma ask_strings_loop indices : forall (R0 : gset string) i R i',
  for_each_i indices ask_strings R0 i = (Ok R, i') ->
  (forall s,
      s ∈ R
      <-> s ∈ R0
          \/ exists index d detail,
               index ∈ indices /\ info_list !! index = Some d
               /\ detail ∈ izzj d /\ s_string detail = Some s)
  /\ queries i' = queries i ++ map (fun k => (k, Cmd_izzj)) indices.
Proof.
  induction indices as [|index indices IH]; intros R0 i R i'.
  - cbn. intros [= <- <-]. split; [|now rewrite List.app_nil_r].
    intros s. split; [auto|].
    intros [H|(index & _ & _ & []%elem_of_nil & _)]. exact H.
  - cbn [for_each_i]. rewrite !bind_run_i.
    destruct (on_sessions (_get_rz dex_list index) i) as [[rz|e] i1] eqn:Hrz;
      [|discriminate].
    apply on_sessions_get_rz in Hrz as [-> Hq].
    rewrite bind_run_i. unfold queryj at 1.
    destruct (info_list !! index) as [d|] eqn:Hd; [|discriminate].
    rewrite bind_run_i. unfold lift_i at 1.
    destruct (comprehension _ (izzj d)) as [found|] eqn:Ef; [|discriminate].
    pose proof (comprehension_run _ _ _ Ef) as Hfound.
    cbv [mret MI_ret]. cbv beta iota.
    match goal with
    | |- for_each_i _ _ ?R1 ?i2 = _ -> _ =>
        intros Hloop; destruct (IH R1 i2 _ _ Hloop) as [Hiff Hqueries]
    end.
    split.
    + intros s. rewrite Hiff, elem_of_union, elem_of_list_to_set, Hfound.
      split.
      * intros [[H|(detail & Hin & Hs)]|(index' & d' & detail & Hi & H)];
          [now left| |].
        -- right. exists index, d, detail. split; [now left|].
           split; [exact Hd|]. split; [exact Hin|].
           unfold field in Hs. destruct (s_string detail); congruence.
        -- right. exists index', d', detail. split; [now right|exact H].
      * intros [H|(index' & d' & detail & [->|Hi]%elem_of_cons & Hd' & Hin & Hs)];
          [now left; left| |].
        -- left; right. assert (d' = d) by congruence. subst d'.
           exists detail. split; [exact Hin|]. unfold field. now rewrite Hs.
        -- right. exists index', d', detail. auto.
    + rewrite Hqueries. cbn [queries set_queries map]. rewrite Hq.
      now rewrite <- List.app_assoc.
Qed.

(** X21. [get_strings] returns exactly the strings of the answers to
    [izzj] of all the Dex files, and it is not memoized: every call
    sends [izzj] to every session again, in the order of the Dex
    files. *)
Theorem get_strings_collects_every_dex
    (i i1 : instance) (strings : gset string) :
  get_strings dex_list info_list i = (Ok strings, i1) ->
  (forall s,
      s ∈ strings
      <-> exists index d detail,
            (index < length dex_list)%nat /\ info_list !! index = Some d
            /\ detail ∈ izzj d /\ s_string detail = Some s)
  /\ queries i1
     = queries i ++ map (fun k => (k, Cmd_izzj)) (seq 0 (length dex_list)).
Proof.
  unfold get_strings. intros Hrun.
  destruct (ask_strings_loop _ _ _ _ _ Hrun) as [Hiff Hq].
  split; [|exact Hq]. intros s. rewrite Hiff. split.
  - intros [[]%elem_of_empty|(index & d & detail & Hi & H)].
    exists index, d, detail. apply elem_of_seq in Hi.
    unfold _number_of_dex in Hi. split; [lia|exact H].
  - intros (index & d & detail & Hi & H). right.
    exists index, d, detail. split; [|exact H].
    apply elem_of_seq. unfold _number_of_dex. lia.
Qed.

End Hierarchy.

Lemma sample_hierarchy_runs :
  is_raise (fst (superclass_relationships sample_dex_list sample_info_list
                                          initial_instance)) = false
  /\ is_raise (fst (subclass_relationships sample_dex_list sample_info_list
                                           initial_instance)) = false
  /\ is_raise (fst (get_strings sample_dex_list sample_info_list
                                initial_instance)) = false.
Proof. vm_compute. auto. Qed.

Lemma hierarchy_dictionaries_are_converse_witness :
  exists Sup Sub,
    fst (superclass_relationships sample_dex_list sample_info_list
                                  initial_instance) = Ok Sup
    /\ fst (subclass_relationships sample_dex_list sample_info_list
                                   initial_instance) = Ok Sub
    /\ (forall c s, s ∈ related Sup c <-> c ∈ related Sub s)
    /\ "Lcom/example/A;" ∈ related Sup "Lcom/example/B;"
    /\ "Lcom/example/B;" ∈ related Sub "Lcom/example/A;".
Proof.
  destruct sample_hierarchy_runs as (Hsup & Hsub & _).
  remember (superclass_relationships sample_dex_list sample_info_list
                                     initial_instance) as run1 eqn:E1.
  remember (subclass_relationships sample_dex_list sample_info_list
                                   initial_instance) as run2 eqn:E2.
  destruct run1 as [[Sup|e] i1]; [|discriminate Hsup].
  destruct run2 as [[Sub|e] i2]; [|discriminate Hsub].
  symmetry in E1, E2.
  destruct (hierarchy_dictionaries_are_converse
              sample_dex_list sample_info_list
              initial_instance i1 initial_instance i2 Sup Sub
              eq_refl eq_refl E1 E2) as (Hchar & Hconv & _).
  exists Sup, Sub. split; [reflexivity|]. split; [reflexivity|].
  split; [exact Hconv|].
  assert (Hin : "Lcom/example/A;" ∈ related Sup "Lcom/example/B;").
  { apply Hchar.
    exists 1%nat, {| izzj := [ {| s_string := Some "world" |};
                               {| s_string := Some "hello" |} ];
                    icj := [ {| c_classname := Some "Lcom/example/B;";
                                c_super := Some "Lcom/example/A;" |} ] |},
      {| c_classname := Some "Lcom/example/B;";
         c_super := Some "Lcom/example/A;" |}.
    split; [cbn; lia|]. split; [reflexivity|]. split; [now left|].
    split; reflexivity. }
  split; [exact Hin|]. now apply Hconv.
Defined.

Lemma get_strings_collects_every_dex_witness :
  exists strings i1,
    get_strings sample_dex_list sample_info_list initial_instance
    = (Ok strings, i1)
    /\ "world" ∈ strings
    /\ queries i1 = [(0%nat, Cmd_izzj); (1%nat, Cmd_izzj)].
Proof.
  destruct sample_hierarchy_runs as (_ & _ & Hrun).
  remember (get_strings sample_dex_list sample_info_list initial_instance)
    as run eqn:E.
  destruct run as [[strings|e] i1]; [|discriminate Hrun].
  symmetry in E.
  destruct (get_strings_collects_every_dex
              sample_dex_list sample_info_list initial_instance i1 strings E)
    as [Hiff Hq].
  exists strings, i1. split; [reflexivity|]. split; [|exact Hq].
  apply Hiff.
  exists 1%nat, {| izzj := [ {| s_string := Some "world" |};
                             {| s_string := Some "hello" |} ];
                  icj := [ {| c_classname := Some "Lcom/example/B;";
                              c_super := Some "Lcom/example/A;" |} ] |},
    {| s_string := Some "world" |}.
  split; [cbn; lia|]. split; [reflexivity|]. split; [now left|reflexivity].
Defined.

(** ** [MethodObject.full_name] *)

Lemma no_space_chars c s :
  Str.contains (String c "") s = false ->
  Str.all (fun x => negb (Ascii.eqb x c)) s = true.
Proof.
  induction s as [|x s IH]; [reflexivity|]. rewrite contains_unfold.
  rewrite prefix_cons, prefix_nil, andb_true_r.
  destruct (Ascii.eqb c x) eqn:E; [discriminate|]. intros H.
  cbn [Str.all]. rewrite Ascii.eqb_sym, E. now rewrite IH.
Qed.

Lemma split_at_char c s s' t t' :
  Str.all (fun x => negb (Ascii.eqb x c)) s = true ->
  Str.all (fun x => negb (Ascii.eqb x c)) s' = true ->
  s +:+ String c t = s' +:+ String c t' -> s = s' /\ t = t'.
Proof.
  revert s'; induction s as [|x s IH]; intros [|x' s'] Hs Hs';
    rewrite ?str_app_nil_l, ?str_app_cons.
  - now intros [= ->].
  - intros [= <- _]. cbn in Hs'. now rewrite Ascii.eqb_refl in Hs'.
  - intros [= -> _]. cbn in Hs. now rewrite Ascii.eqb_refl in Hs.
  - intros [= <- H]. cbn in Hs, Hs'.
    apply andb_true_iff in Hs as [_ Hs]. apply andb_true_iff in Hs' as [_ Hs'].
    destruct (IH s' Hs Hs' H) as [-> ->]. auto.
Qed.

(** X22. For methods whose class names and names have no space, the
    full name tells the identity: two such methods have the same full
    name exactly when they are equal. *)
Theorem full_name_tells_identity (a b : MethodObject) :
  Str.contains " " (class_name a) = false ->
  Str.contains " " (name a) = false ->
  Str.contains " " (class_name b) = false ->
  Str.contains " " (name b) = false ->
  full_name a = full_name b <-> MethodObject_eq a b = true.
Proof.
  intros Hca Hna Hcb Hnb. rewrite MethodObject_eq_iff.
  unfold full_name, MethodObject_str, compare_fields. split.
  - rewrite !(str_app_cons " "), !str_app_nil_l. intros H.
    apply split_at_char in H as [Hc H]; [|now apply no_space_chars..].
    apply split_at_char in H as [Hn Hd]; [|now apply no_space_chars..].
    congruence.
  - now intros [= -> -> ->].
Qed.

Lemma full_name_tells_identity_witness :
  full_name sample_method_dex0 = full_name sample_method_dex1
  <-> MethodObject_eq sample_method_dex0 sample_method_dex1 = true.
Proof.
  apply (full_name_tells_identity sample_method_dex0 sample_method_dex1);
    reflexivity.
Defined.

(** With a space in a class name or a name, two different methods can
    have the same full name. *)
Remark full_name_with_spaces :
  full_name sample_spaced_method_1 = full_name sample_spaced_method_2
  /\ MethodObject_eq sample_spaced_method_1 sample_spaced_method_2 = false.
Proof. split; reflexivity. Qed.

(** ** What [find_method] leaves behind *)

Section FindMethodEffects.

Variable str_hash : string -> Z.
Variable tuple_hash : list Z -> Z.
Variable set_order : list MethodObject -> list MethodObject.
Variable dex_list : list Dex.

Lemma lru_lookup_update_touch {V} (k : nat) (v v' : V) c :
  Lru.lookup Nat.eqb k (Lru.update Nat.eqb k v' (Lru.touch Nat.eqb k v c))
  = Some v'.
Proof.
  unfold Lru.touch. cbn [Lru.update]. rewrite Nat.eqb_refl.
  cbn [Lru.lookup]. now rewrite Nat.eqb_refl.
Qed.

Lemma find_method_in_state (tables : list MethodTable) cn mn ds :
  forall k st,
    (forall i T, tables !! i = Some T ->
                 Lru.lookup Nat.eqb (k + i)%nat (classified_cache st) = Some T) ->
    first_match tables cn mn ds = None ->
    let st' := snd (find_method_in str_hash tuple_hash set_order dex_list
                                   (seq k (length tables)) cn mn ds st) in
    log st' = log st
    /\ (forall i T, tables !! i = Some T ->
          Lru.lookup Nat.eqb (k + i)%nat (classified_cache st')
          = Some (snd (defaultdict_get T cn)))
    /\ (forall j, (j < k)%nat ->
          Lru.lookup Nat.eqb j (classified_cache st')
          = Lru.lookup Nat.eqb j (classified_cache st)).
Proof.
  induction tables as [|T tables IH]; intros k st Hmemo Hnone.
  - cbn. split; [reflexivity|]. split; [|auto].
    intros i T Hi. now rewrite lookup_nil in Hi.
  - cbn [length first_match] in *.
    pose proof (Hmemo 0%nat T eq_refl) as H0. rewrite Nat.add_0_r in H0.
    destruct (List.find (method_filter mn ds) (bucket T cn)) eqn:Ef;
      [discriminate|].
    set (st1 := set_classified_cache
                  (Lru.update Nat.eqb k (snd (defaultdict_get T cn))
                     (Lru.touch Nat.eqb k T (classified_cache st))) st).
    assert (Hstep :
              find_method_in str_hash tuple_hash set_order dex_list
                             (seq k (S (length tables))) cn mn ds st
              = find_method_in str_hash tuple_hash set_order dex_list
                               (seq (S k) (length tables)) cn mn ds st1).
    { cbn [seq find_method_in]. rewrite bind_run.
      unfold _get_methods_classified at 1, lru_cache. rewrite H0.
      rewrite <- defaultdict_get_bucket in Ef. unfold st1.
      destruct (defaultdict_get T cn) as [methods T']. cbn [fst snd] in *.
      rewrite bind_run. now rewrite Ef. }
    cbv zeta. rewrite Hstep.
    assert (Hmemo1 : forall i Ti, tables !! i = Some Ti ->
               Lru.lookup Nat.eqb (S k + i)%nat (classified_cache st1)
               = Some Ti).
    { intros i Ti Hi. unfold st1. cbn [classified_cache set_classified_cache].
      rewrite lru_lookup_update_ne, lru_lookup_touch_ne by lia.
      replace (S k + i)%nat with (k + S i)%nat by lia. now apply Hmemo. }
    destruct (IH (S k) st1 Hmemo1 Hnone) as (Hlog & Hnew & Hold).
    split; [rewrite Hlog; reflexivity|]. split.
    + intros [|i] Ti Hi.
      * injection Hi as <-. rewrite Nat.add_0_r, Hold by lia.
        unfold st1. cbn [classified_cache set_classified_cache].
        apply lru_lookup_update_touch.
      * replace (k + S i)%nat with (S k + i)%nat by lia. now apply Hnew.
    + intros j Hj. rewrite Hold by lia. unfold st1.
      cbn [classified_cache set_classified_cache].
      now rewrite lru_lookup_update_ne, lru_lookup_touch_ne by lia.
Qed.

(** X23. With the method tables built, a search that finds nothing
    sends no command, but it changes every table: the class name that
    was looked up becomes a key of each of them, with an empty list of
    methods where the class was unknown. *)
Theorem find_method_adds_the_class_to_every_table
    (tables : list MethodTable) (st : state)
    (class_name_ method_name descriptor_ : option string) :
  length tables = length dex_list ->
  (forall i T, tables !! i = Some T ->
               Lru.lookup Nat.eqb i (classified_cache st) = Some T) ->
  first_match tables class_name_ method_name descriptor_ = None ->
  log (snd (find_method str_hash tuple_hash set_order dex_list
                        class_name_ method_name descriptor_ st))
  = log st
  /\ forall i T,
       tables !! i = Some T ->
       exists T',
         Lru.lookup Nat.eqb i
           (classified_cache
              (snd (find_method str_hash tuple_hash set_order dex_list
                                class_name_ method_name descriptor_ st)))
         = Some T'
         /\ T' !! class_name_ = Some (bucket T class_name_)
         /\ forall key, key <> class_name_ -> T' !! key = T !! key.
Proof.
  intros Hlen Hmemo Hnone. unfold find_method, _number_of_dex.
  rewrite <- Hlen.
  destruct (find_method_in_state tables class_name_ method_name descriptor_
              0 st Hmemo Hnone) as (Hlog & Hnew & _).
  split; [exact Hlog|]. intros i T Hi.
  exists (snd (defaultdict_get T class_name_)).
  split; [exact (Hnew i T Hi)|].
  unfold defaultdict_get, bucket.
  destruct (T !! class_name_) eqn:E; cbn [snd default].
  - split; [exact E|auto].
  - split; [now rewrite lookup_insert_eq|].
    intros key Hkey. now rewrite lookup_insert_ne.
Qed.

End FindMethodEffects.

Lemma find_method_adds_the_class_to_every_table_witness :
  exists T',
    Lru.lookup Nat.eqb 0%nat
      (classified_cache
         (snd (find_method sample_str_hash sample_tuple_hash (fun l => l)
                           [sample_dex0] (Some ".*") (Some ".*") (Some ".*")
                           sample_classified_state)))
    = Some T'
    /\ T' !! Some ".*" = Some (bucket sample_table (Some ".*"))
    /\ forall key, key <> Some ".*" -> T' !! key = sample_table !! key.
Proof.
  assert (Hmemo : forall i T,
             [sample_table] !! i = Some T ->
             Lru.lookup Nat.eqb i (classified_cache sample_classified_state)
             = Some T).
  { intros [|[|i]] T H; try discriminate H. exact H. }
  assert (Hnone : first_match [sample_table] (Some ".*") (Some ".*")
                              (Some ".*") = None)
    by (vm_compute; reflexivity).
  exact (proj2 (find_method_adds_the_class_to_every_table
                  sample_str_hash sample_tuple_hash (fun l => l)
                  [sample_dex0] [sample_table] sample_classified_state
                  (Some ".*") (Some ".*") (Some ".*") eq_refl Hmemo Hnone)
               0%nat sample_table eq_refl).
Defined.

(** ** Finding and installing Rizin *)

Lemma execute_command_run sys command stderr_ cwd h :
  execute_command sys command stderr_ cwd h =
    (match sys_popen sys h command stderr_ cwd with
     | None => Throw OSError
     | Some process =>
         if (return_code process =? 0)%Z
         then Return (yielded EmptyString (stdout process))
         else Throw (CalledProcessError (return_code process) command
                       (PyStr match stderr_ with
                              | PIPE => stderr process
                              | STDOUT => EmptyString
                              end))
     end, h ++ [Popen command stderr_ cwd]).
Proof.
  unfold execute_command.
  destruct (sys_popen sys h command stderr_ cwd) as [p|]; [|reflexivity].
  destruct (return_code p =? 0)%Z; reflexivity.
Qed.

Ltac run_command :=
  match goal with
  | |- context [sys_popen ?s ?h ?c ?r ?d] =>
      let p := fresh "p" in
      let E := fresh "E" in
      let R := fresh "R" in
      destruct (sys_popen s h c r d) as [p|] eqn:E;
      [destruct (return_code p =? 0)%Z eqn:R|]
  end.

Ltac use_popen :=
  match goal with
  | H : sys_popen ?s ?h ?c ?r ?d = _ |- context [sys_popen ?s ?h ?c ?r ?d] =>
      rewrite H
  end.

Ltac tidy_runs :=
  rewrite <- ?app_assoc in *; cbn [app] in *;
  repeat match goal with
    | H : (_ =? _)%Z = true |- _ => apply Z.eqb_eq in H
    | H : (_ =? _)%Z = false |- _ => apply Z.eqb_neq in H
    end.

Ltac show_all_succeed :=
  let n := fresh "n" in
  let a := fresh "a" in
  let Hn := fresh "Hn" in
  intros n a Hn; cbn in Hn;
  repeat (destruct n as [|n];
          [injection Hn as <-; cbn; rewrite ?app_nil_r; use_popen; cbn;
           congruence|
           cbn in Hn]);
  discriminate.

Ltac stopped_at k :=
  exists k; eexists; split; [reflexivity|];
  split; [reflexivity|];
  split; [show_all_succeed|];
  cbn; rewrite ?app_nil_r; use_popen; cbn; auto.

(** X24. [update_rizin] returns [True] after its five commands have all
    ended with return code 0, and it never returns [False]: when a command
    ends with another return code the handler raises [AttributeError],
    and when a command cannot be started the error of [Popen] goes
    through; in both cases no later command is started. *)
Theorem update_rizin_never_returns_false sys source_path target_commit h :
  let commands := update_commands source_path target_commit in
  match update_rizin sys source_path target_commit h with
  | (Return value, h') =>
      value = true /\ h' = h ++ commands /\ all_succeed sys h commands
  | (Throw e, h') =>
      exists n a,
        commands !! n = Some a /\ h' = h ++ take (S n) commands /\
        all_succeed sys h (take n commands) /\
        match exit_code sys (h ++ take n commands) a with
        | Some code => code <> 0%Z /\ e = Builtin AttributeError
        | None => e = OSError
        end
  end.
Proof.
  cbv zeta. unfold update_rizin, try_except, update_failed.
  cbv [mbind IO_bind mret IO_ret lift_io decode].
  repeat (rewrite ?execute_command_run; run_command; cbn).
  all: tidy_runs.
  all: try solve [split; [reflexivity|]; split; [reflexivity|];
                  show_all_succeed].
  all: first [solve [stopped_at 0%nat] | solve [stopped_at 1%nat]
             | solve [stopped_at 2%nat] | solve [stopped_at 3%nat]
             | solve [stopped_at 4%nat]].
Qed.

(** X25. [download_rizin] asks whether the target exists, removes it
    and makes the directory again only if it does, and then starts
    [git clone]; it returns whether the clone ended with return code 0.
    A failing clone gives [False], not an exception: the only error that
    leaves the function is that of an operation that could not be
    carried out, and nothing is started after it. *)
Theorem download_rizin_clones_after_cleaning sys target_path h :
  let prepare :=
    if sys_access sys h target_path
    then [Access target_path; Rmtree target_path; Mkdir target_path]
    else [Access target_path] in
  let steps := prepare ++ [clone_command target_path] in
  match download_rizin sys target_path h with
  | (Return value, h') =>
      h' = h ++ steps /\
      exists code,
        exit_code sys (h ++ prepare) (clone_command target_path) = Some code
        /\ value = (code =? 0)%Z
  | (Throw e, h') =>
      e = OSError /\
      exists n, (n < length steps)%nat /\ h' = h ++ take (S n) steps
  end.
Proof.
  cbv zeta. unfold download_rizin, try_except, access, rmtree, mkdir.
  cbv [mbind IO_bind mret IO_ret].
  destruct (sys_access sys h target_path).
  - destruct (sys_rmtree sys _ target_path).
    2: { cbn. split; [reflexivity|]. exists 1%nat. cbn. split; [lia|].
         now rewrite <- !app_assoc. }
    destruct (sys_mkdir sys _ target_path).
    2: { cbn. split; [reflexivity|]. exists 2%nat. cbn. split; [lia|].
         now rewrite <- !app_assoc. }
    rewrite execute_command_run. run_command; cbn; tidy_runs.
    + split; [reflexivity|]. exists (return_code p). rewrite E. cbn.
      split; [reflexivity|]. now rewrite R.
    + split; [reflexivity|]. exists (return_code p). rewrite E. cbn.
      split; [reflexivity|]. symmetry. now apply Z.eqb_neq.
    + split; [reflexivity|]. exists 3%nat. cbn. split; [lia|reflexivity].
  - rewrite execute_command_run. run_command; cbn; tidy_runs.
    + split; [reflexivity|]. exists (return_code p). rewrite E. cbn.
      split; [reflexivity|]. now rewrite R.
    + split; [reflexivity|]. exists (return_code p). rewrite E. cbn.
      split; [reflexivity|]. symmetry. now apply Z.eqb_neq.
    + split; [reflexivity|]. exists 1%nat. cbn. split; [lia|reflexivity].
Qed.

Lemma span_split p s run rest :
  Str.span p s = (run, rest) -> s = run +:+ rest /\ Str.all p run = true.
Proof.
  revert run rest. induction s as [|c s IH]; intros run rest; cbn.
  - intros [= <- <-]. auto.
  - destruct (p c) eqn:Hc.
    + destruct (Str.span p s) as [run' rest'].
      intros [= <- <-]. destruct (IH _ _ eq_refl) as [-> Hall].
      cbn. rewrite Hc. auto.
    + intros [= <- <-]. auto.
Qed.

Lemma version_at_shape s version :
  version_at s = Some version ->
  exists major minor patch after,
    s = version +:+ after /\
    version = major +:+ "." +:+ minor +:+ "." +:+ patch /\
    number major /\ number minor /\ number patch.
Proof.
  unfold version_at.
  destruct (Str.span Chr.is_digit s) as [major rest] eqn:E1.
  apply span_split in E1 as [-> H1].
  destruct major as [|m major]; [discriminate|].
  destruct rest as [|dot rest]; [discriminate|].
  destruct (Ascii.eqb_spec dot "."%char) as [->|Hdot].
  2: { destruct dot as [[] [] [] [] [] [] [] []]; try discriminate.
       now destruct Hdot. }
  destruct (Str.span Chr.is_digit rest) as [minor rest2] eqn:E2.
  apply span_split in E2 as [-> H2].
  destruct minor as [|n minor]; [discriminate|].
  destruct rest2 as [|dot rest2]; [discriminate|].
  destruct (Ascii.eqb_spec dot "."%char) as [->|Hdot].
  2: { destruct dot as [[] [] [] [] [] [] [] []]; try discriminate.
       now destruct Hdot. }
  destruct (Str.span Chr.is_digit rest2) as [patch rest3] eqn:E3.
  apply span_split in E3 as [-> H3].
  destruct patch as [|k patch]; [discriminate|].
  intros [= <-].
  exists (String m major), (String n minor), (String k patch), rest3.
  repeat split; try assumption; try discriminate.
  rewrite !str_app_assoc. reflexivity.
Qed.

Lemma first_matched_shape s version :
  first_matched s = Some version ->
  exists before after major minor patch,
    s = before +:+ version +:+ after /\
    version = major +:+ "." +:+ minor +:+ "." +:+ patch /\
    number major /\ number minor /\ number patch.
Proof.
  induction s as [|c s IH]; cbn [first_matched].
  - destruct (version_at "") eqn:E; [|discriminate].
    intros [= ->]. apply version_at_shape in E
      as (major & minor & patch & after & Hs & Hv).
    exists "", after, major, minor, patch. auto.
  - destruct (version_at (String c s)) eqn:E.
    + intros [= ->]. apply version_at_shape in E
        as (major & minor & patch & after & Hs & Hv).
      exists "", after, major, minor, patch. auto.
    + intros H. destruct (IH H)
        as (before & after & major & minor & patch & -> & Hv).
      exists (String c before), after, major, minor, patch. auto.
Qed.

Lemma first_matched_truthy s version :
  first_matched s = Some version -> truthy (Some version) = true.
Proof.
  intros H. apply first_matched_shape in H
    as (_ & _ & major & minor & patch & _ & -> & [Hm _] & _).
  destruct major; [contradiction|reflexivity].
Qed.

(** X26. A version that [get_rizin_version] returns has the form
    digits, dot, digits, dot, digits, and it is read from the part of
    the output of [rizin -v] that comes before the first [@]: the
    command gave an output, the output has an [@], and the version is a
    piece of the text before it. *)
Theorem get_rizin_version_reads_before_at sys rizin_path h version :
  fst (get_rizin_version sys rizin_path h) = Return (Some version) ->
  exists output at_ before after major minor patch,
    sys_run sys h [rizin_path; "-v"] = Some output /\
    Str.find "@" output = Some at_ /\
    Str.take at_ output = before +:+ version +:+ after /\
    version = major +:+ "." +:+ minor +:+ "." +:+ patch /\
    number major /\ number minor /\ number patch.
Proof.
  unfold get_rizin_version. cbn [fst].
  destruct (sys_run sys h [rizin_path; "-v"]) as [output|] eqn:Hrun;
    [|discriminate].
  destruct (Str.find "@" output) as [at_|] eqn:Hat; [|discriminate].
  intros [= H]. apply first_matched_shape in H
    as (before & after & major & minor & patch & Hs & Hv).
  exists output, at_, before, after, major, minor, patch.
  split; [reflexivity|]. split; [exact Hat|]. split; [exact Hs|exact Hv].
Qed.

Lemma get_rizin_version_reads_before_at_witness :
  exists output at_ before after major minor patch,
    sys_run sample_path_system [] ["/usr/bin/rizin"; "-v"] = Some output /\
    Str.find "@" output = Some at_ /\
    Str.take at_ output = before +:+ "0.4.1" +:+ after /\
    "0.4.1" = major +:+ "." +:+ minor +:+ "." +:+ patch /\
    number major /\ number minor /\ number patch.
Proof.
  apply (get_rizin_version_reads_before_at sample_path_system
           "/usr/bin/rizin" [] "0.4.1").
  reflexivity.
Defined.

Lemma is_compatible_in compatible version :
  In version compatible -> is_compatible compatible (Some version) = true.
Proof.
  intros H. cbn. apply existsb_exists. exists version. split; [exact H|].
  apply String.eqb_refl.
Qed.

(** X27. A [rizin] found in PATH that reports a compatible version is
    returned at once: nothing but [shutil.which] and [rizin -v] is
    carried out, whatever the Quark directory holds and whether or not
    the installation is disabled. *)
Theorem find_rizin_instance_prefers_path compatible sys rizin_source_path
    target_commit disable_rizin_installation h path version :
  sys_which sys h "rizin" = Some path ->
  path <> "" ->
  fst (get_rizin_version sys path (h ++ [Which "rizin"]))
    = Return (Some version) ->
  In version compatible ->
  find_rizin_instance compatible sys rizin_source_path target_commit
    disable_rizin_installation h
  = (Return (Some path), h ++ [Which "rizin"; Run [path; "-v"]]).
Proof.
  intros Hwhich Hpath Hversion Hin.
  unfold find_rizin_instance, which. cbv [mbind IO_bind mret IO_ret].
  rewrite Hwhich.
  assert (Hne : nonempty path = true) by (now destruct path).
  rewrite Hne.
  destruct (get_rizin_version sys path (h ++ [Which "rizin"]))
    as [o h'] eqn:E.
  cbn [fst] in Hversion. subst o.
  unfold get_rizin_version in E. injection E as _ <-.
  rewrite (is_compatible_in _ _ Hin), <- app_assoc. reflexivity.
Qed.

Lemma find_rizin_instance_prefers_path_witness :
  find_rizin_instance ["0.4.1"] sample_path_system "/q/" "abc" false []
  = (Return (Some "/usr/bin/rizin"),
     [] ++ [Which "rizin"; Run ["/usr/bin/rizin"; "-v"]]).
Proof.
  apply (find_rizin_instance_prefers_path ["0.4.1"] sample_path_system
           "/q/" "abc" false [] "/usr/bin/rizin" "0.4.1").
  - reflexivity.
  - discriminate.
  - reflexivity.
  - cbn. auto.
Defined.

Ltac find_case :=
  match goal with
  | |- context [match sys_which ?s ?h ?c with _ => _ end] =>
      destruct (sys_which s h c)
  | |- context [if nonempty ?p then _ else _] => destruct (nonempty p)
  | |- context [if is_compatible ?c ?v then _ else _] =>
      destruct (is_compatible c v)
  | |- context [negb (truthy ?v)] => destruct (truthy v)
  end; cbv beta; cbn [negb andb].

(** X28. With the installation disabled [find_rizin_instance] only
    looks: it returns without raising, and all it carries out are calls
    of [shutil.which] and [rizin -v]; no process of the installation is
    started and no file is touched. *)
Theorem find_rizin_instance_disabled_only_looks compatible sys
    rizin_source_path target_commit h :
  exists found queries,
    find_rizin_instance compatible sys rizin_source_path target_commit
      true h = (Return found, h ++ queries) /\
    Forall (fun a => is_query a = true) queries.
Proof.
  unfold find_rizin_instance, which, get_rizin_version.
  cbv [mbind IO_bind mret IO_ret]. cbn [negb].
  repeat find_case.
  all: rewrite <- ?app_assoc; cbn [app]; eexists _, _;
    (split; [reflexivity|]); repeat constructor.
Qed.

(** X29. With the installation disabled and no [rizin] in PATH, the
    executable of the Quark directory is returned as soon as it reports
    a version, whether that version is among the compatible ones or
    not. *)
Theorem find_rizin_instance_disabled_returns_any_version compatible sys
    rizin_source_path target_commit h version :
  let rizin_executable_path :=
    rizin_source_path +:+ "build/binrz/rizin/rizin" in
  sys_which sys h "rizin" = None ->
  fst (get_rizin_version sys rizin_executable_path (h ++ [Which "rizin"]))
    = Return (Some version) ->
  find_rizin_instance compatible sys rizin_source_path target_commit true h
  = (Return (Some rizin_executable_path),
     h ++ [Which "rizin"; Run [rizin_executable_path; "-v"]]).
Proof.
  intros exe Hwhich Hversion.
  unfold find_rizin_instance, which. cbv [mbind IO_bind mret IO_ret].
  rewrite Hwhich. fold exe.
  unfold get_rizin_version in *. cbn [fst] in Hversion.
  injection Hversion as Hversion. rewrite Hversion.
  assert (Htruthy : truthy (Some version) = true).
  { destruct (sys_run sys _ _) as [output|]; [|discriminate].
    destruct (Str.find "@" output); [|discriminate].
    now apply first_matched_truthy in Hversion. }
  rewrite Htruthy. cbn [negb andb]. rewrite <- app_assoc. cbn [app].
  destruct (is_compatible compatible (Some version)); reflexivity.
Qed.

Lemma find_rizin_instance_disabled_returns_any_version_witness :
  find_rizin_instance ["0.4.1"] sample_outdated_system "/q/" "abc" true []
  = (Return (Some ("/q/" +:+ "build/binrz/rizin/rizin")),
     [] ++ [Which "rizin"; Run ["/q/" +:+ "build/binrz/rizin/rizin"; "-v"]]).
Proof.
  apply (find_rizin_instance_disabled_returns_any_version ["0.4.1"]
           sample_outdated_system "/q/" "abc" [] "0.3.0").
  - reflexivity.
  - reflexivity.
Defined.

Lemma update_rizin_run sys source_path target_commit h :
  fst (update_rizin sys source_path target_commit h) <> Return false /\
  exists ops,
    snd (update_rizin sys source_path target_commit h) = h ++ ops /\
    List.filter is_clone ops = [].
Proof.
  unfold update_rizin, try_except, update_failed.
  cbv [mbind IO_bind mret IO_ret lift_io decode].
  repeat (rewrite ?execute_command_run; run_command; cbn).
  all: rewrite <- ?app_assoc; cbn [app].
  all: split; [discriminate|]; eexists; split; reflexivity.
Qed.

Lemma download_rizin_run sys target_path h :
  exists ops,
    snd (download_rizin sys target_path h) = h ++ ops /\
    (length (List.filter is_clone ops) <= 1)%nat.
Proof.
  unfold download_rizin, try_except, access, rmtree, mkdir.
  cbv [mbind IO_bind mret IO_ret].
  destruct (sys_access sys h target_path);
    [destruct (sys_rmtree sys _ target_path);
     [destruct (sys_mkdir sys _ target_path)|]|].
  all: repeat (rewrite ?execute_command_run; run_command; cbn).
  all: rewrite <- ?app_assoc; cbn [app].
  all: eexists; split; [reflexivity|]; cbn; lia.
Qed.

Lemma download_attempts_run sys times target_path h :
  exists ops,
    snd (download_attempts sys times target_path h) = h ++ ops /\
    (length (List.filter is_clone ops) <= times)%nat.
Proof.
  revert h. induction times as [|times IH]; intros h; cbn [download_attempts].
  - exists []. cbn. rewrite app_nil_r. auto.
  - cbv [mbind IO_bind].
    destruct (download_rizin_run sys target_path h) as (ops & Hops & Hlen).
    destruct (download_rizin sys target_path h) as [[[]|e] h1];
      cbn [snd] in Hops; subst h1.
    + exists ops. cbn. split; [reflexivity|lia].
    + destruct (IH (h ++ ops)) as (ops' & -> & Hlen').
      exists (ops ++ ops'). rewrite app_assoc. split; [reflexivity|].
      rewrite List.filter_app, List.length_app. lia.
    + exists ops. cbn. split; [reflexivity|lia].
Qed.

(** X30. With the installation enabled [find_rizin_instance] never
    returns [None]: it returns a path or it raises. Whatever happens, it
    starts [git clone] at most three times. *)
Theorem find_rizin_instance_installs_or_raises compatible sys
    rizin_source_path target_commit h :
  let run :=
    find_rizin_instance compatible sys rizin_source_path target_commit
      false h in
  fst run <> Return None /\
  exists ops,
    snd run = h ++ ops /\ (length (List.filter is_clone ops) <= 3)%nat.
Proof.
  cbv zeta. unfold find_rizin_instance, which, get_rizin_version.
  cbv [mbind IO_bind mret IO_ret]. cbn [negb].
  repeat find_case.
  all: repeat match goal with
    | |- context [download_attempts ?s ?n ?p ?h0] =>
        let H := fresh "H" in
        destruct (download_attempts_run s n p h0) as (? & H & ?);
        destruct (download_attempts s n p h0) as [[[]|?] ?];
        cbn [snd] in H; subst
    | |- context [update_rizin ?s ?p ?c ?h0] =>
        let H := fresh "H" in
        destruct (update_rizin_run s p c h0) as (? & ? & H & ?);
        destruct (update_rizin s p c h0) as [[[]|?] ?];
        cbn [fst snd] in *; subst
    end.
  all: try congruence.
  all: (split; [discriminate|]).
  all: rewrite <- ?app_assoc; cbn [app]; eexists; (split; [reflexivity|]).
  all: cbn; rewrite ?List.filter_app, ?List.length_app;
    repeat match goal with
      | H : List.filter is_clone _ = [] |- _ => rewrite H
      end; cbn; lia.
Qed.
